(** * setapp-cli: the install orchestration of [bin/setapp.ts]

    A shallow embedding of the command-line installer: the argument
    handling, the catalog cache, the two catalog maps, the resolution
    loop, the per-application install function and its two schedules.

    Strings are Rocq strings of ASCII characters; the engine's own
    functions ([Number], [trim], [split], [toLowerCase], [indexOf],
    [splice], [slice]) are written out for that alphabet.  Numbers are
    kept exact (a decimal mantissa and exponent) instead of being rounded
    to doubles, which agrees with the engine on every value a double
    holds exactly. *)

From Stdlib Require Import ZArith List String Ascii Lia Bool.
From Stdlib Require Import Decimal DecimalString DecimalPos DecimalN.
From stdpp Require Import base option list gmap strings.

Set Warnings "-register-all".
Local Open Scope string_scope.
Local Open Scope Z_scope.

(** ** The engine's string functions *)

Module JS.

(** White space of [trim] and of [Number]: TAB, LF, VT, FF, CR, SP. *)
Definition is_ws (c : ascii) : bool :=
  let n := nat_of_ascii c in
  ((9 <=? n) && (n <=? 13))%nat || (n =? 32)%nat.

Definition is_digit (c : ascii) : bool :=
  let n := nat_of_ascii c in ((48 <=? n) && (n <=? 57))%nat.

Fixpoint trimStart (s : string) : string :=
  match s with
  | String c r => if is_ws c then trimStart r else s
  | EmptyString => EmptyString
  end.

Fixpoint trimEnd (s : string) : string :=
  match s with
  | String c r =>
      match trimEnd r with
      | EmptyString => if is_ws c then EmptyString else String c EmptyString
      | r' => String c r'
      end
  | EmptyString => EmptyString
  end.

Definition trim (s : string) : string := trimEnd (trimStart s).

Definition lower_char (c : ascii) : ascii :=
  let n := nat_of_ascii c in
  if ((65 <=? n) && (n <=? 90))%nat then ascii_of_nat (n + 32) else c.

Fixpoint toLowerCase (s : string) : string :=
  match s with
  | String c r => String (lower_char c) (toLowerCase r)
  | EmptyString => EmptyString
  end.

(** [s.split(sep)] for a one-character separator: never the empty list. *)
Fixpoint split (sep : ascii) (s : string) : list string :=
  match s with
  | EmptyString => [EmptyString]
  | String c r =>
      if Ascii.eqb c sep then EmptyString :: split sep r
      else match split sep r with
           | h :: t => String c h :: t
           | [] => [String c EmptyString]
           end
  end.

(** [path.split("/").pop()]: the last piece. *)
Definition pop (l : list string) : string := List.last l EmptyString.

Fixpoint starts_with (p s : string) : bool :=
  match p, s with
  | EmptyString, _ => true
  | String a p', String b s' => Ascii.eqb a b && starts_with p' s'
  | String _ _, EmptyString => false
  end.

Fixpoint drop (n : nat) (s : string) : string :=
  match n, s with
  | O, _ => s
  | S n', String _ r => drop n' r
  | S _, EmptyString => EmptyString
  end.

(** Every character of [s] passes the test [p]. *)
Fixpoint all_chars (p : ascii -> bool) (s : string) : bool :=
  match s with
  | EmptyString => true
  | String c r => p c && all_chars p r
  end.

(** The longest prefix of digits, and what follows it. *)
Fixpoint span_digits (s : string) : string * string :=
  match s with
  | String c r =>
      if is_digit c then let '(d, t) := span_digits r in (String c d, t)
      else (EmptyString, s)
  | EmptyString => (EmptyString, EmptyString)
  end.

(** ** Numbers *)

(** A number value: NaN, an infinity, or the finite value [m * 10^e].
    The sign of zero is not kept (no operation of the program tells
    [-0] from [0]). *)
Inductive number : Type :=
  | NaN
  | Infinity (negative : bool)
  | Dec (m e : Z).

Definition isNaN (n : number) : bool :=
  match n with NaN => true | _ => false end.

(** The integer a number denotes, when it denotes one. *)
Definition to_integer (n : number) : option Z :=
  match n with
  | Dec m e =>
      if 0 <=? e then Some (m * 10 ^ e)
      else if m mod 10 ^ (- e) =? 0 then Some (m / 10 ^ (- e)) else None
  | _ => None
  end.

(** [a > b] on numbers, for an integer [b]; false when [a] is NaN. *)
Definition gt_int (a : number) (b : Z) : bool :=
  match a with
  | NaN => false
  | Infinity neg => negb neg
  | Dec m e => if 0 <=? e then b <? m * 10 ^ e else b * 10 ^ (- e) <? m
  end.

(** Value of a run of decimal digits (the empty run counts 0). *)
Definition digits_value (s : string) : option Z :=
  option_map Z.of_uint (NilEmpty.uint_of_string s).

Definition radix_digit (c : ascii) : option Z :=
  let n := Z.of_nat (nat_of_ascii c) in
  if (48 <=? n) && (n <=? 57) then Some (n - 48)
  else if (97 <=? n) && (n <=? 102) then Some (n - 87)
  else if (65 <=? n) && (n <=? 70) then Some (n - 55)
  else None.

Fixpoint radix_value (radix acc : Z) (s : string) : option Z :=
  match s with
  | EmptyString => Some acc
  | String c r =>
      match radix_digit c with
      | Some d => if d <? radix then radix_value radix (radix * acc + d) r
                  else None
      | None => None
      end
  end.

(** [0x..], [0o..], [0b..] in either case, with at least one digit. *)
Definition NonDecimalIntegerLiteral (s : string) : option Z :=
  match s with
  | String z (String p (String c r)) =>
      let body := String c r in
      if negb (Ascii.eqb z "0") then None
      else if Ascii.eqb p "x" || Ascii.eqb p "X" then radix_value 16 0 body
      else if Ascii.eqb p "o" || Ascii.eqb p "O" then radix_value 8 0 body
      else if Ascii.eqb p "b" || Ascii.eqb p "B" then radix_value 2 0 body
      else None
  | _ => None
  end.

(** The exponent part: nothing, or [e]/[E], a sign, one digit or more,
    up to the end of the string. *)
Definition ExponentPart (s : string) : option Z :=
  match s with
  | EmptyString => Some 0
  | String c r =>
      if Ascii.eqb c "e" || Ascii.eqb c "E" then
        let '(neg, body) :=
          match r with
          | String sign b =>
              if Ascii.eqb sign "-" then (true, b)
              else if Ascii.eqb sign "+" then (false, b)
              else (false, r)
          | EmptyString => (false, r)
          end in
        match body with
        | EmptyString => None
        | _ => option_map (fun v => if neg then - v else v) (digits_value body)
        end
      else None
  end.

(** Digits, an optional fraction, an optional exponent; or [Infinity]. *)
Definition StrUnsignedDecimalLiteral (s : string) : option number :=
  if String.eqb s "Infinity" then Some (Infinity false) else
  let '(int_part, r1) := span_digits s in
  let '(frac_part, r2) :=
    match r1 with
    | String dot r =>
        if Ascii.eqb dot "." then span_digits r else (EmptyString, r1)
    | EmptyString => (EmptyString, r1)
    end in
  match int_part, frac_part with
  | EmptyString, EmptyString => None
  | _, _ =>
      match digits_value (int_part ++ frac_part), ExponentPart r2 with
      | Some m, Some e => Some (Dec m (e - Z.of_nat (String.length frac_part)))
      | _, _ => None
      end
  end.

Definition negate (n : number) : number :=
  match n with
  | NaN => NaN
  | Infinity neg => Infinity (negb neg)
  | Dec m e => Dec (- m) e
  end.

Definition StrDecimalLiteral (s : string) : option number :=
  match s with
  | String sign r =>
      if Ascii.eqb sign "-" then option_map negate (StrUnsignedDecimalLiteral r)
      else if Ascii.eqb sign "+" then StrUnsignedDecimalLiteral r
      else StrUnsignedDecimalLiteral s
  | EmptyString => StrUnsignedDecimalLiteral s
  end.

(** [Number(s)] on a string: white space is trimmed, the empty string is
    0, anything outside the numeric grammar is NaN. *)
Definition Number (s : string) : number :=
  match trim s with
  | EmptyString => Dec 0 0
  | t =>
      match NonDecimalIntegerLiteral t with
      | Some z => Dec z 0
      | None => default NaN (StrDecimalLiteral t)
      end
  end.

(** The decimal string of an integer, [String(z)]. *)
Definition string_of_Z (z : Z) : string :=
  if z <? 0 then "-" ++ NilEmpty.string_of_uint (N.to_uint (Z.to_N (- z)))
  else NilEmpty.string_of_uint (N.to_uint (Z.to_N z)).

End JS.

(** ** The catalog document and the two maps *)

(** The document at the type the program asserts for it: vendors, their
    applications, each with its versions. *)
Record Version := { archive_url : string }.

Record Application := {
  app_id : Z;
  app_name : string;
  app_versions : list Version
}.

Record Vendor := { applications : list Application }.

Definition Catalog := list Vendor.

(** A value of [appArchiveMap]. *)
Record AppInfo := { url : string; name : string }.

(** An element of [appsToInstall]: [{ ...app, id }]. *)
Record Target := { t_url : string; t_name : string; t_id : Z }.

Definition with_id (app : AppInfo) (id : Z) : Target :=
  {| t_url := url app; t_name := name app; t_id := id |}.

(** [appArchiveMap] and [appNameMap]. *)
Record Index := {
  appArchiveMap : gmap Z AppInfo;
  appNameMap : gmap string Z
}.

Definition empty_index : Index :=
  {| appArchiveMap := ∅; appNameMap := ∅ |}.

(** The body of the inner loop: an application with no version adds
    nothing; otherwise both maps are set, from the first version. *)
Definition add_application (ix : Index) (app : Application) : Index :=
  match app_versions app with
  | v :: _ =>
      {| appArchiveMap :=
           <[app_id app := {| url := archive_url v; name := app_name app |}]>
             (appArchiveMap ix);
         appNameMap :=
           <[JS.toLowerCase (app_name app) := app_id app]> (appNameMap ix) |}
  | [] => ix
  end.

Definition add_vendor (ix : Index) (vendor : Vendor) : Index :=
  fold_left add_application (applications vendor) ix.

Definition build_index (doc : Catalog) : Index :=
  fold_left add_vendor doc empty_index.

(** [appArchiveMap.get(appId)] for a number: the keys are integers, so a
    number that is no integer finds nothing. *)
Definition get_by_number (m : gmap Z AppInfo) (n : JS.number)
  : option (Z * AppInfo) :=
  match JS.to_integer n with
  | Some z => option_map (pair z) (m !! z)
  | None => None
  end.

(** ** Resolution *)

(** The lines the program prints, without their colours. *)
Inductive Message : Type :=
  | MsgIdNotFound (appId : JS.number)
  | MsgNameNotFound (identifier : string)
  | MsgInvalidAppId (identifier : string)
  | MsgNoValidApps
  | MsgUsage
  | MsgUsingCache
  | MsgCacheInvalid
  | MsgFetching
  | MsgCreatingDir
  | MsgDirError
  | MsgAlreadyExists (what : string)
  | MsgDownloading (what : string)
  | MsgInstalled (what : string)
  | MsgInstallError (what : string)
  | MsgSummary (installed skipped failed : nat)
  | MsgListed (total : nat)
  | MsgUnknownCommand (command : string).

(** What one turn of the resolution loop does. *)
Inductive Resolution : Type :=
  | Resolved (t : Target)
  | Reported (m : Message)
  | Silent.

(** One turn of the loop over [appIdentifiers]. *)
Definition resolve (nameFlag : bool) (ix : Index) (identifier : string)
  : Resolution :=
  let appId := JS.Number identifier in
  if negb (JS.isNaN appId) && negb nameFlag then
    match get_by_number (appArchiveMap ix) appId with
    | None => Reported (MsgIdNotFound appId)
    | Some (z, app) => Resolved (with_id app z)
    end
  else if nameFlag then
    match appNameMap ix !! JS.toLowerCase identifier with
    | None => Reported (MsgNameNotFound identifier)
    | Some id =>
        if id =? 0 then Reported (MsgNameNotFound identifier)
        else match appArchiveMap ix !! id with
             | Some app => Resolved (with_id app id)
             | None => Silent
             end
    end
  else Reported (MsgInvalidAppId identifier).

(** The whole loop: the targets in input order, and the lines printed. *)
Fixpoint resolve_all (nameFlag : bool) (ix : Index) (ids : list string)
  : list Target * list Message :=
  match ids with
  | [] => ([], [])
  | identifier :: rest =>
      let '(ts, ms) := resolve_all nameFlag ix rest in
      match resolve nameFlag ix identifier with
      | Resolved t => (t :: ts, ms)
      | Reported m => (ts, m :: ms)
      | Silent => (ts, ms)
      end
  end.

(** The spec's wording of "parses as an integer": an optional minus sign
    and then one decimal digit or more, nothing else. *)
Definition parses_as_integer (token : string) : bool :=
  let body :=
    match token with
    | String sign r => if Ascii.eqb sign "-" then r else token
    | EmptyString => token
    end in
  match JS.span_digits body with
  | (String _ _, EmptyString) => true
  | _ => false
  end.

(** ** Command line *)

Fixpoint indexOf (x : string) (l : list string) : option nat :=
  match l with
  | [] => None
  | y :: r => if String.eqb y x then Some O else option_map S (indexOf x r)
  end.

(** [args.splice(i, 1)]. *)
Definition splice1 (i : nat) (l : list string) : list string :=
  firstn i l ++ skipn (S i) l.

Record Args := {
  command : option string;
  appIdentifiers : list string;
  nameFlag : bool;
  parallelFlag : bool
}.

(** A string is falsy when it is missing or empty. *)
Definition truthy_string (s : option string) : bool :=
  match s with
  | Some (String _ _) => true
  | _ => false
  end.

(** [args] is [process.argv.slice(2)]; [command] is read before the flags
    are removed. *)
Definition parse_args (args : list string) : Args :=
  let command := hd_error args in
  let '(nameFlag, args1) :=
    match indexOf "--name" args with
    | Some i => (true, splice1 i args)
    | None => (false, args)
    end in
  let '(parallelFlag, args2) :=
    match indexOf "--parallel" args1 with
    | Some i => (true, splice1 i args1)
    | None => (false, args1)
    end in
  {| command := command;
     appIdentifiers := if truthy_string command then skipn 1 args2 else [];
     nameFlag := nameFlag;
     parallelFlag := parallelFlag |}.

Definition is_command (a : Args) (c : string) : bool :=
  match command a with
  | Some s => String.eqb s c
  | None => false
  end.

(** The first test of the program: no command, or [install] with no
    identifier. *)
Definition wants_usage (a : Args) : bool :=
  negb (truthy_string (command a))
  || (is_command a "install" && (length (appIdentifiers a) =? 0)%nat).

(** ** The cache record and its expiry *)

(** The document as the program reads it: of the asserted shape, or
    anything else (walking it then throws a TypeError). *)
Inductive Document : Type :=
  | Doc (c : Catalog)
  | IllShaped.

(** A value read back from JSON, as far as the test on [expiry] looks. *)
Inductive value : Type :=
  | VUndefined
  | VNull
  | VBool (b : bool)
  | VNum (n : JS.number)
  | VStr (s : string)
  | VArr (l : list value)
  | VObj.

Definition truthy (v : value) : bool :=
  match v with
  | VUndefined | VNull => false
  | VBool b => b
  | VNum JS.NaN => false
  | VNum (JS.Infinity _) => true
  | VNum (JS.Dec m _) => negb (m =? 0)
  | VStr s => negb (String.eqb s "")
  | VArr _ | VObj => true
  end.

(** The number of an array element after the array is joined to a
    string: [null] and [undefined] join as the empty string. *)
Fixpoint joined_number (v : value) : JS.number :=
  match v with
  | VUndefined | VNull => JS.Number ""
  | VBool _ => JS.NaN
  | VNum n => n
  | VStr s => JS.Number s
  | VArr [] => JS.Number ""
  | VArr [x] => joined_number x
  | VArr (_ :: _ :: _) => JS.NaN
  | VObj => JS.NaN
  end.

Definition ToNumber (v : value) : JS.number :=
  match v with
  | VUndefined => JS.NaN
  | VNull => JS.Dec 0 0
  | VBool b => JS.Dec (if b then 1 else 0) 0
  | _ => joined_number v
  end.

(** What [JSON.parse] gives for the cache file. *)
Inductive CacheParsed : Type :=
  | ParsedNull
  | ParsedOther
  | ParsedObject (expiry : value) (data : Document).

(** What is written back. *)
Record CacheData := {
  cd_data : Document;
  cd_expiry : Z;
  cd_etag : option string;
  cd_lastModified : option string
}.

(** [cacheData.expiry && cacheData.expiry > now]. *)
Definition cache_is_fresh (expiry : value) (now : Z) : bool :=
  truthy expiry && JS.gt_int (ToNumber expiry) now.

(** [cacheControl.match(/max-age=(\d+)/)]: the digits of the leftmost
    match. *)
Fixpoint match_max_age (s : string) : option string :=
  match s with
  | EmptyString => None
  | String _ r =>
      if JS.starts_with "max-age=" s then
        match JS.span_digits (JS.drop 8 s) with
        | (String c d, _) => Some (String c d)
        | _ => match_max_age r
        end
      else match_max_age r
  end.

Definition maxAge_of (cacheControl : option string) : Z :=
  match cacheControl with
  | Some (String _ _ as cc) =>
      match match_max_age cc with
      | Some digits => default 14400 (JS.digits_value digits)
      | None => 14400
      end
  | _ => 14400
  end.

(** [expiryTime]; [getTime] is [new Date(s).getTime()], with [None] for
    NaN. *)
Definition expiryTime (getTime : string -> option Z)
    (now : Z) (cacheControl expires : option string) : Z :=
  let maxAge := maxAge_of cacheControl in
  let expiryTime := now + maxAge * 1000 in
  match expires with
  | Some (String _ _ as e) =>
      match getTime e with
      | Some expiresDate => Z.min expiryTime expiresDate
      | None => expiryTime
      end
  | _ => expiryTime
  end.

(** ** Effects *)

Inductive Error : Type := mkError (message : string).

Record Response := {
  json : Error + Document;
  cache_control : option string;
  expires : option string;
  etag : option string;
  last_modified : option string
}.

(** What the program asks of the system it runs on. *)
Record Sys (W : Type) := {
  existsSync : string -> W -> bool;
  mkdirSync : string -> W -> (Error + unit) * W;
  readFileSync : string -> W -> Error + string;
  JSON_parse : string -> Error + CacheParsed;
  writeFileSync : string -> CacheData -> W -> (Error + unit) * W;
  Date_now : W -> Z * W;
  Date_getTime : string -> option Z;
  fetch : string -> W -> (Error + Response) * W;
  execSync : string -> W -> (Error + string) * W;
  randomBytes_hex : W -> string * W;
  env_HOME : option string
}.

Arguments existsSync {W}.
Arguments mkdirSync {W}.
Arguments readFileSync {W}.
Arguments JSON_parse {W}.
Arguments writeFileSync {W}.
Arguments Date_now {W}.
Arguments Date_getTime {W}.
Arguments fetch {W}.
Arguments execSync {W}.
Arguments randomBytes_hex {W}.
Arguments env_HOME {W}.

Inductive Event : Type :=
  | EvLog (m : Message)
  | EvMkdir (path : string)
  | EvFetch (url : string)
  | EvWrite (path : string) (record : CacheData)
  | EvExec (cmd : string).

(** How a computation ends: a value, a thrown error, [process.exit]. *)
Inductive outcome (A : Type) : Type :=
  | Ret (a : A)
  | Throw (e : Error)
  | Exit (code : Z).

Arguments Ret {A}.
Arguments Throw {A}.
Arguments Exit {A}.

Record State (W : Type) := { world : W; trace : list Event }.

Arguments world {W}.
Arguments trace {W}.

Definition M (W A : Type) : Type := State W -> outcome A * State W.

Definition ret {W A} (a : A) : M W A := fun s => (Ret a, s).

Definition bind {W A B} (m : M W A) (f : A -> M W B) : M W B :=
  fun s =>
    match m s with
    | (Ret a, s') => f a s'
    | (Throw e, s') => (Throw e, s')
    | (Exit c, s') => (Exit c, s')
    end.

Definition throw {W A} (e : Error) : M W A := fun s => (Throw e, s).

Definition exit {W A} (code : Z) : M W A := fun s => (Exit code, s).

(** [try { m } catch (e) { h e }]: [process.exit] is not caught. *)
Definition try_catch {W A} (m : M W A) (h : Error -> M W A) : M W A :=
  fun s =>
    match m s with
    | (Throw e, s') => h e s'
    | r => r
    end.

Definition emit {W} (e : Event) : M W unit :=
  fun s => (Ret tt, {| world := world s; trace := trace s ++ [e] |}).

Definition console_log {W} (m : Message) : M W unit := emit (EvLog m).

(** A call into the system that may throw. *)
Definition call {W A} (f : W -> (Error + A) * W) : M W A :=
  fun s =>
    let '(r, w) := f (world s) in
    let s' := {| world := w; trace := trace s |} in
    match r with
    | inl e => (Throw e, s')
    | inr a => (Ret a, s')
    end.

(** A call into the system that cannot throw. *)
Definition ask {W A} (f : W -> A * W) : M W A :=
  fun s =>
    let '(a, w) := f (world s) in
    (Ret a, {| world := w; trace := trace s |}).

Notation "'let!' x ':=' m 'in' k" := (bind m (fun x => k))
  (at level 10, x name, m at level 100, k at level 200).
Notation "'let!' ' p ':=' m 'in' k" := (bind m (fun p => k))
  (at level 10, p pattern, m at level 100, k at level 200).
Notation "'do!' m 'in' k" := (bind m (fun _ => k))
  (at level 10, m at level 100, k at level 200).

Fixpoint mapM {W A B} (f : A -> M W B) (l : list A) : M W (list B) :=
  match l with
  | [] => ret []
  | a :: r =>
      let! b := f a in let! bs := mapM f r in ret (b :: bs)
  end.


(** ** The install function *)

Record InstallResult := {
  success : bool;
  r_name : string;
  skipped : bool;
  error : option Error
}.

(** The three results [installApp] returns. *)
Definition skipped_result (app : Target) : InstallResult :=
  {| success := true; r_name := t_name app; skipped := true; error := None |}.

Definition installed_result (app : Target) : InstallResult :=
  {| success := true; r_name := t_name app; skipped := false; error := None |}.

Definition failed_result (app : Target) (e : Error) : InstallResult :=
  {| success := false; r_name := t_name app; skipped := false;
     error := Some e |}.

Definition dq : string := String (ascii_of_nat 34) EmptyString.

Definition quoted (s : string) : string := (dq ++ s ++ dq)%string.

Definition setappDir : string := "/Applications/Setapp".

Definition find_existing_cmd (app : Target) : string :=
  ("find " ++ quoted setappDir ++ " -maxdepth 1 -name "
     ++ quoted (t_name app ++ "*.app") ++ " 2>/dev/null || true")%string.

Definition curl_cmd (parallelFlag : bool) (app : Target) (tempFile : string)
  : string :=
  ("curl -L " ++ quoted (t_url app) ++ " -o " ++ quoted tempFile ++ " "
     ++ (if parallelFlag then "" else "--progress-bar"))%string.

Definition mkdir_cmd (tempDir : string) : string :=
  ("mkdir -p " ++ quoted tempDir)%string.

Definition unzip_cmd (tempFile tempDir : string) : string :=
  ("unzip -q " ++ quoted tempFile ++ " -d " ++ quoted tempDir)%string.

Definition find_bundles_cmd (tempDir : string) : string :=
  ("find " ++ quoted tempDir ++ " -name " ++ quoted "*.app"
     ++ " -maxdepth 1")%string.

Definition mv_cmd (appFile destPath : string) : string :=
  ("sudo mv " ++ quoted appFile ++ " " ++ quoted destPath)%string.

Definition rm_cmd (tempDir tempFile : string) : string :=
  ("rm -rf " ++ quoted tempDir ++ " " ++ quoted tempFile)%string.

Definition sudo_mkdir_cmd : string := ("sudo mkdir -p " ++ quoted setappDir)%string.

Definition is_curl (cmd : string) : bool := JS.starts_with "curl " cmd.

(** The commands of a trace that are downloads. *)
Definition downloads (t : list Event) : list string :=
  omap (fun e => match e with
                 | EvExec cmd => if is_curl cmd then Some cmd else None
                 | _ => None
                 end) t.

(** The remote fetches of a trace. *)
Definition fetches (t : list Event) : list string :=
  omap (fun e => match e with EvFetch u => Some u | _ => None end) t.

(** Where [installApp] stands at its one [await]: it has returned, or it
    waits on the download promise, settled with what the executor did. *)
Inductive Started : Type :=
  | Finished (r : InstallResult)
  | Awaiting (tempDir tempFile : string) (rejected : option Error).

Section Program.

Context {W : Type} (sys : Sys W).

Definition exec (cmd : string) : M W string :=
  do! emit (EvExec cmd) in call (execSync sys cmd).

Definition exists_ (path : string) : M W bool :=
  fun s => (Ret (existsSync sys path (world s)), s).

(** The [catch] block of [installApp]. *)
Definition install_failed (app : Target) (e : Error) : M W InstallResult :=
  do! console_log (MsgInstallError (t_name app)) in
  ret (failed_result app e).

(** The promise built around the download: its executor runs at once and
    a throw inside it rejects the promise. *)
Definition download_promise (parallelFlag : bool) (app : Target)
    (tempFile : string) : M W (option Error) :=
  try_catch
    (do! exec (curl_cmd parallelFlag app tempFile) in ret None)
    (fun e => ret (Some e)).

(** The [try] block of [installApp] up to its [await]. *)
Definition check_and_download (parallelFlag : bool) (app : Target)
  : M W Started :=
  let! existingApps := exec (find_existing_cmd app) in
  match JS.trim existingApps with
  | String _ _ =>
      do! console_log (MsgAlreadyExists (t_name app)) in
      ret (Finished (skipped_result app))
  | EmptyString =>
      let! randomId := ask (randomBytes_hex sys) in
      let tempDir :=
        ("/tmp/setapp_" ++ randomId ++ "_" ++ JS.string_of_Z (t_id app))%string in
      let tempFile := (tempDir ++ ".zip")%string in
      do! console_log (MsgDownloading (t_name app)) in
      let! rejected := download_promise parallelFlag app tempFile in
      ret (Awaiting tempDir tempFile rejected)
  end.

(** [installApp] up to its [await]. *)
Definition installApp_start (parallelFlag : bool) (app : Target)
  : M W Started :=
  try_catch
    (check_and_download parallelFlag app)
    (fun e => let! r := install_failed app e in ret (Finished r)).

(** One turn of the loop over [appFiles]. *)
Definition place (appFile : string) : M W unit :=
  match appFile with
  | EmptyString => ret tt
  | String _ _ =>
      let appName := JS.pop (JS.split "/" appFile) in
      let destPath := (setappDir ++ "/" ++ appName)%string in
      let! present := exists_ destPath in
      if present then console_log (MsgAlreadyExists appName)
      else
        do! exec (mv_cmd appFile destPath) in
        console_log (MsgInstalled appName)
  end.

Fixpoint place_all (appFiles : list string) : M W unit :=
  match appFiles with
  | [] => ret tt
  | appFile :: rest => do! place appFile in place_all rest
  end.

(** The [try] block of [installApp] after its [await]. *)
Definition extract_and_place (app : Target) (tempDir tempFile : string)
    (rejected : option Error) : M W InstallResult :=
  do! match rejected with
      | Some e => throw e
      | None => ret tt
      end in
  do! exec (mkdir_cmd tempDir) in
  do! exec (unzip_cmd tempFile tempDir) in
  let! found := exec (find_bundles_cmd tempDir) in
  let appFiles := JS.split "010" (JS.trim found) in
  if (length appFiles =? 0)%nat then
    throw (mkError "No .app package found in the downloaded archive")
  else
    do! place_all appFiles in
    do! exec (rm_cmd tempDir tempFile) in
    ret (installed_result app).

(** [installApp] after its [await]. *)
Definition installApp_resume (app : Target) (tempDir tempFile : string)
    (rejected : option Error) : M W InstallResult :=
  try_catch
    (extract_and_place app tempDir tempFile rejected)
    (install_failed app).

Definition finish (app : Target) (st : Started) : M W InstallResult :=
  match st with
  | Finished r => ret r
  | Awaiting tempDir tempFile rejected =>
      installApp_resume app tempDir tempFile rejected
  end.

(** [await installApp(app)] with nothing else pending. *)
Definition installApp (parallelFlag : bool) (app : Target)
  : M W InstallResult :=
  let! st := installApp_start parallelFlag app in finish app st.

(** The sequential loop. *)
Definition install_sequential (apps : list Target) : M W (list InstallResult) :=
  mapM (installApp false) apps.

Fixpoint finish_all (l : list (Target * Started)) : M W (list InstallResult) :=
  match l with
  | [] => ret []
  | (app, st) :: rest =>
      let! r := finish app st in
      let! rs := finish_all rest in
      ret (r :: rs)
  end.

(** [appsToInstall.map(installApp)] runs every call up to its [await];
    [Promise.all] then lets each one finish, in the order they waited,
    and gives the results by position. *)
Definition install_parallel (apps : list Target) : M W (list InstallResult) :=
  let! started := mapM (installApp_start true) apps in
  finish_all (combine apps started).

Definition install_all (parallelFlag : bool) (apps : list Target)
  : M W (list InstallResult) :=
  if parallelFlag then install_parallel apps else install_sequential apps.

(** *** The catalog: cache first, then the network *)

(** [path.join] is written as a concatenation. *)
Definition cacheDir : string :=
  ((match env_HOME sys with
    | Some (String _ _ as home) => home
    | _ => "~"
    end) ++ "/.cache/setapp-cli")%string.

Definition cacheFile : string := (cacheDir ++ "/store-api-cache.json")%string.

(** What the cache file holds, as the cache test sees it: nothing, an
    error of the read or of the parse, or the parsed value. *)
Definition cache_record_at (w : W) : option (Error + CacheParsed) :=
  if existsSync sys cacheFile w then
    Some match readFileSync sys cacheFile w with
         | inl e => inl e
         | inr text => JSON_parse sys text
         end
  else None.


Definition api_url : string := "https://store.setapp.com/store/api/v8/en".

Definition of_result {A} (r : Error + A) : M W A :=
  match r with
  | inl e => throw e
  | inr a => ret a
  end.

Definition ensure_cache_dir : M W unit :=
  let! present := exists_ cacheDir in
  if present then ret tt
  else do! emit (EvMkdir cacheDir) in call (mkdirSync sys cacheDir).

(** The cache test: [Some json] when [useCache] ends up true. *)
Definition read_cache : M W (option Document) :=
  let! present := exists_ cacheFile in
  if present then
    try_catch
      (let! text := (fun s => of_result (readFileSync sys cacheFile (world s)) s) in
       let! cacheData := of_result (JSON_parse sys text) in
       let! now := ask (Date_now sys) in
       match cacheData with
       | ParsedNull =>
           throw (mkError "TypeError: null is not an object")
       | ParsedOther => ret None
       | ParsedObject expiry data =>
           if cache_is_fresh expiry now then
             do! console_log MsgUsingCache in ret (Some data)
           else ret None
       end)
      (fun _ => do! console_log MsgCacheInvalid in ret None)
  else ret None.

(** The fetch, the expiry and the write of the cache file. *)
Definition fetch_catalog : M W Document :=
  do! console_log MsgFetching in
  do! emit (EvFetch api_url) in
  let! response := call (fetch sys api_url) in
  let! json := of_result (json response) in
  let! now := ask (Date_now sys) in
  let cacheData :=
    {| cd_data := json;
       cd_expiry := expiryTime (Date_getTime sys) now
                      (cache_control response) (expires response);
       cd_etag := etag response;
       cd_lastModified := last_modified response |} in
  do! emit (EvWrite cacheFile cacheData) in
  do! call (writeFileSync sys cacheFile cacheData) in
  ret json.

(** The cache test followed by the fetch when it fails. *)
Definition load_catalog : M W Document :=
  let! cached := read_cache in
  match cached with
  | Some json => ret json
  | None => fetch_catalog
  end.

Definition getCatalog : M W Document :=
  do! ensure_cache_dir in load_catalog.

(** Walking [typedJson]. *)
Definition typed (json : Document) : M W Catalog :=
  match json with
  | Doc c => ret c
  | IllShaped => throw (mkError "TypeError: undefined is not an object")
  end.

Definition ensure_setapp_dir : M W unit :=
  try_catch
    (let! present := exists_ setappDir in
     if present then ret tt
     else
       do! console_log MsgCreatingDir in
       try_catch
         (do! exec sudo_mkdir_cmd in ret tt)
         (fun _ => do! console_log MsgDirError in exit 1))
    (fun _ => do! console_log MsgDirError in exit 1).

Fixpoint log_all (ms : list Message) : M W unit :=
  match ms with
  | [] => ret tt
  | m :: rest => do! console_log m in log_all rest
  end.

Definition count (p : InstallResult -> bool) (l : list InstallResult) : nat :=
  length (List.filter p l).

Definition summary (n : nat) (results : list InstallResult) : Message :=
  let successful := count success results in
  let skipped := count skipped results in
  MsgSummary (successful - skipped) skipped (n - successful).

(** The [install] command, after the maps are built (the lines that
    list the targets before the installs are left out). *)
Definition install_command (a : Args) (ix : Index)
  : M W (list InstallResult) :=
  let '(appsToInstall, lines) :=
    resolve_all (nameFlag a) ix (appIdentifiers a) in
  do! log_all lines in
  if (length appsToInstall =? 0)%nat then
    do! console_log MsgNoValidApps in exit 1
  else
    let! results := install_all (parallelFlag a) appsToInstall in
    do! console_log (summary (length appsToInstall) results) in
    ret results.

(** The program once it has the catalog. *)
Definition dispatch (a : Args) (json : Document) : M W (list InstallResult) :=
  let! doc := typed json in
  let ix := build_index doc in
  do! ensure_setapp_dir in
  if is_command a "install" then install_command a ix
  else if is_command a "list" then
    do! console_log (MsgListed (size (appArchiveMap ix))) in ret []
  else
    do! console_log (MsgUnknownCommand (default "" (command a))) in ret [].

(** The program, from its arguments to its end. *)
Definition main (args : list string) : M W (list InstallResult) :=
  let a := parse_args args in
  if wants_usage a then do! console_log MsgUsage in exit 1
  else let! json := getCatalog in dispatch a json.

Definition run (args : list string) (w : W)
  : outcome (list InstallResult) * State W :=
  main args {| world := w; trace := [] |}.

End Program.

(** ** A scripted machine, to run the program on *)

Record Machine := {
  files : list string;
  cache_text : Error + string;
  parses : list (string * CacheParsed);
  clock : Z;
  dates : list (string * Z);
  network : Error + Response;
  disk_writable : bool;
  commands : list (Error + string);
  random_hex : string
}.

Fixpoint assoc {A} (k : string) (l : list (string * A)) : option A :=
  match l with
  | [] => None
  | (k', a) :: r => if String.eqb k' k then Some a else assoc k r
  end.

(** Each [execSync] takes the next answer of the script; past its end a
    command prints nothing and succeeds. *)
Definition next_command (m : Machine) : (Error + string) * Machine :=
  match commands m with
  | [] => (inr "", m)
  | r :: rest =>
      (r, {| files := files m; cache_text := cache_text m;
             parses := parses m; clock := clock m; dates := dates m;
             network := network m; disk_writable := disk_writable m;
             commands := rest; random_hex := random_hex m |})
  end.

Definition write_result (m : Machine) : Error + unit :=
  if disk_writable m then inr tt else inl (mkError "EACCES").

Definition scripted (m0 : Machine) : Sys Machine :=
  {| existsSync := fun path m => existsb (String.eqb path) (files m);
     mkdirSync := fun _ m => (write_result m0, m);
     readFileSync := fun _ m => cache_text m;
     JSON_parse := fun text =>
       match assoc text (parses m0) with
       | Some v => inr v
       | None => inl (mkError "SyntaxError")
       end;
     writeFileSync := fun _ _ m => (write_result m0, m);
     Date_now := fun m => (clock m, m);
     Date_getTime := fun s => assoc s (dates m0);
     fetch := fun _ m => (network m, m);
     execSync := fun _ m => next_command m;
     randomBytes_hex := fun m => (random_hex m, m);
     env_HOME := Some "/Users/me" |}.

(** A system with no state, where every command prints nothing and
    succeeds and nothing exists yet. *)
Definition quiet : Sys unit :=
  {| existsSync := fun _ _ => false;
     mkdirSync := fun _ w => (inr tt, w);
     readFileSync := fun _ _ => inl (mkError "ENOENT");
     JSON_parse := fun _ => inl (mkError "SyntaxError");
     writeFileSync := fun _ _ w => (inr tt, w);
     Date_now := fun w => (0, w);
     Date_getTime := fun _ => None;
     fetch := fun _ w => (inl (mkError "offline"), w);
     execSync := fun _ w => (inr "", w);
     randomBytes_hex := fun w => ("00", w);
     env_HOME := None |}.

Definition run_on (m : Machine) (args : list string) :=
  run (scripted m) args m.

(** ** Notions the statements use *)

(** Every application of the document, in the document's order. *)
Definition entries (doc : Catalog) : list Application :=
  flat_map applications doc.

(** The id of the last application, among those with a version, whose
    lower-cased name is [k]. *)
Fixpoint last_id_named (k : string) (apps : list Application) : option Z :=
  match apps with
  | [] => None
  | a :: rest =>
      match last_id_named k rest with
      | Some id => Some id
      | None =>
          match app_versions a with
          | _ :: _ =>
              if String.eqb (JS.toLowerCase (app_name a)) k
              then Some (app_id a) else None
          | [] => None
          end
      end
  end.

(** A document with two names that differ only by case. *)
Definition sample_catalog : Catalog :=
  [ {| applications :=
         [ {| app_id := 42; app_name := "Foo";
              app_versions := [ {| archive_url := "http://x/a.zip" |} ] |};
           {| app_id := 7; app_name := "Bar"; app_versions := [] |};
           {| app_id := 8; app_name := "foo";
              app_versions := [ {| archive_url := "http://x/b.zip" |} ] |} ] |} ].

(** A computation run in any state ends with an outcome accepted by [Q]
    and adds to the trace only events accepted by [P]. *)
Definition hoare {W A} (P : Event -> Prop) (Q : outcome A -> Prop)
    (m : M W A) : Prop :=
  forall s, exists o s' t,
    m s = (o, s') /\ trace s' = (trace s ++ t)%list /\ Forall P t /\ Q o.

(** It returns, with a value accepted by [R]. *)
Definition returning {A} (R : A -> Prop) (o : outcome A) : Prop :=
  match o with
  | Ret a => R a
  | _ => False
  end.

(** It returns a value accepted by [R], or throws; it does not exit. *)
Definition no_exit {A} (R : A -> Prop) (o : outcome A) : Prop :=
  match o with
  | Ret a => R a
  | Throw _ => True
  | Exit _ => False
  end.

Definition anyhow {A} (o : outcome A) : Prop := True.

Definition any_event (e : Event) : Prop := True.

(** The events of an install: lines and commands. *)
Definition install_event (e : Event) : Prop :=
  match e with
  | EvLog _ | EvExec _ => True
  | _ => False
  end.

(** The commands of a trace. *)
Definition executed (t : list Event) : list string :=
  omap (fun e => match e with EvExec cmd => Some cmd | _ => None end) t.

(** A result that belongs to a target: it carries the target's name, and
    it is a failure exactly when it carries an error. *)
Definition result_of (app : Target) (r : InstallResult) : Prop :=
  r_name r = t_name app
  /\ match error r with
     | Some _ => success r = false /\ skipped r = false
     | None => success r = true
     end.

Definition started_for (app : Target) (st : Started) : Prop :=
  match st with
  | Finished r => result_of app r
  | Awaiting _ _ _ => True
  end.

(** Three targets and two scripts where the unzip of the second fails:
    one in the order of the sequential loop, one in the order of the
    parallel schedule. *)
Definition three_targets : list Target :=
  [ {| t_url := "http://x/a.zip"; t_name := "A"; t_id := 1 |};
    {| t_url := "http://x/b.zip"; t_name := "B"; t_id := 2 |};
    {| t_url := "http://x/c.zip"; t_name := "C"; t_id := 3 |} ].

Definition machine_with (script : list (Error + string)) : Machine :=
  {| files := ["/Applications/Setapp"; "/Users/me/.cache/setapp-cli"];
     cache_text := inl (mkError "ENOENT");
     parses := [];
     clock := 1000000;
     dates := [];
     network := inl (mkError "offline");
     disk_writable := true;
     commands := script;
     random_hex := "00" |}.

Definition corrupt : Error := mkError "unzip: cannot find zipfile directory".

Definition sequential_script : list (Error + string) :=
  [ inr ""; inr ""; inr ""; inr ""; inr "/tmp/setapp_00_1/A.app"; inr ""; inr "";
    inr ""; inr ""; inr ""; inl corrupt;
    inr ""; inr ""; inr ""; inr ""; inr "/tmp/setapp_00_3/C.app"; inr ""; inr "" ].

Definition parallel_script : list (Error + string) :=
  [ inr ""; inr ""; inr ""; inr ""; inr ""; inr "";
    inr ""; inr ""; inr "/tmp/setapp_00_1/A.app"; inr ""; inr "";
    inr ""; inl corrupt;
    inr ""; inr ""; inr "/tmp/setapp_00_3/C.app"; inr ""; inr "" ].

Definition three_failures : list (Error + string) :=
  [inl corrupt; inl corrupt; inl corrupt].

Definition start_state {W} (w : W) : State W := {| world := w; trace := [] |}.

(** Events that are neither a fetch nor a command. *)
Definition silent_event (e : Event) : Prop :=
  match e with
  | EvLog _ | EvMkdir _ | EvWrite _ _ => True
  | _ => False
  end.

(** Events that are not a command. *)
Definition no_command (e : Event) : Prop :=
  match e with
  | EvExec _ => False
  | _ => True
  end.

(** Machines for the examples: the catalog on the network or in the
    cache, the disk writable or not, the destination there or not. *)
Definition sample_response : Response :=
  {| json := inr (Doc sample_catalog);
     cache_control := Some "public, max-age=14400";
     expires := None;
     etag := None;
     last_modified := None |}.


Definition cached (expiry : Z) (destination : list string)
    (script : list (Error + string)) : Machine :=
  {| files := destination ++
              ["/Users/me/.cache/setapp-cli";
               "/Users/me/.cache/setapp-cli/store-api-cache.json"];
     cache_text := inr "cache";
     parses := [("cache", ParsedObject (VNum (JS.Dec expiry 0))
                            (Doc sample_catalog))];
     clock := 1000000;
     dates := [];
     network := inr sample_response;
     disk_writable := true;
     commands := script;
     random_hex := "00" |}.


(** ** Notions for the remaining code *)

(** [l] without the first occurrence of [x]. *)
Fixpoint remove_first (x : string) (l : list string) : list string :=
  match l with
  | [] => []
  | y :: r => if String.eqb y x then r else y :: remove_first x r
  end.

Definition has_version (app : Application) : bool :=
  match app_versions app with
  | [] => false
  | _ :: _ => true
  end.

(** What the last application with id [id], among those with a version,
    sets in [appArchiveMap]. *)
Fixpoint last_info_with_id (id : Z) (apps : list Application) : option AppInfo :=
  match apps with
  | [] => None
  | a :: rest =>
      match last_info_with_id id rest with
      | Some info => Some info
      | None =>
          match app_versions a with
          | v :: _ =>
              if app_id a =? id
              then Some {| url := archive_url v; name := app_name a |}
              else None
          | [] => None
          end
      end
  end.

(** A target that is an entry of the id map. *)
Definition in_index (ix : Index) (t : Target) : Prop :=
  appArchiveMap ix !! t_id t = Some {| url := t_url t; name := t_name t |}.

(** A line of the resolution loop about one of the identifiers [ids]. *)
Definition about (ids : list string) (m : Message) : Prop :=
  exists identifier,
    In identifier ids
    /\ (m = MsgIdNotFound (JS.Number identifier)
        \/ m = MsgNameNotFound identifier
        \/ m = MsgInvalidAppId identifier).

(** The temporary directory and archive of a target, for a random token. *)
Definition temp_dir (randomId : string) (app : Target) : string :=
  ("/tmp/setapp_" ++ randomId ++ "_" ++ JS.string_of_Z (t_id app))%string.

Definition temp_file (randomId : string) (app : Target) : string :=
  (temp_dir randomId app ++ ".zip")%string.

Definition is_slash (c : ascii) : bool := Ascii.eqb c "/".

(** The events of [installApp] before its [await]: lines, the search of
    the destination, the download. *)
Definition before_await (e : Event) : Prop :=
  match e with
  | EvLog _ => True
  | EvExec cmd => is_curl cmd = true \/ exists app, cmd = find_existing_cmd app
  | _ => False
  end.

(** The events of [installApp] after its [await]: lines, and commands that
    are not downloads. *)
Definition after_await (e : Event) : Prop :=
  match e with
  | EvLog _ => True
  | EvExec cmd => is_curl cmd = false
  | _ => False
  end.

(** ** The earlier script

    The first version of the program, which lists what it would install:
    its command line and its loop over the identifiers. *)

Module V1.

(** A line of the listing: a message, or an application with the id
    shown and its address. *)
Inductive Line : Type :=
  | Said (m : Message)
  | Listed (name : string) (displayId : Z) (url : string).

Record Args := {
  command : option string;
  appIdentifiers : list string;
  nameFlag : bool
}.

(** Only [--name] is a flag, and the identifiers are taken whether or not
    there is a command. *)
Definition parse_args (args : list string) : Args :=
  let command := hd_error args in
  match indexOf "--name" args with
  | Some i =>
      {| command := command;
         appIdentifiers := skipn 1 (splice1 i args);
         nameFlag := true |}
  | None =>
      {| command := command;
         appIdentifiers := skipn 1 args;
         nameFlag := false |}
  end.

(** One turn of the loop. *)
Definition list_one (nameFlag : bool) (ix : Index) (identifier : string)
  : list Line :=
  let appId := JS.Number identifier in
  if negb (JS.isNaN appId) && negb nameFlag then
    match get_by_number (appArchiveMap ix) appId with
    | None => [Said (MsgIdNotFound appId)]
    | Some (z, app) => [Listed (name app) z (url app)]
    end
  else if nameFlag then
    match appNameMap ix !! JS.toLowerCase identifier with
    | None => [Said (MsgNameNotFound identifier)]
    | Some id =>
        if id =? 0 then [Said (MsgNameNotFound identifier)]
        else match appArchiveMap ix !! id with
             | Some app => [Listed (name app) id (url app)]
             | None => []
             end
    end
  else [Said (MsgInvalidAppId identifier)].

Definition list_all (nameFlag : bool) (ix : Index) (ids : list string)
  : list Line :=
  flat_map (list_one nameFlag ix) ids.

End V1.

(** The line of the earlier script for what the current loop does with
    an identifier. *)
Definition line_of (r : Resolution) : list V1.Line :=
  match r with
  | Resolved t => [V1.Listed (t_name t) (t_id t) (t_url t)]
  | Reported m => [V1.Said m]
  | Silent => []
  end.

(** The records written to the cache file, in a trace. *)
Definition writes (t : list Event) : list CacheData :=
  omap (fun e => match e with EvWrite _ record => Some record | _ => None end) t.

(** A machine whose cache file holds a record with the given expiry and
    data, whatever they are. *)
Definition cache_holding (expiry : value) (data : Document) : Machine :=
  {| files := ["/Users/me/.cache/setapp-cli";
               "/Users/me/.cache/setapp-cli/store-api-cache.json"];
     cache_text := inr "cache";
     parses := [("cache", ParsedObject expiry data)];
     clock := 1000000;
     dates := [];
     network := inr sample_response;
     disk_writable := true;
     commands := [];
     random_hex := "00" |}.

(** A machine with no cache directory and no cache file, where the
    directory cannot be made. *)
Definition no_cache_dir : Machine :=
  {| files := [];
     cache_text := inl (mkError "ENOENT");
     parses := [];
     clock := 1000000;
     dates := [];
     network := inr sample_response;
     disk_writable := false;
     commands := [];
     random_hex := "00" |}.

(** ** What the commands answered

    The system [sys] with a record kept, beside its own state, of every
    command run and of what it answered: a run on it is the run on [sys],
    and the record tells which answers each target's commands were
    given. *)

Abbreviation Answer := (string * (Error + string))%type.

Abbreviation Observed W := (W * list Answer)%type.

Definition observed {W} (sys : Sys W) : Sys (Observed W) :=
  {| existsSync := fun path o => existsSync sys path (fst o);
     mkdirSync := fun path o =>
       let '(r, w) := mkdirSync sys path (fst o) in (r, (w, snd o));
     readFileSync := fun path o => readFileSync sys path (fst o);
     JSON_parse := JSON_parse sys;
     writeFileSync := fun path record o =>
       let '(r, w) := writeFileSync sys path record (fst o) in (r, (w, snd o));
     Date_now := fun o =>
       let '(t, w) := Date_now sys (fst o) in (t, (w, snd o));
     Date_getTime := Date_getTime sys;
     fetch := fun url o =>
       let '(r, w) := fetch sys url (fst o) in (r, (w, snd o));
     execSync := fun cmd o =>
       let '(r, w) := execSync sys cmd (fst o) in
       (r, (w, (snd o ++ [(cmd, r)])%list));
     randomBytes_hex := fun o =>
       let '(h, w) := randomBytes_hex sys (fst o) in (h, (w, snd o));
     env_HOME := env_HOME sys |}.

Definition observe {W} (s : State W) : State (Observed W) :=
  {| world := (world s, []); trace := trace s |}.

Definition answers {W} (s : State (Observed W)) : list Answer :=
  snd (world s).

(** A computation, returning also what the commands it ran answered. *)
Definition logged {W A} (m : M (Observed W) A)
  : M (Observed W) (A * list Answer) :=
  fun s =>
    match m s with
    | (Ret a, s') => (Ret (a, skipn (length (answers s)) (answers s')), s')
    | (Throw e, s') => (Throw e, s')
    | (Exit c, s') => (Exit c, s')
    end.

Section Pipelines.

Context {W : Type} (sys : Sys W).

(** The sequential loop, each result with the answers given to its
    target's commands. *)
Definition sequential_pipelines (apps : list Target)
  : M (Observed W) (list (InstallResult * list Answer)) :=
  mapM (fun app => logged (installApp (observed sys) false app)) apps.

(** The parallel schedule, each result with the answers given to its
    target's commands before and after its [await]. *)
Fixpoint finish_pipelines (l : list (Target * (Started * list Answer)))
  : M (Observed W) (list (InstallResult * list Answer)) :=
  match l with
  | [] => ret []
  | (app, (st, before)) :: rest =>
      let! ra := logged (finish (observed sys) app st) in
      let! rs := finish_pipelines rest in
      ret ((fst ra, (before ++ snd ra)%list) :: rs)
  end.

Definition parallel_pipelines (apps : list Target)
  : M (Observed W) (list (InstallResult * list Answer)) :=
  let! started :=
    mapM (fun app => logged (installApp_start (observed sys) true app)) apps in
  finish_pipelines (combine apps started).

(** For each target of a run, in the targets' order, the commands of its
    pipeline with their answers. *)
Definition pipelines (parallelFlag : bool) (apps : list Target) (s : State W)
  : list (list Answer) :=
  match (if parallelFlag then parallel_pipelines apps
         else sequential_pipelines apps) (observe s) with
  | (Ret l, _) => map snd l
  | _ => []
  end.

End Pipelines.

(** What each command of each pipeline answered, the commands left out. *)
Definition outcomes (l : list (list Answer)) : list (list (Error + string)) :=
  map (map snd) l.

Fixpoint first_error (l : list (Error + string)) : option Error :=
  match l with
  | [] => None
  | inl e :: _ => Some e
  | inr _ :: rest => first_error rest
  end.

(** The result that the answers given to a target's commands call for: a
    failure with the first error when a command failed; otherwise a skip
    when the first command, the search of the destination, printed
    something, and an install when it did not. *)
Definition verdict (app : Target) (l : list (Error + string)) : InstallResult :=
  match first_error l with
  | Some e => failed_result app e
  | None =>
      match l with
      | inr out :: _ =>
          match JS.trim out with
          | String _ _ => skipped_result app
          | EmptyString => installed_result app
          end
      | _ => installed_result app
      end
  end.

(** The calls [f a], for [a] in the list, each run from the state the one
    before left and each returning, give the values [bs]. *)
Inductive in_turn {W A B} (f : A -> M W B)
  : State W -> list A -> list B -> State W -> Prop :=
  | in_turn_nil s : in_turn f s [] [] s
  | in_turn_cons s a b s1 l bs s2 :
      f a s = (Ret b, s1) ->
      in_turn f s1 l bs s2 ->
      in_turn f s (a :: l) (b :: bs) s2.

(** A computation on the observed system ends, in any state, with an
    outcome and with new answers in the record that [Q] accepts; the new
    answers are those of the commands it added to the trace. *)
Definition logs {W A} (m : M (Observed W) A)
    (Q : outcome A -> list Answer -> Prop) : Prop :=
  forall s, exists o s' new,
    m s = (o, s')
    /\ answers s' = (answers s ++ new)%list
    /\ executed (trace s') = (executed (trace s) ++ map fst new)%list
    /\ Q o new.

(** It returns, a value accepted by [R], when every command succeeded,
    and throws the first error otherwise. *)
Definition stage {A} (R : A -> Prop) (o : outcome A) (new : list Answer)
  : Prop :=
  match o with
  | Ret a => R a /\ first_error (map snd new) = None
  | Throw e => first_error (map snd new) = Some e
  | Exit _ => False
  end.

(** The first command of a pipeline is the search of the destination. *)
Definition begins_with_search (app : Target) (p : list Answer) : Prop :=
  exists a rest, p = (find_existing_cmd app, a) :: rest.

(** The answers before the [await] agree with where the call stands. *)
Definition start_report (app : Target) (st : Started) (new : list Answer)
  : Prop :=
  begins_with_search app new
  /\ match st with
     | Finished r => r = verdict app (map snd new)
     | Awaiting _ _ rejected =>
         exists cmd out rest,
           new = (cmd, inr out) :: rest
           /\ JS.trim out = ""
           /\ first_error (map snd rest) = rejected
     end.

(** The run of [m2] on the observed system is the run of [m1]. *)
Definition same_run {W A} (m1 : M W A) (m2 : M (Observed W) A) : Prop :=
  forall s1 s2,
    fst (world s2) = world s1 -> trace s2 = trace s1 ->
    fst (m2 s2) = fst (m1 s1)
    /\ fst (world (snd (m2 s2))) = world (snd (m1 s1))
    /\ trace (snd (m2 s2)) = trace (snd (m1 s1)).

(** * Properties *)

(** ** The engine's functions on small inputs *)

Example Number_42 : JS.Number "42" = JS.Dec 42 0.
Proof. reflexivity. Qed.
Example Number_pad : JS.Number " 7 " = JS.Dec 7 0.
Proof. reflexivity. Qed.
Example Number_frac : JS.Number "1.5" = JS.Dec 15 (-1).
Proof. reflexivity. Qed.
Example Number_empty : JS.Number "" = JS.Dec 0 0.
Proof. reflexivity. Qed.
Example Number_word : JS.Number "foo" = JS.NaN.
Proof. reflexivity. Qed.
Example Number_hex : JS.Number "0x1F" = JS.Dec 31 0.
Proof. reflexivity. Qed.
Example Number_exp : JS.Number "2e3" = JS.Dec 2 3.
Proof. reflexivity. Qed.
Example Number_neg : JS.string_of_Z (-305) = "-305" /\ JS.Number "-305" = JS.Dec (-305) 0.
Proof. split; reflexivity. Qed.
Example split_blank : JS.split "010" (JS.trim "") = [""].
Proof. reflexivity. Qed.

(** ** Decimal strings read back by [Number] *)

Lemma digit_facts (c : ascii) :
  JS.is_digit c = true ->
  JS.is_ws c = false /\ Ascii.eqb c "-" = false /\ Ascii.eqb c "+" = false
  /\ Ascii.eqb c "x" = false /\ Ascii.eqb c "X" = false
  /\ Ascii.eqb c "o" = false /\ Ascii.eqb c "O" = false
  /\ Ascii.eqb c "b" = false /\ Ascii.eqb c "B" = false
  /\ Ascii.eqb c "I" = false.
Proof.
  destruct c as [[] [] [] [] [] [] [] []]; vm_compute; intro H;
    try discriminate H; repeat split.
Qed.

Lemma string_of_uint_digits (d : uint) :
  JS.all_chars JS.is_digit (NilEmpty.string_of_uint d) = true.
Proof. induction d; simpl; auto. Qed.

Lemma trimStart_no_ws (s : string) :
  JS.all_chars (fun c => negb (JS.is_ws c)) s = true -> JS.trimStart s = s.
Proof.
  destruct s as [|c r]; simpl; [reflexivity|].
  intros [Hc _]%andb_prop. apply negb_true_iff in Hc. now rewrite Hc.
Qed.

Lemma trimEnd_no_ws (s : string) :
  JS.all_chars (fun c => negb (JS.is_ws c)) s = true -> JS.trimEnd s = s.
Proof.
  induction s as [|c r IH]; simpl; [reflexivity|].
  intros [Hc Hr]%andb_prop. apply negb_true_iff in Hc.
  rewrite (IH Hr), Hc. now destruct r.
Qed.

Lemma trim_no_ws (s : string) :
  JS.all_chars (fun c => negb (JS.is_ws c)) s = true -> JS.trim s = s.
Proof.
  intro H. unfold JS.trim. rewrite (trimStart_no_ws s H). now apply trimEnd_no_ws.
Qed.

Lemma digits_no_ws (s : string) :
  JS.all_chars JS.is_digit s = true ->
  JS.all_chars (fun c => negb (JS.is_ws c)) s = true.
Proof.
  induction s as [|c r IH]; simpl; [reflexivity|].
  intros [Hc Hr]%andb_prop.
  destruct (digit_facts c Hc) as [-> _]. simpl. auto.
Qed.

Lemma span_all_digits (s : string) :
  JS.all_chars JS.is_digit s = true -> JS.span_digits s = (s, EmptyString).
Proof.
  induction s as [|c r IH]; simpl; [reflexivity|].
  intros [Hc Hr]%andb_prop. now rewrite Hc, (IH Hr).
Qed.

Lemma string_app_empty (s : string) : (s ++ "")%string = s.
Proof.
  induction s as [|c r IH]; [reflexivity|].
  change (String c (r ++ "")%string = String c r). now rewrite IH.
Qed.

Lemma span_digits_whole (s d : string) :
  JS.span_digits s = (d, EmptyString) -> d = s /\ JS.all_chars JS.is_digit s = true.
Proof.
  revert d. induction s as [|c r IH]; simpl; intros d E.
  - now inversion E.
  - destruct (JS.is_digit c) eqn:Hc; [|discriminate E].
    destruct (JS.span_digits r) as [d' t] eqn:Er. inversion E; subst.
    destruct (IH d' eq_refl) as [-> Hr]. now rewrite Hr.
Qed.

Lemma digits_value_total (s : string) :
  JS.all_chars JS.is_digit s = true -> exists v, JS.digits_value s = Some v.
Proof.
  unfold JS.digits_value. intro H.
  assert (exists d, NilEmpty.uint_of_string s = Some d) as [d ->]; [|simpl; eauto].
  induction s as [|c r IH]; simpl; [eauto|].
  simpl in H. apply andb_prop in H as [Hc Hr].
  destruct (IH Hr) as [d ->]. clear IH Hr.
  destruct c as [[] [] [] [] [] [] [] []]; vm_compute in Hc; try discriminate Hc;
    simpl; eauto.
Qed.

(** An unsigned run of digits is read as its value. *)
Lemma unsigned_digits (c : ascii) (r : string) (v : Z) :
  JS.all_chars JS.is_digit (String c r) = true ->
  JS.digits_value (String c r) = Some v ->
  JS.StrUnsignedDecimalLiteral (String c r) = Some (JS.Dec v 0).
Proof.
  intros Hd Hv.
  pose proof Hd as Hd'. simpl in Hd'. apply andb_prop in Hd' as [Hc _].
  destruct (digit_facts c Hc) as (_ & _ & _ & _ & _ & _ & _ & _ & _ & HI).
  unfold JS.StrUnsignedDecimalLiteral.
  replace (String.eqb (String c r) "Infinity") with false
    by (simpl; now rewrite HI).
  rewrite (span_all_digits _ Hd). cbv beta iota zeta.
  rewrite string_app_empty, Hv. reflexivity.
Qed.

Lemma digits_not_prefixed (c : ascii) (r : string) :
  JS.all_chars JS.is_digit (String c r) = true ->
  JS.NonDecimalIntegerLiteral (String c r) = None.
Proof.
  intro Hd. destruct r as [|p [|c2 r2]]; try reflexivity. simpl in Hd.
  apply andb_prop in Hd as [_ [Hp _]%andb_prop].
  destruct (digit_facts p Hp) as (_ & _ & _ & Hx & HX & Ho & HO & Hb & HB & _).
  unfold JS.NonDecimalIntegerLiteral. rewrite Hx, HX, Ho, HO, Hb, HB.
  simpl. now destruct (Ascii.eqb c "0").
Qed.

(** A non-empty run of digits is the number it spells. *)
Lemma Number_digits (c : ascii) (r : string) (v : Z) :
  JS.all_chars JS.is_digit (String c r) = true ->
  JS.digits_value (String c r) = Some v ->
  JS.Number (String c r) = JS.Dec v 0.
Proof.
  intros Hd Hv. unfold JS.Number.
  rewrite (trim_no_ws _ (digits_no_ws _ Hd)), (digits_not_prefixed c r Hd).
  assert (JS.StrDecimalLiteral (String c r)
          = JS.StrUnsignedDecimalLiteral (String c r)) as ->.
  { simpl in Hd. apply andb_prop in Hd as [Hc _].
    destruct (digit_facts c Hc) as (_ & Hm & Hp & _).
    unfold JS.StrDecimalLiteral. now rewrite Hm, Hp. }
  now rewrite (unsigned_digits c r v Hd Hv).
Qed.

(** A minus sign and a non-empty run of digits is the opposite number. *)
Lemma Number_minus_digits (c : ascii) (r : string) (v : Z) :
  JS.all_chars JS.is_digit (String c r) = true ->
  JS.digits_value (String c r) = Some v ->
  JS.Number (String "-" (String c r)) = JS.Dec (- v) 0.
Proof.
  intros Hd Hv.
  assert (JS.trim (String "-" (String c r)) = String "-" (String c r)) as Ht.
  { apply trim_no_ws. change (JS.all_chars (fun a => negb (JS.is_ws a))
                                (String c r) = true).
    apply (digits_no_ws _ Hd). }
  unfold JS.Number. rewrite Ht.
  assert (JS.NonDecimalIntegerLiteral (String "-" (String c r)) = None) as ->.
  { destruct r as [|c2 r2]; reflexivity. }
  change (JS.StrDecimalLiteral (String "-" (String c r)))
    with (option_map JS.negate (JS.StrUnsignedDecimalLiteral (String c r))).
  now rewrite (unsigned_digits c r v Hd Hv).
Qed.

Lemma to_uint_nonempty (n : N) :
  exists c r, NilEmpty.string_of_uint (N.to_uint n) = String c r.
Proof.
  destruct (NilEmpty.string_of_uint (N.to_uint n)) as [|c r] eqn:E; eauto.
  exfalso. destruct n as [|p]; [discriminate E|].
  pose proof (DecimalPos.Unsigned.to_uint_nonnil p) as Hn.
  simpl in E. destruct (Pos.to_uint p); simpl in E; congruence.
Qed.

Lemma digits_value_to_uint (n : N) :
  JS.digits_value (NilEmpty.string_of_uint (N.to_uint n)) = Some (Z.of_N n).
Proof.
  unfold JS.digits_value. rewrite NilEmpty.usu. simpl. unfold Z.of_uint.
  change (Pos.of_uint (N.to_uint n)) with (N.of_uint (N.to_uint n)).
  now rewrite DecimalN.Unsigned.of_to.
Qed.

(** [Number(String(z)) = z] for every integer. *)
Lemma Number_string_of_Z (z : Z) : JS.Number (JS.string_of_Z z) = JS.Dec z 0.
Proof.
  unfold JS.string_of_Z. destruct (z <? 0) eqn:Hz.
  - apply Z.ltb_lt in Hz.
    destruct (to_uint_nonempty (Z.to_N (- z))) as (c & r & E).
    pose proof (string_of_uint_digits (N.to_uint (Z.to_N (- z)))) as Hd.
    pose proof (digits_value_to_uint (Z.to_N (- z))) as Hv.
    rewrite E in Hd, Hv |- *.
    change ("-" ++ String c r)%string with (String "-" (String c r)).
    rewrite (Number_minus_digits c r _ Hd Hv). f_equal. lia.
  - apply Z.ltb_ge in Hz.
    destruct (to_uint_nonempty (Z.to_N z)) as (c & r & E).
    pose proof (string_of_uint_digits (N.to_uint (Z.to_N z))) as Hd.
    pose proof (digits_value_to_uint (Z.to_N z)) as Hv.
    rewrite E in Hd, Hv |- *.
    rewrite (Number_digits c r _ Hd Hv). f_equal. lia.
Qed.

(** A token that parses as an integer is a number, and an integer. *)
Lemma integer_token_is_number (token : string) :
  parses_as_integer token = true ->
  exists z, JS.Number token = JS.Dec z 0.
Proof.
  unfold parses_as_integer. intro H.
  destruct token as [|sign r]; [discriminate H|].
  destruct (Ascii.eqb sign "-") eqn:Hs.
  - apply Ascii.eqb_eq in Hs. subst sign.
    destruct (JS.span_digits r) as [d t] eqn:E.
    destruct d as [|c d]; [discriminate H|]. destruct t; [|discriminate H].
    destruct (span_digits_whole _ _ E) as [<- Hd].
    destruct (digits_value_total _ Hd) as [v Hv].
    exists (- v). now apply Number_minus_digits.
  - destruct (JS.span_digits (String sign r)) as [d t] eqn:E.
    destruct d as [|c d]; [discriminate H|]. destruct t; [|discriminate H].
    destruct (span_digits_whole _ _ E) as [Ed Hd].
    destruct (digits_value_total _ Hd) as [v Hv].
    exists v. now apply Number_digits.
Qed.

(** ** The two maps *)

Lemma build_index_entries (doc : Catalog) :
  build_index doc = fold_left add_application (entries doc) empty_index.
Proof.
  unfold build_index, entries. generalize empty_index.
  induction doc as [|v doc IH]; intro ix; simpl; [reflexivity|].
  rewrite fold_left_app. apply IH.
Qed.

(** The name map holds, for each lower-cased name, the last id set. *)
Lemma name_map_fold (apps : list Application) (ix : Index) (k : string) :
  appNameMap (fold_left add_application apps ix) !! k
  = match last_id_named k apps with
    | Some id => Some id
    | None => appNameMap ix !! k
    end.
Proof.
  revert ix. induction apps as [|a rest IH]; intro ix; simpl; [reflexivity|].
  rewrite IH. destruct (last_id_named k rest); [reflexivity|].
  unfold add_application. destruct (app_versions a); [reflexivity|]. simpl.
  destruct (String.eqb_spec (JS.toLowerCase (app_name a)) k) as [->|Hne].
  - now rewrite lookup_insert_eq.
  - now rewrite lookup_insert_ne.
Qed.

Lemma name_map_last_wins (doc : Catalog) (k : string) :
  appNameMap (build_index doc) !! k = last_id_named k (entries doc).
Proof.
  rewrite build_index_entries, name_map_fold.
  destruct (last_id_named k (entries doc)); [reflexivity|].
  apply lookup_empty.
Qed.

(** ** Resolution *)

Lemma resolve_by_name (ix : Index) (token : string) :
  resolve true ix token
  = match appNameMap ix !! JS.toLowerCase token with
    | None => Reported (MsgNameNotFound token)
    | Some id =>
        if id =? 0 then Reported (MsgNameNotFound token)
        else match appArchiveMap ix !! id with
             | Some app => Resolved (with_id app id)
             | None => Silent
             end
    end.
Proof.
  unfold resolve. now rewrite andb_false_r.
Qed.

(** C7, as the program has it: with the name flag the token, lower-cased,
    is looked up in the name map and a miss is reported as a name not
    found; without the flag a token that [Number] turns into a number (an
    integer token is one) is looked up in the id map and a miss is
    reported as an id not found; without the flag every other token is
    reported as an invalid id. *)
Theorem C7_decision_table (ix : Index) (token : string) :
  (appNameMap ix !! JS.toLowerCase token = None ->
   resolve true ix token = Reported (MsgNameNotFound token))
  /\ (forall r, resolve true ix token = Reported r -> r = MsgNameNotFound token)
  /\ (JS.isNaN (JS.Number token) = false ->
      resolve false ix token
      = match get_by_number (appArchiveMap ix) (JS.Number token) with
        | Some (z, app) => Resolved (with_id app z)
        | None => Reported (MsgIdNotFound (JS.Number token))
        end)
  /\ (JS.isNaN (JS.Number token) = true ->
      resolve false ix token = Reported (MsgInvalidAppId token))
  /\ (parses_as_integer token = true -> JS.isNaN (JS.Number token) = false).
Proof.
  repeat split.
  - intro H. now rewrite resolve_by_name, H.
  - intros r. rewrite resolve_by_name.
    destruct (appNameMap ix !! JS.toLowerCase token) as [id|]; [|congruence].
    destruct (id =? 0); [congruence|].
    destruct (appArchiveMap ix !! id); discriminate.
  - intro H. unfold resolve. rewrite H. simpl.
    now destruct (get_by_number (appArchiveMap ix) (JS.Number token)) as [[z app]|].
  - intro H. unfold resolve. now rewrite H.
  - intro H. destruct (integer_token_is_number token H) as [z ->]. reflexivity.
Qed.

Lemma C7_decision_table_witness :
  resolve true (build_index sample_catalog) "nope"
    = Reported (MsgNameNotFound "nope")
  /\ resolve false (build_index sample_catalog) "999999"
    = Reported (MsgIdNotFound (JS.Dec 999999 0))
  /\ resolve false (build_index sample_catalog) "not-a-number"
    = Reported (MsgInvalidAppId "not-a-number").
Proof.
  destruct (C7_decision_table (build_index sample_catalog) "nope")
    as (H1 & _).
  destruct (C7_decision_table (build_index sample_catalog) "999999")
    as (_ & _ & H2 & _).
  destruct (C7_decision_table (build_index sample_catalog) "not-a-number")
    as (_ & _ & _ & H3 & _).
  split; [apply H1; vm_compute; reflexivity|].
  split; [rewrite H2 by reflexivity; vm_compute; reflexivity|].
  apply H3; reflexivity.
Defined.

(** C7 as the spec words it fails: the token [1.5] does not parse as an
    integer and is given without the name flag, yet it is looked up by id
    and reported as an id not found, not as an invalid id. *)
Lemma C7_fraction_is_looked_up :
  parses_as_integer "1.5" = false
  /\ resolve false (build_index sample_catalog) "1.5"
     = Reported (MsgIdNotFound (JS.Dec 15 (-1)))
  /\ resolve false (build_index sample_catalog) "1.5"
     <> Reported (MsgInvalidAppId "1.5").
Proof.
  split; [reflexivity|].
  assert (resolve false (build_index sample_catalog) "1.5"
          = Reported (MsgIdNotFound (JS.Dec 15 (-1)))) as E
    by (vm_compute; reflexivity).
  split; [exact E|]. rewrite E. discriminate.
Qed.

(** The empty token and a token of blanks count as the number 0. *)
Example blank_token_is_looked_up :
  resolve false (build_index sample_catalog) ""
  = Reported (MsgIdNotFound (JS.Dec 0 0)).
Proof. vm_compute. reflexivity. Qed.

Lemma resolve_own_id (ix : Index) (id : Z) (info : AppInfo) :
  appArchiveMap ix !! id = Some info ->
  resolve false ix (JS.string_of_Z id) = Resolved (with_id info id).
Proof.
  intro H. unfold resolve. rewrite Number_string_of_Z. simpl.
  unfold get_by_number. simpl. rewrite Z.mul_1_r, H. reflexivity.
Qed.

(** C8, as the program has it: for every entry of the index built from a
    document, the decimal string of its id resolves, without the name
    flag, to that entry; and with the name flag every case variant of its
    name resolves to the entry whose id the name map holds for the
    lower-cased name, which is the id of the last application of the
    document with that lower-cased name -- so to that same entry when it
    is the last one so named and its id is not 0. *)
Theorem C8_round_trip (doc : Catalog) (id : Z) (info : AppInfo) :
  appArchiveMap (build_index doc) !! id = Some info ->
  resolve false (build_index doc) (JS.string_of_Z id)
    = Resolved (with_id info id)
  /\ appNameMap (build_index doc) !! JS.toLowerCase (name info)
     = last_id_named (JS.toLowerCase (name info)) (entries doc)
  /\ (forall variant,
        JS.toLowerCase variant = JS.toLowerCase (name info) ->
        last_id_named (JS.toLowerCase (name info)) (entries doc) = Some id ->
        id <> 0 ->
        resolve true (build_index doc) variant = Resolved (with_id info id)).
Proof.
  intro H. split; [now apply resolve_own_id|].
  split; [apply name_map_last_wins|].
  intros variant Hv Hlast Hid.
  rewrite resolve_by_name, Hv, name_map_last_wins, Hlast.
  apply Z.eqb_neq in Hid. now rewrite Hid, H.
Qed.

Lemma C8_round_trip_witness :
  resolve false (build_index sample_catalog) "8"
    = Resolved {| t_url := "http://x/b.zip"; t_name := "foo"; t_id := 8 |}
  /\ resolve true (build_index sample_catalog) "FoO"
    = Resolved {| t_url := "http://x/b.zip"; t_name := "foo"; t_id := 8 |}.
Proof.
  assert (appArchiveMap (build_index sample_catalog) !! 8
          = Some {| url := "http://x/b.zip"; name := "foo" |}) as H
    by (vm_compute; reflexivity).
  destruct (C8_round_trip sample_catalog 8 _ H) as (H1 & _ & H2).
  split; [exact H1|].
  apply H2; [reflexivity | reflexivity | lia].
Defined.

(** C8 as the spec words it fails: the entry 42, named [Foo], is in the
    index, and [FOO] is a case variant of its name, but a later entry is
    named [foo], and resolving [FOO] by name gives that one. *)
Lemma C8_shared_name_resolves_to_last :
  appArchiveMap (build_index sample_catalog) !! 42
    = Some {| url := "http://x/a.zip"; name := "Foo" |}
  /\ JS.toLowerCase "FOO" = JS.toLowerCase "Foo"
  /\ resolve true (build_index sample_catalog) "FOO"
     = Resolved {| t_url := "http://x/b.zip"; t_name := "foo"; t_id := 8 |}
  /\ resolve true (build_index sample_catalog) "FOO"
     <> Resolved (with_id {| url := "http://x/a.zip"; name := "Foo" |} 42).
Proof.
  split; [vm_compute; reflexivity|]. split; [reflexivity|].
  assert (resolve true (build_index sample_catalog) "FOO"
          = Resolved {| t_url := "http://x/b.zip"; t_name := "foo"; t_id := 8 |})
    as E by (vm_compute; reflexivity).
  split; [exact E|]. rewrite E. discriminate.
Qed.

(** An entry whose id is 0 is not found by its name: the test on the id
    read from the name map takes 0 for a miss. *)
Example id_zero_not_found_by_name :
  resolve true
    (build_index [ {| applications :=
                        [ {| app_id := 0; app_name := "Zero";
                             app_versions := [ {| archive_url := "u" |} ] |} ] |} ])
    "zero"
  = Reported (MsgNameNotFound "zero").
Proof. vm_compute. reflexivity. Qed.

(** ** The expiry of a fetched catalog *)

Lemma span_digits_app (d rest : string) :
  JS.all_chars JS.is_digit d = true ->
  match rest with
  | String c _ => JS.is_digit c = false
  | EmptyString => True
  end ->
  JS.span_digits (d ++ rest) = (d, rest).
Proof.
  intros Hd Hr. induction d as [|c d IH].
  - simpl. destruct rest as [|c r]; [reflexivity|]. simpl. now rewrite Hr.
  - simpl in Hd. apply andb_prop in Hd as [Hc Hd].
    change (String c d ++ rest)%string with (String c (d ++ rest)%string).
    simpl. now rewrite Hc, (IH Hd).
Qed.

Lemma match_max_age_cons (c : ascii) (r : string) :
  match_max_age (String c r)
  = if JS.starts_with "max-age=" (String c r) then
      match JS.span_digits (JS.drop 8 (String c r)) with
      | (String a d, _) => Some (String a d)
      | _ => match_max_age r
      end
    else match_max_age r.
Proof. reflexivity. Qed.

Lemma starts_with_m (c : ascii) (r : string) :
  JS.starts_with "max-age=" (String c r) = true -> Ascii.eqb c "m" = true.
Proof.
  change (JS.starts_with "max-age=" (String c r))
    with (Ascii.eqb "m" c && JS.starts_with "ax-age=" r).
  intros [H _]%andb_prop. now rewrite Ascii.eqb_sym.
Qed.

Lemma match_max_age_skip (pre s : string) :
  JS.all_chars (fun c => negb (Ascii.eqb c "m")) pre = true ->
  match_max_age (pre ++ s) = match_max_age s.
Proof.
  induction pre as [|c pre IH]; [reflexivity|]. intros [Hc Hp]%andb_prop.
  change (String c pre ++ s)%string with (String c (pre ++ s)%string).
  apply negb_true_iff in Hc. rewrite match_max_age_cons.
  destruct (JS.starts_with "max-age=" (String c (pre ++ s))) eqn:Hs.
  - apply starts_with_m in Hs. congruence.
  - now apply IH.
Qed.

Lemma match_max_age_here (c : ascii) (d rest : string) :
  JS.all_chars JS.is_digit (String c d) = true ->
  match rest with
  | String a _ => JS.is_digit a = false
  | EmptyString => True
  end ->
  match_max_age ("max-age=" ++ String c d ++ rest) = Some (String c d).
Proof.
  intros Hd Hr.
  change ("max-age=" ++ String c d ++ rest)%string
    with (String "m" ("ax-age=" ++ (String c d ++ rest))%string).
  rewrite match_max_age_cons.
  change (JS.starts_with "max-age="
            (String "m" ("ax-age=" ++ (String c d ++ rest))%string)) with true.
  change (JS.drop 8 (String "m" ("ax-age=" ++ (String c d ++ rest))%string))
    with (String c d ++ rest)%string.
  cbv iota. now rewrite (span_digits_app _ _ Hd Hr).
Qed.

(** The max-age of a header that carries the directive, after a prefix
    without the letter m. *)
Lemma maxAge_of_directive (pre rest : string) (n : N) :
  JS.all_chars (fun c => negb (Ascii.eqb c "m")) pre = true ->
  match rest with
  | String a _ => JS.is_digit a = false
  | EmptyString => True
  end ->
  maxAge_of (Some (pre ++ "max-age=" ++ NilEmpty.string_of_uint (N.to_uint n)
                     ++ rest)%string)
  = Z.of_N n.
Proof.
  intros Hp Hr. destruct (to_uint_nonempty n) as (c & d & E).
  pose proof (string_of_uint_digits (N.to_uint n)) as Hd.
  pose proof (digits_value_to_uint n) as Hv.
  rewrite E in Hd, Hv |- *.
  assert (match_max_age (pre ++ "max-age=" ++ String c d ++ rest)
          = Some (String c d)) as Hm.
  { rewrite (match_max_age_skip _ _ Hp). now apply match_max_age_here. }
  unfold maxAge_of.
  destruct (pre ++ "max-age=" ++ String c d ++ rest)%string as [|a s] eqn:Es.
  - destruct pre; discriminate Es.
  - now rewrite Hm, Hv.
Qed.

Lemma maxAge_of_default (cacheControl : option string) :
  match cacheControl with
  | Some cc => match_max_age cc = None
  | None => True
  end ->
  maxAge_of cacheControl = 14400.
Proof.
  destruct cacheControl as [[|c r]|]; try reflexivity.
  intro H. unfold maxAge_of. now rewrite H.
Qed.

Example maxAge_of_unparsable : maxAge_of (Some "public, max-age=soon") = 14400.
Proof. reflexivity. Qed.

Example maxAge_of_usual : maxAge_of (Some "public, max-age=7200") = 7200.
Proof. reflexivity. Qed.

(** The record that a fetch writes carries [expiryTime] of the time read
    after the fetch and of the two headers of the response. *)
Lemma fetch_catalog_writes {W} (sys : Sys W) (s : State W)
    (response : Response) (doc : Document) (w1 w2 : W) (now : Z) :
  fetch sys (api_url) (world s) = (inr response, w1) ->
  json response = inr doc ->
  Date_now sys w1 = (now, w2) ->
  exists o s',
    fetch_catalog sys s = (o, s')
    /\ trace s'
       = (trace s ++ [EvLog MsgFetching; EvFetch api_url;
                      EvWrite (cacheFile sys)
                        {| cd_data := doc;
                           cd_expiry := expiryTime (Date_getTime sys) now
                                          (cache_control response)
                                          (expires response);
                           cd_etag := etag response;
                           cd_lastModified := last_modified response |}])%list.
Proof.
  intros Hf Hj Hn.
  unfold fetch_catalog, bind, console_log, emit, call, ask, of_result, ret.
  simpl. rewrite Hf. simpl. rewrite Hj. simpl. rewrite Hn. simpl.
  destruct (writeFileSync sys _ _ w2) as [[e|[]] w3]; simpl;
    eexists; eexists; (split; [reflexivity|]); simpl;
    rewrite <- !app_assoc; reflexivity.
Qed.

(** C5: the expiry is the time of the fetch plus max-age seconds, where
    max-age is the number after the leftmost [max-age=] of the
    cache-control header and 14400 when there is none; it is the earlier
    of that and the Expires timestamp when that header is there and
    parses.  With [max-age=7200] and an Expires timestamp one hour after
    the fetch it is the fetch time plus one hour; with [max-age=7200]
    alone it is the fetch time plus 7200 seconds. *)
Theorem C5_expiry (getTime : string -> option Z) (now : Z)
    (cacheControl expires : option string) :
  (forall e t, expires = Some e -> e <> "" -> getTime e = Some t ->
     expiryTime getTime now cacheControl expires
     = Z.min (now + maxAge_of cacheControl * 1000) t)
  /\ ((expires = None \/ expires = Some ""
       \/ exists e, expires = Some e /\ getTime e = None) ->
      expiryTime getTime now cacheControl expires
      = now + maxAge_of cacheControl * 1000)
  /\ (match cacheControl with
      | Some cc => match_max_age cc = None
      | None => True
      end -> maxAge_of cacheControl = 14400)
  /\ (forall pre rest n,
        JS.all_chars (fun c => negb (Ascii.eqb c "m")) pre = true ->
        match rest with
        | String a _ => JS.is_digit a = false
        | EmptyString => True
        end ->
        cacheControl
        = Some (pre ++ "max-age=" ++ NilEmpty.string_of_uint (N.to_uint n)
                  ++ rest)%string ->
        maxAge_of cacheControl = Z.of_N n)
  /\ (forall e, e <> "" -> getTime e = Some (now + 3600 * 1000) ->
        expiryTime getTime now (Some "max-age=7200") (Some e)
        = now + 3600 * 1000)
  /\ expiryTime getTime now (Some "max-age=7200") None = now + 7200 * 1000.
Proof.
  split; [|split; [|split; [|split; [|split]]]].
  - intros e t -> He Ht. unfold expiryTime.
    destruct e as [|c r]; [congruence|]. now rewrite Ht.
  - intros [-> | [-> | (e & -> & He)]]; try reflexivity.
    unfold expiryTime. destruct e; [reflexivity|]. now rewrite He.
  - apply maxAge_of_default.
  - intros pre rest n Hp Hr ->. now apply maxAge_of_directive.
  - intros e He Ht. unfold expiryTime. destruct e as [|c r]; [congruence|].
    rewrite Ht. change (maxAge_of (Some "max-age=7200")) with 7200. lia.
  - reflexivity.
Qed.

Lemma C5_expiry_witness :
  expiryTime (fun s => if String.eqb s "in one hour" then Some 4600000 else None)
    1000000 (Some "public, max-age=7200") (Some "in one hour")
  = 4600000
  /\ maxAge_of (Some "public, max-age=7200") = 7200
  /\ maxAge_of (Some "no-store") = 14400.
Proof.
  destruct (C5_expiry
              (fun s => if String.eqb s "in one hour" then Some 4600000 else None)
              1000000 (Some "public, max-age=7200") (Some "in one hour"))
    as (H1 & _ & _ & H4 & _).
  destruct (C5_expiry (fun _ => None) 0 (Some "no-store") None)
    as (_ & _ & H3 & _).
  split; [|split].
  - rewrite (H1 "in one hour" 4600000 eq_refl); [|discriminate|reflexivity].
    rewrite (H4 "public, " "" 7200%N); [reflexivity|reflexivity|exact I|reflexivity].
  - apply (H4 "public, " "" 7200%N); [reflexivity|exact I|reflexivity].
  - apply H3. reflexivity.
Defined.

(** ** Reasoning about runs *)

Section Hoare.

Context {W : Type}.

Lemma hoare_ret {A} P (Q : outcome A -> Prop) (a : A) :
  Q (Ret a) -> hoare (W:=W) P Q (ret a).
Proof.
  intros H s. exists (Ret a), s, []. rewrite app_nil_r. auto.
Qed.

Lemma hoare_throw {A} P (Q : outcome A -> Prop) (e : Error) :
  Q (Throw e) -> hoare (W:=W) P Q (throw e).
Proof.
  intros H s. exists (Throw e), s, []. rewrite app_nil_r. auto.
Qed.

Lemma hoare_exit {A} P (Q : outcome A -> Prop) (c : Z) :
  Q (Exit c) -> hoare (W:=W) P Q (exit c).
Proof.
  intros H s. exists (Exit c), s, []. rewrite app_nil_r. auto.
Qed.

Lemma hoare_emit (P : Event -> Prop) (Q : outcome unit -> Prop) (e : Event) :
  P e -> Q (Ret tt) -> hoare (W:=W) P Q (emit e).
Proof.
  intros HP HQ s. eexists _, _, [e]. unfold emit. simpl. auto.
Qed.

Lemma hoare_call {A} P (Q : outcome A -> Prop) (f : W -> (Error + A) * W) :
  (forall a, Q (Ret a)) -> (forall e, Q (Throw e)) -> hoare P Q (call f).
Proof.
  intros Hr Ht s. unfold call. destruct (f (world s)) as [[e|a] w];
    eexists _, _, []; simpl; rewrite app_nil_r; auto.
Qed.

Lemma hoare_ask {A} P (Q : outcome A -> Prop) (f : W -> A * W) :
  (forall a, Q (Ret a)) -> hoare P Q (ask f).
Proof.
  intros Hr s. unfold ask. destruct (f (world s)) as [a w].
  eexists _, _, []. simpl. rewrite app_nil_r. auto.
Qed.

Lemma hoare_bind {A B} P (Q1 : outcome A -> Prop) (Q : outcome B -> Prop)
    (m : M W A) (f : A -> M W B) :
  hoare P Q1 m ->
  (forall a, Q1 (Ret a) -> hoare P Q (f a)) ->
  (forall e, Q1 (Throw e) -> Q (Throw e)) ->
  (forall c, Q1 (Exit c) -> Q (Exit c)) ->
  hoare P Q (bind m f).
Proof.
  intros Hm Hf Ht Hx s. destruct (Hm s) as (o & s1 & t1 & E & Et & Hp & Hq).
  unfold bind. rewrite E. destruct o as [a|e|c].
  - destruct (Hf a Hq s1) as (o2 & s2 & t2 & E2 & Et2 & Hp2 & Hq2).
    exists o2, s2, (t1 ++ t2)%list. rewrite E2, Et2, Et, <- app_assoc.
    repeat split; auto. now apply Forall_app.
  - exists (Throw e), s1, t1. auto.
  - exists (Exit c), s1, t1. auto.
Qed.

Lemma hoare_try_catch {A} P (Q1 Q : outcome A -> Prop)
    (m : M W A) (h : Error -> M W A) :
  hoare P Q1 m ->
  (forall e, Q1 (Throw e) -> hoare P Q (h e)) ->
  (forall a, Q1 (Ret a) -> Q (Ret a)) ->
  (forall c, Q1 (Exit c) -> Q (Exit c)) ->
  hoare P Q (try_catch m h).
Proof.
  intros Hm Hh Hr Hx s. destruct (Hm s) as (o & s1 & t1 & E & Et & Hp & Hq).
  unfold try_catch. rewrite E. destruct o as [a|e|c].
  - exists (Ret a), s1, t1. auto.
  - destruct (Hh e Hq s1) as (o2 & s2 & t2 & E2 & Et2 & Hp2 & Hq2).
    exists o2, s2, (t1 ++ t2)%list. rewrite E2, Et2, Et, <- app_assoc.
    repeat split; auto. now apply Forall_app.
  - exists (Exit c), s1, t1. auto.
Qed.

Lemma hoare_weaken {A} (P P' : Event -> Prop) (Q Q' : outcome A -> Prop)
    (m : M W A) :
  hoare P Q m -> (forall e, P e -> P' e) -> (forall o, Q o -> Q' o) ->
  hoare P' Q' m.
Proof.
  intros Hm HP HQ s. destruct (Hm s) as (o & s1 & t1 & E & Et & Hp & Hq).
  exists o, s1, t1. repeat split; auto.
  eapply Forall_impl; [exact Hp | exact HP].
Qed.

(** The three shapes of [bind] the proofs use. *)
Lemma returning_bind {A B} P (R1 : A -> Prop) (R : B -> Prop)
    (m : M W A) (f : A -> M W B) :
  hoare P (returning R1) m ->
  (forall a, R1 a -> hoare P (returning R) (f a)) ->
  hoare P (returning R) (bind m f).
Proof. intros Hm Hf. eapply hoare_bind; eauto. Qed.

Lemma no_exit_bind {A B} P (R1 : A -> Prop) (R : B -> Prop)
    (m : M W A) (f : A -> M W B) :
  hoare P (no_exit R1) m ->
  (forall a, R1 a -> hoare P (no_exit R) (f a)) ->
  hoare P (no_exit R) (bind m f).
Proof. intros Hm Hf. eapply hoare_bind; eauto. Qed.

Lemma anyhow_bind {A B} P (m : M W A) (f : A -> M W B) :
  hoare P anyhow m ->
  (forall a, hoare P anyhow (f a)) ->
  hoare P anyhow (bind m f).
Proof. intros Hm Hf. eapply hoare_bind; eauto. Qed.

(** A [try] whose body does not exit and whose handler returns, returns. *)
Lemma returning_try_catch {A} P (R : A -> Prop)
    (m : M W A) (h : Error -> M W A) :
  hoare P (no_exit R) m ->
  (forall e, hoare P (returning R) (h e)) ->
  hoare P (returning R) (try_catch m h).
Proof. intros Hm Hh. eapply hoare_try_catch; eauto. Qed.

Lemma returning_mapM {A B} P (R : A -> B -> Prop) (f : A -> M W B)
    (l : list A) :
  (forall a, hoare P (returning (R a)) (f a)) ->
  hoare P (returning (Forall2 R l)) (mapM f l).
Proof.
  intro Hf. induction l as [|a l IH]; simpl.
  - apply hoare_ret. constructor.
  - eapply returning_bind; [apply Hf|]. intros b Hb.
    eapply returning_bind; [apply IH|]. intros bs Hbs.
    apply hoare_ret. now constructor.
Qed.

End Hoare.

(** ** The install function always returns *)

Section Install.

Context {W : Type} (sys : Sys W).

Local Abbreviation yes := (fun _ => True).

Lemma returning_no_exit {A} P (R : A -> Prop) (m : M W A) :
  hoare P (returning R) m -> hoare P (no_exit R) m.
Proof.
  intro H. eapply hoare_weaken; [exact H | auto |].
  intros [a|e|c]; simpl; auto.
Qed.

Lemma log_returns (m : Message) :
  hoare (W:=W) install_event (returning yes) (console_log m).
Proof. apply hoare_emit; simpl; auto. Qed.

Lemma exec_no_exit (cmd : string) :
  hoare install_event (no_exit yes) (exec sys cmd).
Proof.
  unfold exec. eapply no_exit_bind with (R1 := yes).
  - apply hoare_emit; simpl; auto.
  - intros _ _. apply hoare_call; simpl; auto.
Qed.

Lemma exists_returns P (path : string) :
  hoare P (returning yes) (exists_ sys path).
Proof.
  intro s. eexists _, s, []. unfold exists_. rewrite app_nil_r.
  repeat split; constructor.
Qed.

Lemma install_failed_returns (app : Target) (e : Error) :
  hoare (W:=W) install_event (returning (result_of app))
    (install_failed app e).
Proof.
  unfold install_failed. eapply returning_bind; [apply log_returns|].
  intros _ _. apply hoare_ret. simpl. unfold result_of. simpl. auto.
Qed.

Lemma download_promise_returns (parallelFlag : bool) (app : Target)
    (tempFile : string) :
  hoare install_event (returning yes)
    (download_promise sys parallelFlag app tempFile).
Proof.
  unfold download_promise. apply returning_try_catch.
  - eapply no_exit_bind; [apply exec_no_exit|].
    intros _ _. apply hoare_ret. exact I.
  - intro e. apply hoare_ret. exact I.
Qed.

Lemma installApp_start_returns (parallelFlag : bool) (app : Target) :
  hoare install_event (returning (started_for app))
    (installApp_start sys parallelFlag app).
Proof.
  unfold installApp_start, check_and_download. apply returning_try_catch.
  - eapply no_exit_bind; [apply exec_no_exit|]. intros existingApps _.
    destruct (JS.trim existingApps).
    + eapply no_exit_bind with (R1 := yes).
      { apply hoare_ask. simpl. auto. }
      intros randomId _.
      eapply no_exit_bind; [apply returning_no_exit, log_returns|].
      intros _ _. apply returning_no_exit.
      eapply returning_bind; [apply download_promise_returns|].
      intros rejected _. apply hoare_ret. exact I.
    + eapply no_exit_bind; [apply returning_no_exit, log_returns|].
      intros _ _. apply hoare_ret. simpl. unfold result_of. simpl. auto.
  - intro e. eapply returning_bind; [apply install_failed_returns|].
    intros r Hr. apply hoare_ret. exact Hr.
Qed.

Lemma place_no_exit (appFile : string) :
  hoare install_event (no_exit yes) (place sys appFile).
Proof.
  unfold place. destruct appFile as [|c r]; [apply hoare_ret; exact I|].
  eapply no_exit_bind; [apply returning_no_exit, exists_returns|].
  intros [] _.
  - apply returning_no_exit, log_returns.
  - eapply no_exit_bind; [apply exec_no_exit|].
    intros _ _. apply returning_no_exit, log_returns.
Qed.

Lemma place_all_no_exit (appFiles : list string) :
  hoare install_event (no_exit yes) (place_all sys appFiles).
Proof.
  induction appFiles as [|f l IH]; simpl; [apply hoare_ret; exact I|].
  eapply no_exit_bind; [apply place_no_exit|]. intros _ _. exact IH.
Qed.

Lemma installApp_resume_returns (app : Target) (tempDir tempFile : string)
    (rejected : option Error) :
  hoare install_event (returning (result_of app))
    (installApp_resume sys app tempDir tempFile rejected).
Proof.
  unfold installApp_resume, extract_and_place. apply returning_try_catch;
    [|apply install_failed_returns].
  eapply no_exit_bind with (R1 := yes).
  { destruct rejected; [apply hoare_throw | apply hoare_ret]; exact I. }
  intros _ _.
  eapply no_exit_bind; [apply exec_no_exit|]. intros _ _.
  eapply no_exit_bind; [apply exec_no_exit|]. intros _ _.
  eapply no_exit_bind; [apply exec_no_exit|]. intros found _.
  destruct (length (JS.split "010" (JS.trim found)) =? 0)%nat.
  - apply hoare_throw. exact I.
  - eapply no_exit_bind; [apply place_all_no_exit|]. intros _ _.
    eapply no_exit_bind; [apply exec_no_exit|]. intros _ _.
    apply hoare_ret. simpl. unfold result_of. simpl. auto.
Qed.

Lemma finish_returns (app : Target) (st : Started) :
  started_for app st ->
  hoare install_event (returning (result_of app)) (finish sys app st).
Proof.
  destruct st as [r|d f rej]; simpl; intro H.
  - apply hoare_ret. exact H.
  - apply installApp_resume_returns.
Qed.

Lemma installApp_returns (parallelFlag : bool) (app : Target) :
  hoare install_event (returning (result_of app))
    (installApp sys parallelFlag app).
Proof.
  unfold installApp.
  eapply returning_bind; [apply installApp_start_returns|].
  intros st Hst. now apply finish_returns.
Qed.

Lemma finish_all_returns (apps : list Target) (started : list Started) :
  Forall2 started_for apps started ->
  hoare install_event (returning (Forall2 result_of apps))
    (finish_all sys (combine apps started)).
Proof.
  induction 1 as [|app st apps started Hst _ IH]; simpl.
  - apply hoare_ret. constructor.
  - eapply returning_bind; [now apply finish_returns|]. intros r Hr.
    eapply returning_bind; [apply IH|]. intros rs Hrs.
    apply hoare_ret. now constructor.
Qed.

Lemma install_all_returns (parallelFlag : bool) (apps : list Target) :
  hoare install_event (returning (Forall2 result_of apps))
    (install_all sys parallelFlag apps).
Proof.
  unfold install_all. destruct parallelFlag.
  - unfold install_parallel.
    eapply returning_bind;
      [apply (returning_mapM _ started_for), installApp_start_returns|].
    intros started Hs. now apply finish_all_returns.
  - apply (returning_mapM _ result_of), installApp_returns.
Qed.

End Install.

(** ** One result per target *)

Lemma Forall2_result_names (apps : list Target) (results : list InstallResult) :
  Forall2 result_of apps results -> map r_name results = map t_name apps.
Proof.
  induction 1 as [|app r apps results [Hn _] _ IH]; simpl; [reflexivity|].
  now rewrite Hn, IH.
Qed.

Lemma install_all_results {W} (sys : Sys W) (parallelFlag : bool)
    (apps : list Target) (s : State W) :
  exists results s',
    install_all sys parallelFlag apps s = (Ret results, s')
    /\ Forall2 result_of apps results.
Proof.
  destruct (install_all_returns sys parallelFlag apps s)
    as (o & s' & t & E & _ & _ & Hq).
  destruct o as [results|e|c]; simpl in Hq; try contradiction. eauto.
Qed.

Lemma try_catch_caught {W A} (m : M W A) (h : Error -> M W A)
    (s s1 : State W) (e : Error) :
  m s = (Throw e, s1) -> try_catch m h s = h e s1.
Proof. intro E. unfold try_catch. now rewrite E. Qed.

(** The isolation scenario: of three targets the second fails at the
    extraction; the first and the third are installed, in both modes. *)
Example isolation_sequential :
  fst (install_all (scripted (machine_with sequential_script)) false
         three_targets (start_state (machine_with sequential_script)))
  = Ret [ {| success := true; r_name := "A"; skipped := false; error := None |};
          {| success := false; r_name := "B"; skipped := false;
             error := Some corrupt |};
          {| success := true; r_name := "C"; skipped := false; error := None |} ].
Proof. vm_compute. reflexivity. Qed.

Example isolation_parallel :
  fst (install_all (scripted (machine_with parallel_script)) true
         three_targets (start_state (machine_with parallel_script)))
  = Ret [ {| success := true; r_name := "A"; skipped := false; error := None |};
          {| success := false; r_name := "B"; skipped := false;
             error := Some corrupt |};
          {| success := true; r_name := "C"; skipped := false; error := None |} ].
Proof. vm_compute. reflexivity. Qed.

(** ** Locating the bundles *)

Lemma split_never_empty (sep : ascii) (s : string) : JS.split sep s <> [].
Proof.
  induction s as [|c r IH]; simpl; [discriminate|].
  destruct (Ascii.eqb c sep); [discriminate|].
  destruct (JS.split sep r); [congruence | discriminate].
Qed.

(** C2 on the code: the list of bundle paths is never empty (an empty
    listing splits into one empty path), so the test for zero bundles never
    fires; when the listing of the extraction directory is empty nothing
    is moved and the target is reported installed. *)
Theorem C2_zero_bundles_reported_installed :
  (forall found, (length (JS.split "010" (JS.trim found)) =? 0)%nat = false)
  /\ (let app := {| t_url := "http://x/a.zip"; t_name := "A"; t_id := 1 |} in
      let m := machine_with [inr ""; inr ""; inr ""; inr ""; inr ""; inr ""] in
      exists s',
        installApp (scripted m) false app (start_state m)
        = (Ret (installed_result app), s')
        /\ executed (trace s')
           = [ find_existing_cmd app;
               curl_cmd false app "/tmp/setapp_00_1.zip";
               mkdir_cmd "/tmp/setapp_00_1";
               unzip_cmd "/tmp/setapp_00_1.zip" "/tmp/setapp_00_1";
               find_bundles_cmd "/tmp/setapp_00_1";
               rm_cmd "/tmp/setapp_00_1" "/tmp/setapp_00_1.zip" ]).
Proof.
  split.
  - intro found. apply Nat.eqb_neq.
    pose proof (split_never_empty "010" (JS.trim found)).
    destruct (JS.split "010" (JS.trim found)); [congruence | discriminate].
  - eexists. split; vm_compute; reflexivity.
Qed.

(** ** A bundle already there *)

Lemma downloads_app (t u : list Event) :
  downloads (t ++ u) = (downloads t ++ downloads u)%list.
Proof. unfold downloads. apply omap_app. Qed.

Lemma bind_returned {W A B} (m : M W A) (f : A -> M W B)
    (s s1 : State W) (a : A) :
  m s = (Ret a, s1) -> bind m f s = f a s1.
Proof. intro E. unfold bind. now rewrite E. Qed.

Lemma try_catch_returned {W A} (m : M W A) (h : Error -> M W A)
    (s s1 : State W) (a : A) :
  m s = (Ret a, s1) -> try_catch m h s = (Ret a, s1).
Proof. intro E. unfold try_catch. now rewrite E. Qed.

Lemma exec_printed {W} (sys : Sys W) (cmd out : string) (s : State W) (w1 : W) :
  execSync sys cmd (world s) = (inr out, w1) ->
  exec sys cmd s
  = (Ret out, {| world := w1; trace := trace s ++ [EvExec cmd] |}).
Proof.
  intro E. unfold exec, bind, emit, call. simpl. now rewrite E.
Qed.

Lemma skip_run {W} (sys : Sys W) (parallelFlag : bool) (app : Target)
    (s : State W) (out : string) (w1 : W) :
  execSync sys (find_existing_cmd app) (world s) = (inr out, w1) ->
  JS.trim out <> "" ->
  installApp sys parallelFlag app s
  = (Ret (skipped_result app),
     {| world := w1;
        trace := (trace s ++ [EvExec (find_existing_cmd app)])
                   ++ [EvLog (MsgAlreadyExists (t_name app))] |}).
Proof.
  intros Hf Ht.
  assert (installApp_start sys parallelFlag app s
          = (Ret (Finished (skipped_result app)),
             {| world := w1;
                trace := (trace s ++ [EvExec (find_existing_cmd app)])
                           ++ [EvLog (MsgAlreadyExists (t_name app))] |})) as E.
  { unfold installApp_start. apply try_catch_returned.
    unfold check_and_download.
    rewrite (bind_returned _ _ _ _ _ (exec_printed _ _ _ _ _ Hf)).
    destruct (JS.trim out) as [|c r]; [congruence|]. reflexivity. }
  unfold installApp. now rewrite (bind_returned _ _ _ _ _ E).
Qed.

(** C9: when the search of the destination, run at the start of
    [installApp], prints a path, the function returns the skipped result
    and no download command is run; run again on the state it leaves,
    with the search finding the bundle again, it returns the skipped
    result again, and still no download has been run. *)
Theorem C9_present_is_skipped {W} (sys : Sys W) (parallelFlag : bool)
    (app : Target) (s : State W) (out : string) (w1 : W) :
  execSync sys (find_existing_cmd app) (world s) = (inr out, w1) ->
  JS.trim out <> "" ->
  exists s1,
    installApp sys parallelFlag app s = (Ret (skipped_result app), s1)
    /\ success (skipped_result app) = true
    /\ skipped (skipped_result app) = true
    /\ world s1 = w1
    /\ downloads (trace s1) = downloads (trace s)
    /\ (forall out2 w2,
          execSync sys (find_existing_cmd app) w1 = (inr out2, w2) ->
          JS.trim out2 <> "" ->
          exists s2,
            installApp sys parallelFlag app s1 = (Ret (skipped_result app), s2)
            /\ downloads (trace s2) = downloads (trace s)).
Proof.
  intros Hf Ht. eexists. split; [apply (skip_run _ _ _ _ _ _ Hf Ht)|].
  repeat split.
  - simpl. rewrite !downloads_app, !app_nil_r. reflexivity.
  - intros out2 w2 Hf2 Ht2. eexists.
    split; [apply (skip_run _ _ _ _ out2 w2); [exact Hf2 | exact Ht2]|].
    simpl. rewrite !downloads_app, !app_nil_r. reflexivity.
Qed.

Lemma C9_present_is_skipped_witness :
  let m := machine_with [inr "/Applications/Setapp/A.app"] in
  let app := {| t_url := "http://x/a.zip"; t_name := "A"; t_id := 1 |} in
  exists s1,
    installApp (scripted m) false app (start_state m)
    = (Ret (skipped_result app), s1)
    /\ downloads (trace s1) = [].
Proof.
  intros m app.
  destruct (C9_present_is_skipped (scripted m) false app (start_state m)
              "/Applications/Setapp/A.app" (machine_with []))
    as (s1 & E & _ & _ & _ & Hd & _);
    [reflexivity | discriminate |].
  exists s1. split; [exact E | exact Hd].
Defined.

(** ** The cache test and the fetch *)

Lemma fetches_app (t u : list Event) :
  fetches (t ++ u) = (fetches t ++ fetches u)%list.
Proof. unfold fetches. apply omap_app. Qed.

Lemma executed_app (t u : list Event) :
  executed (t ++ u) = (executed t ++ executed u)%list.
Proof. unfold executed. apply omap_app. Qed.

Section Cache.

Context {W : Type} (sys : Sys W).

(** The cache test returns, without a fetch: the document of the record
    when the record is fresh at the time read, nothing otherwise. *)
Lemma read_cache_spec (s : State W) :
  exists s1,
    read_cache sys s
    = (Ret match cache_record_at sys (world s) with
           | Some (inr (ParsedObject expiry data)) =>
               if cache_is_fresh expiry (fst (Date_now sys (world s)))
               then Some data else None
           | _ => None
           end, s1)
    /\ fetches (trace s1) = fetches (trace s)
    /\ executed (trace s1) = executed (trace s).
Proof.
  unfold read_cache, cache_record_at, bind, exists_, try_catch, of_result,
    ask, console_log, emit, ret, throw.
  destruct (existsSync sys (cacheFile sys) (world s)); [|eauto].
  destruct (readFileSync sys (cacheFile sys) (world s)) as [e|text]; simpl.
  { eexists. split; [reflexivity|]. simpl.
    rewrite fetches_app, executed_app, !app_nil_r. auto. }
  destruct (JSON_parse sys text) as [e|[| |expiry data]]; simpl.
  - eexists. split; [reflexivity|]. simpl.
    rewrite fetches_app, executed_app, !app_nil_r. auto.
  - destruct (Date_now sys (world s)) as [now w1]. simpl.
    eexists. split; [reflexivity|]. simpl.
    rewrite fetches_app, executed_app, !app_nil_r. auto.
  - destruct (Date_now sys (world s)) as [now w1]. simpl. eauto.
  - destruct (Date_now sys (world s)) as [now w1]. simpl.
    destruct (cache_is_fresh expiry now); simpl; [|eauto].
    eexists. split; [reflexivity|]. simpl.
    rewrite fetches_app, executed_app, !app_nil_r. auto.
Qed.

(** A fetch of the catalog calls the remote end once, however it ends,
    and runs no command. *)
Lemma fetch_catalog_once (s : State W) :
  exists o s1,
    fetch_catalog sys s = (o, s1)
    /\ fetches (trace s1) = (fetches (trace s) ++ [api_url])%list
    /\ executed (trace s1) = executed (trace s)
    /\ no_exit (fun _ => True) o.
Proof.
  unfold fetch_catalog, bind, console_log, emit, call, ask, of_result, ret,
    throw. simpl.
  destruct (fetch sys api_url (world s)) as [[e|response] w1]; simpl.
  { eexists _, _. split; [reflexivity|]. simpl.
    rewrite !fetches_app, !executed_app, !app_nil_r. auto. }
  destruct (json response) as [e|doc]; simpl.
  { eexists _, _. split; [reflexivity|]. simpl.
    rewrite !fetches_app, !executed_app, !app_nil_r. auto. }
  destruct (Date_now sys w1) as [now w2]. simpl.
  destruct (writeFileSync sys _ _ w2) as [[e|[]] w3]; simpl;
    eexists _, _; (split; [reflexivity|]); simpl;
    rewrite !fetches_app, !executed_app, !app_nil_r; auto.
Qed.


Lemma fresh_number (e now : Z) :
  cache_is_fresh (VNum (JS.Dec e 0)) now = negb (e =? 0) && (now <? e).
Proof.
  unfold cache_is_fresh. simpl. now rewrite Z.mul_1_r.
Qed.

End Cache.

(** ** The program after the catalog *)

Section Dispatch.

Context {W : Type} (sys : Sys W).

Local Abbreviation yes := (fun _ => True).

Lemma anyhow_of {A} P (Q : outcome A -> Prop) (m : M W A) :
  hoare P Q m -> hoare P anyhow m.
Proof. intro H. eapply hoare_weaken; [exact H | auto | intros; exact I]. Qed.



Lemma log_all_returns (ms : list Message) :
  hoare (W:=W) install_event (returning yes) (log_all ms).
Proof.
  induction ms as [|m ms IH]; simpl; [apply hoare_ret; exact I|].
  eapply returning_bind; [apply log_returns|]. intros _ _. exact IH.
Qed.

Lemma install_command_footprint (a : Args) (ix : Index) :
  hoare install_event anyhow (install_command sys a ix).
Proof.
  unfold install_command.
  destruct (resolve_all (nameFlag a) ix (appIdentifiers a)) as [apps lines].
  eapply anyhow_bind; [eapply anyhow_of, log_all_returns|]. intros _.
  destruct (length apps =? 0)%nat.
  - eapply anyhow_bind; [eapply anyhow_of, log_returns|]. intros _.
    apply hoare_exit. exact I.
  - eapply anyhow_bind; [eapply anyhow_of, install_all_returns|].
    intros results.
    eapply anyhow_bind; [eapply anyhow_of, log_returns|]. intros _.
    apply hoare_ret. exact I.
Qed.



Lemma ensure_cache_dir_spec (s : State W) :
  exists o s1,
    ensure_cache_dir sys s = (o, s1)
    /\ (o = Ret tt \/ exists e, o = Throw e)
    /\ fetches (trace s1) = fetches (trace s)
    /\ executed (trace s1) = executed (trace s).
Proof.
  unfold ensure_cache_dir, bind, exists_, emit, call, ret.
  destruct (existsSync sys (cacheDir sys) (world s)); [eauto 10|]. simpl.
  destruct (mkdirSync sys (cacheDir sys) (world s)) as [[e|[]] w1]; simpl;
    eexists _, _; (split; [reflexivity|]); simpl;
    rewrite fetches_app, executed_app, !app_nil_r; eauto.
Qed.

End Dispatch.

(** ** A cache file that cannot be written *)

Lemma bind_thrown {W A B} (m : M W A) (f : A -> M W B)
    (s s1 : State W) (e : Error) :
  m s = (Throw e, s1) -> bind m f s = (Throw e, s1).
Proof. intro E. unfold bind. now rewrite E. Qed.





(** ** The exit code *)

Section ExitCode.

Context {W : Type} (sys : Sys W).


Lemma bind_exited {A B} (m : M W A) (f : A -> M W B)
    (s s1 : State W) (c : Z) :
  m s = (Exit c, s1) -> bind m f s = (Exit c, s1).
Proof. intro E. unfold bind. now rewrite E. Qed.




End ExitCode.



(** The run of the witness: both installs fail, and the run ends with
    their two failed results and the exit code 0. *)
Example failed_installs_exit_zero :
  fst (run_on (cached 2000000 ["/Applications/Setapp"] three_failures)
         ["install"; "42"; "8"])
  = Ret [ {| success := false; r_name := "Foo"; skipped := false;
             error := Some corrupt |};
          {| success := false; r_name := "foo"; skipped := false;
             error := Some corrupt |} ].
Proof. vm_compute. reflexivity. Qed.


(** * The rest of the program *)

(** ** The command line *)

Lemma indexOf_remove_first (x : string) (l : list string) :
  match indexOf x l with
  | Some i => splice1 i l = remove_first x l
  | None => remove_first x l = l
  end.
Proof.
  induction l as [|y r IH]; simpl; [reflexivity|].
  destruct (String.eqb y x); [reflexivity|].
  destruct (indexOf x r) as [i|]; simpl.
  - unfold splice1 in *. simpl. now rewrite IH.
  - now rewrite IH.
Qed.

Lemma indexOf_found (x : string) (l : list string) :
  match indexOf x l with
  | Some _ => existsb (fun y => String.eqb y x) l = true
  | None => existsb (fun y => String.eqb y x) l = false
  end.
Proof.
  induction l as [|y r IH]; simpl; [reflexivity|].
  destruct (String.eqb y x); [reflexivity|].
  now destruct (indexOf x r).
Qed.

Lemma existsb_remove_other (x z : string) (l : list string) :
  x <> z ->
  existsb (fun y => String.eqb y z) (remove_first x l)
  = existsb (fun y => String.eqb y z) l.
Proof.
  intro Hne. induction l as [|y r IH]; simpl; [reflexivity|].
  destruct (String.eqb_spec y x) as [->|Hy]; simpl.
  - destruct (String.eqb_spec x z); [congruence | reflexivity].
  - now rewrite IH.
Qed.

Lemma strip_flag_after (x c : string) (l : list string) :
  String.eqb c x = false ->
  match indexOf x (c :: l) with
  | Some i => (true, splice1 i (c :: l))
  | None => (false, c :: l)
  end
  = (existsb (fun y => String.eqb y x) l, c :: remove_first x l).
Proof.
  intro Hc. pose proof (indexOf_remove_first x l) as Hr.
  pose proof (indexOf_found x l) as Hf.
  simpl indexOf. rewrite Hc.
  destruct (indexOf x l) as [i|]; simpl option_map; cbv beta iota.
  - change (splice1 (S i) (c :: l)) with (c :: splice1 i l). now rewrite Hr, Hf.
  - now rewrite Hr, Hf.
Qed.

(** X1: the command line, when its first word is a command and not a flag:
    the command is that word, each flag is set exactly when it occurs
    among the other words, and the identifiers are the other words
    without the first [--name] and the first [--parallel], in their
    order (a flag given twice stays once, as an identifier). *)
Theorem command_line_with_command (c : string) (words : list string) :
  c <> "" -> c <> "--name" -> c <> "--parallel" ->
  command (parse_args (c :: words)) = Some c
  /\ nameFlag (parse_args (c :: words))
     = existsb (fun y => String.eqb y "--name") words
  /\ parallelFlag (parse_args (c :: words))
     = existsb (fun y => String.eqb y "--parallel") words
  /\ appIdentifiers (parse_args (c :: words))
     = remove_first "--parallel" (remove_first "--name" words).
Proof.
  intros Hc Hn Hp. unfold parse_args.
  change (hd_error (c :: words)) with (Some c).
  assert (truthy_string (Some c) = true) as ->
    by (destruct c; [congruence | reflexivity]).
  apply String.eqb_neq in Hn, Hp.
  rewrite (strip_flag_after "--name" c words Hn).
  rewrite (strip_flag_after "--parallel" c (remove_first "--name" words) Hp).
  rewrite existsb_remove_other by discriminate.
  simpl. auto.
Qed.

Lemma command_line_with_command_witness :
  appIdentifiers (parse_args ["install"; "--parallel"; "7"; "--name"; "--name"])
  = ["7"; "--name"]
  /\ nameFlag (parse_args ["install"; "--parallel"; "7"; "--name"; "--name"])
     = true.
Proof.
  destruct (command_line_with_command "install"
              ["--parallel"; "7"; "--name"; "--name"])
    as (_ & Hn & _ & Hi); [discriminate | discriminate | discriminate |].
  split; [exact Hi | exact Hn].
Defined.

(** X2: a flag given before the command is read as the command: the run is
    then neither an install nor a listing, and it is not the usage either,
    whatever follows. *)
Theorem flag_before_command (flag : string) (words : list string) :
  flag = "--name" \/ flag = "--parallel" ->
  command (parse_args (flag :: words)) = Some flag
  /\ is_command (parse_args (flag :: words)) "install" = false
  /\ is_command (parse_args (flag :: words)) "list" = false
  /\ wants_usage (parse_args (flag :: words)) = false.
Proof.
  intros [-> | ->].
  - unfold wants_usage, is_command, parse_args. simpl.
    change (splice1 0 ("--name" :: words)) with words.
    destruct (indexOf "--parallel" words); repeat split; reflexivity.
  - unfold wants_usage, is_command, parse_args. simpl.
    destruct (indexOf "--name" words) as [i|]; simpl.
    + change (splice1 (S i) ("--parallel" :: words))
        with ("--parallel" :: splice1 i words).
      simpl. repeat split; reflexivity.
    + repeat split; reflexivity.
Qed.

Lemma flag_before_command_witness :
  is_command (parse_args ["--parallel"; "install"; "42"]) "install" = false.
Proof.
  destruct (flag_before_command "--parallel" ["install"; "42"]) as (_ & H & _);
    [right; reflexivity | exact H].
Defined.

(** ** What the two maps hold *)

Lemma archive_map_fold (apps : list Application) (ix : Index) (id : Z) :
  appArchiveMap (fold_left add_application apps ix) !! id
  = match last_info_with_id id apps with
    | Some info => Some info
    | None => appArchiveMap ix !! id
    end.
Proof.
  revert ix. induction apps as [|a rest IH]; intro ix; simpl; [reflexivity|].
  rewrite IH. destruct (last_info_with_id id rest); [reflexivity|].
  unfold add_application. destruct (app_versions a); [reflexivity|]. simpl.
  destruct (Z.eqb_spec (app_id a) id) as [->|Hne].
  - now rewrite lookup_insert_eq.
  - now rewrite lookup_insert_ne.
Qed.

Lemma last_info_some (id : Z) (apps : list Application) (info : AppInfo) :
  last_info_with_id id apps = Some info ->
  exists app v vs,
    In app apps /\ app_id app = id /\ app_versions app = v :: vs
    /\ info = {| url := archive_url v; name := app_name app |}.
Proof.
  induction apps as [|a rest IH]; simpl; [discriminate|].
  destruct (last_info_with_id id rest) as [i|].
  - intro E. destruct (IH E) as (app & v & vs & Hin & H). eauto 10.
  - destruct (app_versions a) as [|v vs] eqn:Ev; [discriminate|].
    destruct (Z.eqb_spec (app_id a) id) as [Hid|]; [|discriminate].
    intro E. inversion E. exists a, v, vs. auto.
Qed.

Lemma last_info_none (id : Z) (apps : list Application) :
  last_info_with_id id apps = None ->
  forall app, In app apps -> app_id app = id -> has_version app = false.
Proof.
  induction apps as [|a rest IH]; simpl; [contradiction|].
  destruct (last_info_with_id id rest) as [i|]; [discriminate|].
  intros E app [<- | Hin] Hid.
  - unfold has_version. destruct (app_versions a); [reflexivity|].
    apply Z.eqb_eq in Hid. rewrite Hid in E. discriminate.
  - now apply IH.
Qed.

(** X3: the id map holds, for an id, what the last application of the
    document with that id and with a version sets: the address of its
    first version and its name.  An id is in the map exactly when some
    application with a version has it; applications without a version add
    nothing. *)
Theorem archive_map_entries (doc : Catalog) (id : Z) :
  appArchiveMap (build_index doc) !! id = last_info_with_id id (entries doc)
  /\ (forall info,
        appArchiveMap (build_index doc) !! id = Some info ->
        exists app v vs,
          In app (entries doc) /\ app_id app = id
          /\ app_versions app = v :: vs
          /\ info = {| url := archive_url v; name := app_name app |})
  /\ ((exists app, In app (entries doc) /\ app_id app = id
                   /\ has_version app = true)
      <-> is_Some (appArchiveMap (build_index doc) !! id)).
Proof.
  assert (appArchiveMap (build_index doc) !! id
          = last_info_with_id id (entries doc)) as E.
  { rewrite build_index_entries, archive_map_fold.
    destruct (last_info_with_id id (entries doc)); [reflexivity|].
    apply lookup_empty. }
  split; [exact E|]. rewrite E. split.
  - apply last_info_some.
  - split.
    + intros (app & Hin & Hid & Hv).
      destruct (last_info_with_id id (entries doc)) eqn:El; [eauto|].
      rewrite (last_info_none _ _ El app Hin Hid) in Hv. discriminate.
    + intros [info Hi]. destruct (last_info_some _ _ _ Hi)
        as (app & v & vs & Hin & Hid & Hv & _).
      exists app. unfold has_version. now rewrite Hv.
Qed.

Lemma archive_map_entries_witness :
  appArchiveMap (build_index sample_catalog) !! 7 = None
  /\ is_Some (appArchiveMap (build_index sample_catalog) !! 8).
Proof.
  destruct (archive_map_entries sample_catalog 7) as (H7 & _).
  destruct (archive_map_entries sample_catalog 8) as (_ & _ & H8).
  split; [rewrite H7; reflexivity|].
  apply H8. eexists. split; [right; right; left; reflexivity|].
  split; reflexivity.
Defined.

Lemma names_have_entries_fold (apps : list Application) (ix : Index) :
  (forall k id, appNameMap ix !! k = Some id ->
                is_Some (appArchiveMap ix !! id)) ->
  forall k id,
    appNameMap (fold_left add_application apps ix) !! k = Some id ->
    is_Some (appArchiveMap (fold_left add_application apps ix) !! id).
Proof.
  revert ix. induction apps as [|a rest IH]; intros ix Hix; simpl; [exact Hix|].
  apply IH. intros k id. unfold add_application.
  destruct (app_versions a) as [|v vs]; [apply Hix|]. simpl.
  intros [[_ <-] | [_ Hk]]%lookup_insert_Some.
  - rewrite lookup_insert_eq. eauto.
  - apply lookup_insert_is_Some'. right. eapply Hix, Hk.
Qed.

(** X4: every id that the name map holds is a key of the id map; so on the
    maps built from a document a token is always either resolved or
    reported, and the branch of the loop that does neither is never
    taken. *)
Theorem names_have_entries (doc : Catalog) :
  (forall k id,
     appNameMap (build_index doc) !! k = Some id ->
     is_Some (appArchiveMap (build_index doc) !! id))
  /\ (forall nameFlag token, resolve nameFlag (build_index doc) token <> Silent).
Proof.
  assert (forall k id,
            appNameMap (build_index doc) !! k = Some id ->
            is_Some (appArchiveMap (build_index doc) !! id)) as H.
  { rewrite build_index_entries. apply names_have_entries_fold.
    intros k id Hk. simpl in Hk. now rewrite lookup_empty in Hk. }
  split; [exact H|].
  intros nameFlag token. unfold resolve.
  destruct (negb (JS.isNaN (JS.Number token)) && negb nameFlag).
  - destruct (get_by_number _ _) as [[z app]|]; discriminate.
  - destruct nameFlag; [|discriminate].
    destruct (appNameMap (build_index doc) !! JS.toLowerCase token)
      as [id|] eqn:Hk; [|discriminate].
    destruct (id =? 0); [discriminate|].
    destruct (H _ _ Hk) as [info ->]. discriminate.
Qed.

Lemma names_have_entries_witness :
  is_Some (appArchiveMap (build_index sample_catalog) !! 8).
Proof.
  destruct (names_have_entries sample_catalog) as [H _].
  apply (H "foo" 8). vm_compute. reflexivity.
Defined.

Lemma archive_size_fold (apps : list Application) (ix : Index) :
  (size (appArchiveMap (fold_left add_application apps ix))
   <= size (appArchiveMap ix) + length (List.filter has_version apps))%nat
  /\ (NoDup (map app_id (List.filter has_version apps)) ->
      (forall a, In a (List.filter has_version apps) ->
                 appArchiveMap ix !! app_id a = None) ->
      size (appArchiveMap (fold_left add_application apps ix))
      = (size (appArchiveMap ix) + length (List.filter has_version apps))%nat).
Proof.
  revert ix. induction apps as [|a rest IH]; intro ix; simpl.
  - split; [lia | intros; lia].
  - destruct (IH (add_application ix a)) as [IHle IHeq]. clear IH.
    destruct (app_versions a) as [|v vs] eqn:Ev.
    + assert (add_application ix a = ix) as Ea
        by (unfold add_application; now rewrite Ev).
      assert (has_version a = false) as ->
        by (unfold has_version; now rewrite Ev).
      rewrite Ea in *. split; [exact IHle | exact IHeq].
    + assert (appArchiveMap (add_application ix a)
              = <[app_id a := {| url := archive_url v; name := app_name a |}]>
                  (appArchiveMap ix)) as Ea
        by (unfold add_application; now rewrite Ev).
      assert (has_version a = true) as ->
        by (unfold has_version; now rewrite Ev).
      rewrite Ea in *. simpl. split.
      * rewrite map_size_insert in IHle.
        destruct (appArchiveMap ix !! app_id a); simpl in IHle; lia.
      * intros Hnd Hfresh. apply NoDup_cons in Hnd as [Hnotin Hnd].
        rewrite IHeq; [|exact Hnd|].
        -- rewrite map_size_insert_None by (apply Hfresh; now left). lia.
        -- intros b Hb. rewrite lookup_insert_ne.
           ++ apply Hfresh. now right.
           ++ intro Heq. apply Hnotin. rewrite Heq.
              apply list_elem_of_In. now apply in_map.
Qed.

(** X5: the total that [list] prints, the size of the id map, is at most the
    number of applications with a version, and is that number when their
    ids are distinct. *)
Theorem listing_total (doc : Catalog) :
  (size (appArchiveMap (build_index doc))
   <= length (List.filter has_version (entries doc)))%nat
  /\ (NoDup (map app_id (List.filter has_version (entries doc))) ->
      size (appArchiveMap (build_index doc))
      = length (List.filter has_version (entries doc))).
Proof.
  rewrite build_index_entries.
  destruct (archive_size_fold (entries doc) empty_index) as [Hle Heq].
  simpl in Hle, Heq. rewrite map_size_empty in Hle, Heq. split; [exact Hle|].
  intro Hnd. apply Heq; [exact Hnd|]. intros a _. apply lookup_empty.
Qed.

Lemma listing_total_witness :
  size (appArchiveMap (build_index sample_catalog)) = 2%nat.
Proof.
  destruct (listing_total sample_catalog) as [_ H]. apply H.
  apply (bool_decide_unpack _). vm_compute. exact I.
Defined.

(** ** The resolution loop *)

(** X6: the loop keeps nothing from one identifier to the next: the targets
    and the lines of a list of identifiers followed by another are those
    of the first followed by those of the second.  So an identifier given
    twice is resolved twice. *)
Theorem resolve_all_app (nameFlag : bool) (ix : Index) (ids more : list string) :
  resolve_all nameFlag ix (ids ++ more)
  = ((fst (resolve_all nameFlag ix ids)
        ++ fst (resolve_all nameFlag ix more))%list,
     (snd (resolve_all nameFlag ix ids)
        ++ snd (resolve_all nameFlag ix more))%list).
Proof.
  induction ids as [|identifier ids IH]; simpl.
  - now destruct (resolve_all nameFlag ix more).
  - rewrite IH. destruct (resolve_all nameFlag ix ids) as [ts ms].
    destruct (resolve_all nameFlag ix more) as [ts' ms']. simpl.
    now destruct (resolve nameFlag ix identifier).
Qed.

Lemma resolved_in_index (nameFlag : bool) (ix : Index) (identifier : string)
    (t : Target) :
  resolve nameFlag ix identifier = Resolved t -> in_index ix t.
Proof.
  unfold resolve, in_index.
  destruct (negb (JS.isNaN (JS.Number identifier)) && negb nameFlag).
  - unfold get_by_number. destruct (JS.to_integer _) as [z|]; [|discriminate].
    destruct (appArchiveMap ix !! z) as [[u n]|] eqn:E; [|discriminate].
    simpl. intro H. inversion H. subst. exact E.
  - destruct nameFlag; [|discriminate].
    destruct (appNameMap ix !! JS.toLowerCase identifier) as [id|];
      [|discriminate].
    destruct (id =? 0); [discriminate|].
    destruct (appArchiveMap ix !! id) as [[u n]|] eqn:E; [|discriminate].
    intro H. inversion H. subst. exact E.
Qed.

Lemma reported_about (nameFlag : bool) (ix : Index) (identifier : string)
    (m : Message) :
  resolve nameFlag ix identifier = Reported m ->
  m = MsgIdNotFound (JS.Number identifier)
  \/ m = MsgNameNotFound identifier
  \/ m = MsgInvalidAppId identifier.
Proof.
  unfold resolve.
  destruct (negb (JS.isNaN (JS.Number identifier)) && negb nameFlag).
  - destruct (get_by_number _ _) as [[z app]|]; [discriminate|].
    intro H. inversion H. auto.
  - destruct nameFlag.
    + destruct (appNameMap ix !! JS.toLowerCase identifier) as [id|].
      * destruct (id =? 0); [intro H; inversion H; auto|].
        destruct (appArchiveMap ix !! id); discriminate.
      * intro H. inversion H. auto.
    + intro H. inversion H. auto.
Qed.

Lemma about_cons (identifier : string) (ids : list string) (m : Message) :
  about ids m -> about (identifier :: ids) m.
Proof. intros (i & Hin & H). exists i. split; [now right | exact H]. Qed.

(** X7: what the loop gives: every target is an entry of the id map, with
    that entry's address and name; every line is about one of the
    identifiers; there are at most as many targets and lines as
    identifiers, and on the maps built from a document exactly as many:
    each identifier gives one target or one line. *)
Theorem resolve_all_accounts (nameFlag : bool) (ix : Index) (ids : list string) :
  Forall (in_index ix) (fst (resolve_all nameFlag ix ids))
  /\ Forall (about ids) (snd (resolve_all nameFlag ix ids))
  /\ (length (fst (resolve_all nameFlag ix ids))
      + length (snd (resolve_all nameFlag ix ids)) <= length ids)%nat
  /\ (forall doc, ix = build_index doc ->
        (length (fst (resolve_all nameFlag ix ids))
         + length (snd (resolve_all nameFlag ix ids)))%nat = length ids).
Proof.
  induction ids as [|identifier ids (IHt & IHm & IHle & IHeq)]; simpl.
  - repeat split; auto.
  - destruct (resolve_all nameFlag ix ids) as [ts ms]. simpl in *.
    assert (Forall (about (identifier :: ids)) ms) as Hms
      by (eapply Forall_impl; [exact IHm | apply about_cons]).
    destruct (resolve nameFlag ix identifier) as [t|m|] eqn:E; simpl;
      (split; [|split; [|split]]).
    + constructor; [eapply resolved_in_index, E | exact IHt].
    + exact Hms.
    + lia.
    + intros doc Hd. rewrite (IHeq doc Hd). reflexivity.
    + exact IHt.
    + constructor; [|exact Hms]. exists identifier.
      split; [now left | eapply reported_about, E].
    + lia.
    + intros doc Hd. specialize (IHeq doc Hd). lia.
    + exact IHt.
    + exact Hms.
    + lia.
    + intros doc ->. exfalso. revert E. unfold resolve.
      destruct (negb (JS.isNaN (JS.Number identifier)) && negb nameFlag).
      * destruct (get_by_number _ _) as [[z app]|]; discriminate.
      * destruct nameFlag; [|discriminate].
        destruct (appNameMap (build_index doc) !! JS.toLowerCase identifier)
          as [id|] eqn:Hk; [|discriminate].
        destruct (id =? 0); [discriminate|].
        assert (is_Some (appArchiveMap (build_index doc) !! id)) as [info ->].
        { revert Hk. rewrite build_index_entries.
          apply names_have_entries_fold. intros k i Hi. simpl in Hi.
          now rewrite lookup_empty in Hi. }
        discriminate.
Qed.

Lemma resolve_all_accounts_witness :
  (length (fst (resolve_all false (build_index sample_catalog)
                  ["42"; "42"; "x"; "9"]))
   + length (snd (resolve_all false (build_index sample_catalog)
                    ["42"; "42"; "x"; "9"])))%nat
  = 4%nat.
Proof.
  destruct (resolve_all_accounts false (build_index sample_catalog)
              ["42"; "42"; "x"; "9"]) as (_ & _ & _ & H).
  apply (H sample_catalog). reflexivity.
Defined.

(** ** The summary *)

Lemma skipped_are_successes (apps : list Target) (results : list InstallResult) :
  Forall2 result_of apps results ->
  Forall (fun r => skipped r = true -> success r = true) results.
Proof.
  induction 1 as [|app r apps results [_ Hr] _ IH]; constructor; [|exact IH].
  destruct (error r); [destruct Hr as [_ ->]; discriminate | auto].
Qed.

Lemma count_split (results : list InstallResult) :
  Forall (fun r => skipped r = true -> success r = true) results ->
  count success results
  = (count (fun r => success r && negb (skipped r)) results
     + count skipped results)%nat
  /\ (count success results
      + count (fun r => negb (success r)) results)%nat = length results.
Proof.
  unfold count. induction 1 as [|r results Hr _ [IH1 IH2]]; simpl; [auto|].
  destruct (success r), (skipped r); simpl in *; lia.
Qed.

(** X8: the three numbers of the summary, for the results of a run of the
    installs: installed, skipped and failed add up to the number of
    targets; installed counts the successes that were not skipped,
    skipped the skipped ones, failed the failures. *)
Theorem summary_counts {W} (sys : Sys W) (parallelFlag : bool)
    (apps : list Target) (s s' : State W) (results : list InstallResult) :
  install_all sys parallelFlag apps s = (Ret results, s') ->
  exists installed skipped_ failed,
    summary (length apps) results = MsgSummary installed skipped_ failed
    /\ (installed + skipped_ + failed)%nat = length apps
    /\ installed = count (fun r => success r && negb (skipped r)) results
    /\ skipped_ = count skipped results
    /\ failed = count (fun r => negb (success r)) results.
Proof.
  intro E. destruct (install_all_results sys parallelFlag apps s)
    as (results' & s'' & E' & HF).
  rewrite E in E'. inversion E'; subst results' s''. clear E'.
  pose proof (Forall2_length _ _ _ HF) as Hlen.
  destruct (count_split results (skipped_are_successes _ _ HF)) as [H1 H2].
  exists (count (fun r => success r && negb (skipped r)) results),
    (count skipped results), (count (fun r => negb (success r)) results).
  split; [unfold summary; f_equal; lia|]. split; [lia | auto].
Qed.

Lemma summary_counts_witness :
  exists installed skipped_ failed,
    summary 3
      [ {| success := true; r_name := "A"; skipped := false; error := None |};
        {| success := false; r_name := "B"; skipped := false;
           error := Some corrupt |};
        {| success := true; r_name := "C"; skipped := false; error := None |} ]
    = MsgSummary installed skipped_ failed
    /\ (installed + skipped_ + failed)%nat = 3%nat.
Proof.
  destruct (summary_counts (scripted (machine_with sequential_script)) false
              three_targets (start_state (machine_with sequential_script))
              (snd (install_all (scripted (machine_with sequential_script))
                      false three_targets
                      (start_state (machine_with sequential_script))))
              [ {| success := true; r_name := "A"; skipped := false;
                   error := None |};
                {| success := false; r_name := "B"; skipped := false;
                   error := Some corrupt |};
                {| success := true; r_name := "C"; skipped := false;
                   error := None |} ])
    as (i & k & f & E & Hsum & _).
  - vm_compute. reflexivity.
  - exists i, k, f. split; [exact E | exact Hsum].
Defined.

(** ** The steps of an install *)

Section Steps.

Context {W : Type} (sys : Sys W).

Lemma exec_threw (cmd : string) (e : Error) (s : State W) (w1 : W) :
  execSync sys cmd (world s) = (inl e, w1) ->
  exec sys cmd s
  = (Throw e, {| world := w1; trace := trace s ++ [EvExec cmd] |}).
Proof.
  intro E. unfold exec, bind, emit, call. simpl. now rewrite E.
Qed.

Lemma ask_value {A} (f : W -> A * W) (s : State W) (a : A) (w1 : W) :
  f (world s) = (a, w1) ->
  ask f s = (Ret a, {| world := w1; trace := trace s |}).
Proof. intro E. unfold ask. now rewrite E. Qed.

Lemma download_promise_settles (parallelFlag : bool) (app : Target)
    (tempFile : string) (s : State W) (res : Error + string) (w1 : W) :
  execSync sys (curl_cmd parallelFlag app tempFile) (world s) = (res, w1) ->
  download_promise sys parallelFlag app tempFile s
  = (Ret match res with inl e => Some e | inr _ => None end,
     {| world := w1;
        trace := trace s ++ [EvExec (curl_cmd parallelFlag app tempFile)] |}).
Proof.
  intro E. unfold download_promise. destruct res as [e|out].
  - erewrite try_catch_caught; [reflexivity|].
    apply bind_thrown. now apply exec_threw.
  - apply try_catch_returned.
    now rewrite (bind_returned _ _ _ _ _ (exec_printed _ _ _ _ _ E)).
Qed.

(** [installApp] up to its [await], when nothing is found at the
    destination. *)
Lemma installApp_start_awaits (parallelFlag : bool) (app : Target)
    (s : State W) (out randomId : string) (res : Error + string)
    (w1 w2 w3 : W) :
  execSync sys (find_existing_cmd app) (world s) = (inr out, w1) ->
  JS.trim out = "" ->
  randomBytes_hex sys w1 = (randomId, w2) ->
  execSync sys (curl_cmd parallelFlag app (temp_file randomId app)) w2
    = (res, w3) ->
  installApp_start sys parallelFlag app s
  = (Ret (Awaiting (temp_dir randomId app) (temp_file randomId app)
            match res with inl e => Some e | inr _ => None end),
     {| world := w3;
        trace := ((trace s ++ [EvExec (find_existing_cmd app)])
                    ++ [EvLog (MsgDownloading (t_name app))])
                   ++ [EvExec (curl_cmd parallelFlag app
                                 (temp_file randomId app))] |}).
Proof.
  intros Hf Ht Hr Hc. unfold installApp_start. apply try_catch_returned.
  unfold check_and_download.
  rewrite (bind_returned _ _ _ _ _ (exec_printed _ _ _ _ _ Hf)), Ht.
  rewrite (bind_returned _ _ _ _ _
             (ask_value (randomBytes_hex sys)
                {| world := w1;
                   trace := trace s ++ [EvExec (find_existing_cmd app)] |}
                randomId w2 Hr)).
  unfold console_log. unfold bind at 1. unfold emit at 1. cbn [world trace].
  fold (temp_dir randomId app). fold (temp_file randomId app).
  erewrite bind_returned; [reflexivity|].
  now apply download_promise_settles.
Qed.

End Steps.

(** ** Placing a bundle *)

Lemma executed_exec (cmd : string) : executed [EvExec cmd] = [cmd].
Proof. reflexivity. Qed.

Lemma executed_log (m : Message) : executed [EvLog m] = [].
Proof. reflexivity. Qed.

Lemma split_no_separator (sep : ascii) (s : string) :
  JS.all_chars (fun c => negb (Ascii.eqb c sep)) s = true ->
  JS.split sep s = [s].
Proof.
  induction s as [|c r IH]; simpl; [reflexivity|].
  intros [Hc Hr]%andb_prop. apply negb_true_iff in Hc.
  now rewrite Hc, (IH Hr).
Qed.

Lemma split_last_piece (sep : ascii) (pre name : string) :
  JS.all_chars (fun c => negb (Ascii.eqb c sep)) name = true ->
  exists h t,
    JS.split sep (pre ++ String sep name) = h :: t
    /\ t <> [] /\ List.last t EmptyString = name.
Proof.
  intro Hn. induction pre as [|c pre (h & t & E & Ht & Hl)].
  - exists EmptyString, [name]. simpl. rewrite Ascii.eqb_refl.
    rewrite (split_no_separator _ _ Hn). repeat split. discriminate.
  - change (String c pre ++ String sep name)%string
      with (String c (pre ++ String sep name)%string).
    simpl. rewrite E. destruct (Ascii.eqb c sep).
    + exists EmptyString, (h :: t). repeat split; [discriminate|].
      destruct t; [congruence | exact Hl].
    + exists (String c h), t. auto.
Qed.

(** The last piece of a path is what follows its last slash. *)
Lemma pop_split_path (dir name : string) :
  JS.all_chars (fun c => negb (is_slash c)) name = true ->
  JS.pop (JS.split "/" (dir ++ "/" ++ name)) = name.
Proof.
  intro Hn. destruct (split_last_piece "/" dir name Hn) as (h & t & E & Ht & Hl).
  change (dir ++ "/" ++ name)%string with (dir ++ String "/" name)%string.
  rewrite E. unfold JS.pop. destruct t; [congruence | exact Hl].
Qed.

Lemma place_runs {W} (sys : Sys W) (dir name : string) (s : State W) :
  JS.all_chars (fun c => negb (is_slash c)) name = true ->
  let appFile := (dir ++ "/" ++ name)%string in
  let destPath := (setappDir ++ "/" ++ name)%string in
  (existsSync sys destPath (world s) = true ->
   place sys appFile s
   = (Ret tt, {| world := world s;
                 trace := trace s ++ [EvLog (MsgAlreadyExists name)] |}))
  /\ (existsSync sys destPath (world s) = false ->
      forall res w1,
        execSync sys (mv_cmd appFile destPath) (world s) = (res, w1) ->
        place sys appFile s
        = match res with
          | inr _ =>
              (Ret tt, {| world := w1;
                          trace := (trace s ++ [EvExec (mv_cmd appFile destPath)])
                                     ++ [EvLog (MsgInstalled name)] |})
          | inl e =>
              (Throw e, {| world := w1;
                           trace := trace s
                                      ++ [EvExec (mv_cmd appFile destPath)] |})
          end).
Proof.
  intros Hn. cbv zeta.
  generalize (pop_split_path dir name Hn).
  assert ((dir ++ "/" ++ name)%string <> "") as Ea by (now destruct dir).
  generalize dependent (dir ++ "/" ++ name)%string. intros appFile Ea Hp.
  destruct appFile as [|c r]; [congruence|].
  unfold place. cbv beta iota zeta. rewrite Hp.
  rewrite (bind_returned (exists_ sys (setappDir ++ "/" ++ name)) _ s s _
             eq_refl).
  split.
  - intros ->. reflexivity.
  - intros -> res w1 Hm. destruct res as [e|out].
    + now rewrite (bind_thrown _ _ _ _ _ (exec_threw sys _ _ _ _ Hm)).
    + now rewrite (bind_returned _ _ _ _ _ (exec_printed sys _ _ _ _ Hm)).
Qed.


(** X9: one located bundle, [dir/name]: when a bundle of that name is at the
    destination no command is run and the machine is left as it is;
    otherwise the one command run is the move of the bundle to the
    destination under its own name, and the step returns exactly when the
    move succeeds, an error of the move being thrown on. *)
Theorem bundle_placement {W} (sys : Sys W) (dir name : string) (s : State W) :
  JS.all_chars (fun c => negb (is_slash c)) name = true ->
  (existsSync sys (setappDir ++ "/" ++ name) (world s) = true ->
   exists s',
     place sys (dir ++ "/" ++ name) s = (Ret tt, s')
     /\ world s' = world s
     /\ executed (trace s') = executed (trace s))
  /\ (existsSync sys (setappDir ++ "/" ++ name) (world s) = false ->
      forall res w1,
        execSync sys (mv_cmd (dir ++ "/" ++ name) (setappDir ++ "/" ++ name))
          (world s) = (res, w1) ->
        exists o s',
          place sys (dir ++ "/" ++ name) s = (o, s')
          /\ o = match res with inr _ => Ret tt | inl e => Throw e end
          /\ executed (trace s')
             = (executed (trace s)
                  ++ [mv_cmd (dir ++ "/" ++ name) (setappDir ++ "/" ++ name)])%list).
Proof.
  intro Hn. destruct (place_runs sys dir name s Hn) as [Hthere Habsent].
  cbv zeta in Hthere, Habsent. split.
  - intro Hex. rewrite (Hthere Hex). eexists. split; [reflexivity|].
    split; [reflexivity|]. cbn [trace].
    now rewrite executed_app, executed_log, app_nil_r.
  - intros Hex res w1 Hmv. rewrite (Habsent Hex res w1 Hmv).
    destruct res as [e|out]; eexists _, _; (split; [reflexivity|]);
      (split; [reflexivity|]); cbn [trace];
      rewrite !executed_app, ?executed_exec, ?executed_log, ?app_nil_r;
      reflexivity.
Qed.

Lemma bundle_placement_witness :
  exists o s',
    place (scripted (machine_with [])) "/tmp/setapp_00_1/A.app"
      (start_state (machine_with []))
    = (o, s')
    /\ o = Ret tt
    /\ executed (trace s')
       = [mv_cmd "/tmp/setapp_00_1/A.app" "/Applications/Setapp/A.app"].
Proof.
  destruct (bundle_placement (scripted (machine_with [])) "/tmp/setapp_00_1"
              "A.app" (start_state (machine_with []))) as [_ H];
    [reflexivity|].
  apply (H eq_refl (inr "") (machine_with [])). reflexivity.
Defined.

(** ** The paths through an install *)

Section Paths.

Context {W : Type} (sys : Sys W).

Lemma exec_printed_at (cmd out : string) (w w1 : W) (t : list Event) :
  execSync sys cmd w = (inr out, w1) ->
  exec sys cmd {| world := w; trace := t |}
  = (Ret out, {| world := w1; trace := t ++ [EvExec cmd] |}).
Proof. intro E. now apply (exec_printed sys cmd out {| world := w; trace := t |}). Qed.

Lemma exec_threw_at (cmd : string) (e : Error) (w w1 : W) (t : list Event) :
  execSync sys cmd w = (inl e, w1) ->
  exec sys cmd {| world := w; trace := t |}
  = (Throw e, {| world := w1; trace := t ++ [EvExec cmd] |}).
Proof. intro E. now apply (exec_threw sys cmd e {| world := w; trace := t |}). Qed.

Lemma resume_failed (app : Target) (d f : string) (rejected : option Error)
    (s s1 : State W) (e : Error) :
  extract_and_place sys app d f rejected s = (Throw e, s1) ->
  installApp_resume sys app d f rejected s
  = (Ret (failed_result app e),
     {| world := world s1;
        trace := trace s1 ++ [EvLog (MsgInstallError (t_name app))] |}).
Proof.
  intro E. unfold installApp_resume.
  now rewrite (try_catch_caught _ _ _ _ _ E).
Qed.

Variables (parallelFlag : bool) (app : Target) (s : State W).
Variables (out randomId : string) (w1 w2 : W).

Hypothesis nothing_there :
  execSync sys (find_existing_cmd app) (world s) = (inr out, w1).
Hypothesis nothing_there_blank : JS.trim out = "".
Hypothesis token : randomBytes_hex sys w1 = (randomId, w2).

(** X10: when the download fails, [installApp] returns the failed result with
    the error of the download, and the only commands run are the search
    of the destination and the download: nothing is extracted and nothing
    is removed. *)
Theorem download_failure_run (e : Error) (w3 : W) :
  execSync sys (curl_cmd parallelFlag app (temp_file randomId app)) w2
    = (inl e, w3) ->
  exists s',
    installApp sys parallelFlag app s = (Ret (failed_result app e), s')
    /\ executed (trace s')
       = (executed (trace s)
            ++ [find_existing_cmd app;
                curl_cmd parallelFlag app (temp_file randomId app)])%list.
Proof.
  intro Hc. unfold installApp.
  rewrite (bind_returned _ _ _ _ _
             (installApp_start_awaits sys parallelFlag app s out randomId
                (inl e) w1 w2 w3 nothing_there nothing_there_blank token Hc)).
  unfold finish. erewrite resume_failed; [|reflexivity].
  eexists. split; [reflexivity|]. cbn [trace world].
  rewrite !executed_app, !executed_exec, !executed_log, !app_nil_r,
    <- !app_assoc.
  reflexivity.
Qed.

(** X11: when the extraction fails, [installApp] returns the failed result
    with the error of the extraction, and the last command run is the
    extraction: the removal of the temporary directory and archive, which
    is the last step of the [try] block, is not run. *)
Theorem extraction_failure_run (o1 o2 : string) (e : Error) (w3 w4 w5 : W) :
  execSync sys (curl_cmd parallelFlag app (temp_file randomId app)) w2
    = (inr o1, w3) ->
  execSync sys (mkdir_cmd (temp_dir randomId app)) w3 = (inr o2, w4) ->
  execSync sys (unzip_cmd (temp_file randomId app) (temp_dir randomId app)) w4
    = (inl e, w5) ->
  exists s',
    installApp sys parallelFlag app s = (Ret (failed_result app e), s')
    /\ executed (trace s')
       = (executed (trace s)
            ++ [find_existing_cmd app;
                curl_cmd parallelFlag app (temp_file randomId app);
                mkdir_cmd (temp_dir randomId app);
                unzip_cmd (temp_file randomId app) (temp_dir randomId app)])%list.
Proof.
  intros Hc Hm Hu. unfold installApp.
  rewrite (bind_returned _ _ _ _ _
             (installApp_start_awaits sys parallelFlag app s out randomId
                (inr o1) w1 w2 w3 nothing_there nothing_there_blank token Hc)).
  unfold finish. erewrite resume_failed.
  2:{ unfold extract_and_place.
      rewrite (bind_returned (ret tt) _ _ _ tt eq_refl).
      rewrite (bind_returned _ _ _ _ _ (exec_printed_at _ _ _ _ _ Hm)).
      apply bind_thrown. apply (exec_threw_at _ _ _ _ _ Hu). }
  eexists. split; [reflexivity|]. cbn [trace world].
  rewrite !executed_app, !executed_exec, !executed_log, !app_nil_r,
    <- !app_assoc.
  reflexivity.
Qed.

(** X12: when nothing is at the destination, every command succeeds and the
    extraction directory lists one bundle, [installApp] returns the
    installed result after running, in this order: the search of the
    destination, the download, the making of the temporary directory, the
    extraction, the search for bundles, the move of the bundle to the
    destination under its own name, and the removal of the temporary
    directory and archive. *)
Theorem one_bundle_run (o1 o2 o3 found name o4 o5 : string)
    (w3 w4 w5 w6 w7 w8 : W) :
  execSync sys (curl_cmd parallelFlag app (temp_file randomId app)) w2
    = (inr o1, w3) ->
  execSync sys (mkdir_cmd (temp_dir randomId app)) w3 = (inr o2, w4) ->
  execSync sys (unzip_cmd (temp_file randomId app) (temp_dir randomId app)) w4
    = (inr o3, w5) ->
  execSync sys (find_bundles_cmd (temp_dir randomId app)) w5 = (inr found, w6) ->
  JS.split "010" (JS.trim found)
    = [(temp_dir randomId app ++ "/" ++ name)%string] ->
  JS.all_chars (fun c => negb (is_slash c)) name = true ->
  existsSync sys (setappDir ++ "/" ++ name)%string w6 = false ->
  execSync sys (mv_cmd (temp_dir randomId app ++ "/" ++ name)
                  (setappDir ++ "/" ++ name)) w6 = (inr o4, w7) ->
  execSync sys (rm_cmd (temp_dir randomId app) (temp_file randomId app)) w7
    = (inr o5, w8) ->
  exists s',
    installApp sys parallelFlag app s = (Ret (installed_result app), s')
    /\ executed (trace s')
       = (executed (trace s)
            ++ [find_existing_cmd app;
                curl_cmd parallelFlag app (temp_file randomId app);
                mkdir_cmd (temp_dir randomId app);
                unzip_cmd (temp_file randomId app) (temp_dir randomId app);
                find_bundles_cmd (temp_dir randomId app);
                mv_cmd (temp_dir randomId app ++ "/" ++ name)
                  (setappDir ++ "/" ++ name);
                rm_cmd (temp_dir randomId app) (temp_file randomId app)])%list.
Proof.
  intros Hc Hm Hu Hfb Hsplit Hname Hex Hmv Hrm. unfold installApp.
  rewrite (bind_returned _ _ _ _ _
             (installApp_start_awaits sys parallelFlag app s out randomId
                (inr o1) w1 w2 w3 nothing_there nothing_there_blank token Hc)).
  unfold finish, installApp_resume.
  erewrite try_catch_returned.
  2:{ unfold extract_and_place.
      rewrite (bind_returned (ret tt) _ _ _ tt eq_refl).
      rewrite (bind_returned _ _ _ _ _ (exec_printed_at _ _ _ _ _ Hm)).
      rewrite (bind_returned _ _ _ _ _ (exec_printed_at _ _ _ _ _ Hu)).
      rewrite (bind_returned _ _ _ _ _ (exec_printed_at _ _ _ _ _ Hfb)).
      cbv zeta. rewrite Hsplit. cbn [length Nat.eqb place_all].
      destruct (place_runs sys (temp_dir randomId app) name
                  {| world := w6;
                     trace := (((((trace s ++ [EvExec (find_existing_cmd app)])
                                    ++ [EvLog (MsgDownloading (t_name app))])
                                   ++ [EvExec (curl_cmd parallelFlag app
                                                 (temp_file randomId app))])
                                  ++ [EvExec (mkdir_cmd (temp_dir randomId app))])
                                 ++ [EvExec (unzip_cmd (temp_file randomId app)
                                               (temp_dir randomId app))])
                                ++ [EvExec (find_bundles_cmd
                                              (temp_dir randomId app))] |}
                  Hname) as [_ Hp].
      specialize (Hp Hex (inr o4) w7 Hmv). cbv iota in Hp.
      erewrite (bind_returned (bind (place sys _) _));
        [|rewrite (bind_returned _ _ _ _ _ Hp); reflexivity].
      rewrite (bind_returned _ _ _ _ _ (exec_printed_at _ _ _ _ _ Hrm)).
      reflexivity. }
  eexists. split; [reflexivity|]. cbn [trace world].
  rewrite !executed_app, !executed_exec, !executed_log, !app_nil_r,
    <- !app_assoc.
  reflexivity.
Qed.

End Paths.

Lemma download_failure_run_witness :
  exists s',
    installApp (scripted (machine_with [inr ""; inl corrupt])) false
      {| t_url := "http://x/a.zip"; t_name := "A"; t_id := 1 |}
      (start_state (machine_with [inr ""; inl corrupt]))
    = (Ret (failed_result {| t_url := "http://x/a.zip"; t_name := "A";
                             t_id := 1 |} corrupt), s').
Proof.
  destruct (download_failure_run (scripted (machine_with [inr ""; inl corrupt]))
              false {| t_url := "http://x/a.zip"; t_name := "A"; t_id := 1 |}
              (start_state (machine_with [inr ""; inl corrupt]))
              "" "00" (machine_with [inl corrupt]) (machine_with [inl corrupt])
              eq_refl eq_refl eq_refl corrupt (machine_with []) eq_refl)
    as (s' & E & _).
  exists s'. exact E.
Defined.

Lemma extraction_failure_run_witness :
  exists s',
    installApp (scripted (machine_with [inr ""; inr ""; inr ""; inl corrupt]))
      false {| t_url := "http://x/a.zip"; t_name := "A"; t_id := 1 |}
      (start_state (machine_with [inr ""; inr ""; inr ""; inl corrupt]))
    = (Ret (failed_result {| t_url := "http://x/a.zip"; t_name := "A";
                             t_id := 1 |} corrupt), s').
Proof.
  destruct (extraction_failure_run
              (scripted (machine_with [inr ""; inr ""; inr ""; inl corrupt]))
              false {| t_url := "http://x/a.zip"; t_name := "A"; t_id := 1 |}
              (start_state (machine_with [inr ""; inr ""; inr ""; inl corrupt]))
              "" "00" (machine_with [inr ""; inr ""; inl corrupt])
              (machine_with [inr ""; inr ""; inl corrupt])
              eq_refl eq_refl eq_refl "" "" corrupt
              (machine_with [inr ""; inl corrupt]) (machine_with [inl corrupt])
              (machine_with []) eq_refl eq_refl eq_refl)
    as (s' & E & _).
  exists s'. exact E.
Defined.

Lemma one_bundle_run_witness :
  exists s',
    installApp
      (scripted (machine_with [inr ""; inr ""; inr ""; inr "";
                               inr "/tmp/setapp_00_1/A.app"; inr ""; inr ""]))
      false {| t_url := "http://x/a.zip"; t_name := "A"; t_id := 1 |}
      (start_state (machine_with [inr ""; inr ""; inr ""; inr "";
                                  inr "/tmp/setapp_00_1/A.app"; inr ""; inr ""]))
    = (Ret (installed_result {| t_url := "http://x/a.zip"; t_name := "A";
                                t_id := 1 |}), s').
Proof.
  destruct (one_bundle_run
              (scripted (machine_with [inr ""; inr ""; inr ""; inr "";
                                       inr "/tmp/setapp_00_1/A.app"; inr ""; inr ""]))
              false {| t_url := "http://x/a.zip"; t_name := "A"; t_id := 1 |}
              (start_state (machine_with [inr ""; inr ""; inr ""; inr "";
                                          inr "/tmp/setapp_00_1/A.app"; inr "";
                                          inr ""]))
              "" "00"
              (machine_with [inr ""; inr ""; inr "";
                             inr "/tmp/setapp_00_1/A.app"; inr ""; inr ""])
              (machine_with [inr ""; inr ""; inr "";
                             inr "/tmp/setapp_00_1/A.app"; inr ""; inr ""])
              eq_refl eq_refl eq_refl
              "" "" "" "/tmp/setapp_00_1/A.app" "A.app" "" ""
              (machine_with [inr ""; inr ""; inr "/tmp/setapp_00_1/A.app";
                             inr ""; inr ""])
              (machine_with [inr ""; inr "/tmp/setapp_00_1/A.app"; inr ""; inr ""])
              (machine_with [inr "/tmp/setapp_00_1/A.app"; inr ""; inr ""])
              (machine_with [inr ""; inr ""])
              (machine_with [inr ""])
              (machine_with [])
              eq_refl eq_refl eq_refl eq_refl eq_refl eq_refl eq_refl eq_refl
              eq_refl)
    as (s' & E & _).
  exists s'. exact E.
Defined.

(** ** The order of the parallel schedule *)

Section Footprints.

Context {W : Type} (sys : Sys W).

Variable P : Event -> Prop.
Hypothesis P_log : forall m, P (EvLog m).

Local Abbreviation yes := (fun _ => True).

Lemma log_within (m : Message) :
  hoare (W:=W) P (returning yes) (console_log m).
Proof. apply hoare_emit; [apply P_log | exact I]. Qed.

Lemma exec_within (cmd : string) :
  P (EvExec cmd) -> hoare P (no_exit yes) (exec sys cmd).
Proof.
  intro Hc. unfold exec. eapply no_exit_bind with (R1 := yes).
  - apply hoare_emit; [exact Hc | exact I].
  - intros _ _. apply hoare_call; simpl; auto.
Qed.

Lemma install_failed_within (app : Target) (e : Error) :
  hoare (W:=W) P (returning (result_of app)) (install_failed app e).
Proof.
  unfold install_failed. eapply returning_bind; [apply log_within|].
  intros _ _. apply hoare_ret. simpl. unfold result_of. simpl. auto.
Qed.

Lemma installApp_start_within (parallelFlag : bool) (app : Target) :
  P (EvExec (find_existing_cmd app)) ->
  (forall tempFile, P (EvExec (curl_cmd parallelFlag app tempFile))) ->
  hoare P (returning (started_for app)) (installApp_start sys parallelFlag app).
Proof.
  intros Hfind Hcurl. unfold installApp_start, check_and_download.
  apply returning_try_catch.
  - eapply no_exit_bind; [apply exec_within, Hfind|]. intros existingApps _.
    destruct (JS.trim existingApps).
    + eapply no_exit_bind with (R1 := yes).
      { apply hoare_ask. simpl. auto. }
      intros randomId _.
      eapply no_exit_bind; [apply returning_no_exit, log_within|].
      intros _ _. apply returning_no_exit.
      eapply returning_bind with (R1 := yes).
      { unfold download_promise. apply returning_try_catch.
        - eapply no_exit_bind; [apply exec_within, Hcurl|].
          intros _ _. apply hoare_ret. exact I.
        - intro e. apply hoare_ret. exact I. }
      intros rejected _. apply hoare_ret. exact I.
    + eapply no_exit_bind; [apply returning_no_exit, log_within|].
      intros _ _. apply hoare_ret. simpl. unfold result_of. simpl. auto.
  - intro e. eapply returning_bind; [apply install_failed_within|].
    intros r Hr. apply hoare_ret. exact Hr.
Qed.

Hypothesis P_later :
  forall cmd, is_curl cmd = false -> P (EvExec cmd).

Lemma place_all_within (appFiles : list string) :
  hoare P (no_exit yes) (place_all sys appFiles).
Proof.
  induction appFiles as [|f l IH]; simpl; [apply hoare_ret; exact I|].
  eapply no_exit_bind with (R1 := yes); [|intros _ _; exact IH].
  unfold place. destruct f as [|c r]; [apply hoare_ret; exact I|].
  eapply no_exit_bind; [apply returning_no_exit, exists_returns|].
  intros [] _.
  - apply returning_no_exit, log_within.
  - eapply no_exit_bind; [apply exec_within, P_later; reflexivity|].
    intros _ _. apply returning_no_exit, log_within.
Qed.

Lemma finish_within (app : Target) (st : Started) :
  started_for app st ->
  hoare P (returning (result_of app)) (finish sys app st).
Proof.
  destruct st as [r|d f rejected]; simpl; intro H; [apply hoare_ret; exact H|].
  unfold installApp_resume, extract_and_place. apply returning_try_catch;
    [|apply install_failed_within].
  eapply no_exit_bind with (R1 := yes).
  { destruct rejected; [apply hoare_throw | apply hoare_ret]; exact I. }
  intros _ _.
  eapply no_exit_bind; [apply exec_within, P_later; reflexivity|]. intros _ _.
  eapply no_exit_bind; [apply exec_within, P_later; reflexivity|]. intros _ _.
  eapply no_exit_bind; [apply exec_within, P_later; reflexivity|]. intros found _.
  destruct (length (JS.split "010" (JS.trim found)) =? 0)%nat.
  - apply hoare_throw. exact I.
  - eapply no_exit_bind; [apply place_all_within|]. intros _ _.
    eapply no_exit_bind; [apply exec_within, P_later; reflexivity|]. intros _ _.
    apply hoare_ret. simpl. unfold result_of. simpl. auto.
Qed.

Lemma finish_all_within (apps : list Target) (started : list Started) :
  Forall2 started_for apps started ->
  hoare P (returning (Forall2 result_of apps))
    (finish_all sys (combine apps started)).
Proof.
  induction 1 as [|app st apps started Hst _ IH]; simpl.
  - apply hoare_ret. constructor.
  - eapply returning_bind; [now apply finish_within|]. intros r Hr.
    eapply returning_bind; [apply IH|]. intros rs Hrs.
    apply hoare_ret. now constructor.
Qed.

End Footprints.

Lemma no_download_after (t : list Event) :
  Forall after_await t -> downloads t = [].
Proof.
  induction 1 as [|e t He _ IH]; [reflexivity|].
  destruct e; simpl in He; try contradiction; simpl; [exact IH|].
  now rewrite He.
Qed.

(** X13: in the parallel mode every target is checked and downloaded before
    any archive is extracted: the run returns, and what it adds to the
    trace is a first part made only of lines, searches of the destination
    and downloads, followed by a second part with no download in it. *)
Theorem parallel_downloads_first {W} (sys : Sys W) (apps : list Target)
    (s : State W) :
  exists results s' t1 t2,
    install_parallel sys apps s = (Ret results, s')
    /\ trace s' = (trace s ++ t1 ++ t2)%list
    /\ Forall before_await t1
    /\ Forall after_await t2
    /\ downloads (trace s') = (downloads (trace s) ++ downloads t1)%list.
Proof.
  unfold install_parallel.
  destruct (returning_mapM (W:=W) before_await started_for
              (installApp_start sys true) apps) with (s := s)
    as (o1 & s1 & t1 & E1 & Et1 & Hp1 & Hq1).
  { intro app. apply installApp_start_within.
    - intro m. exact I.
    - right. eauto.
    - intro f. left. reflexivity. }
  destruct o1 as [started|e|c]; simpl in Hq1; try contradiction.
  destruct (finish_all_within sys after_await (fun _ => I)
              (fun _ H => H) apps started Hq1 s1)
    as (o2 & s2 & t2 & E2 & Et2 & Hp2 & Hq2).
  destruct o2 as [results|e|c]; simpl in Hq2; try contradiction.
  exists results, s2, t1, t2.
  rewrite (bind_returned _ _ _ _ _ E1), E2, Et2, Et1.
  repeat split; auto.
  - now rewrite app_assoc.
  - rewrite !downloads_app, (no_download_after _ Hp2). now rewrite app_nil_r.
Qed.

(** ** Bounds on the expiry *)

Lemma digits_value_nonneg (s : string) (v : Z) :
  JS.digits_value s = Some v -> 0 <= v.
Proof.
  unfold JS.digits_value. destruct (NilEmpty.uint_of_string s); [|discriminate].
  simpl. intro H. inversion H. unfold Z.of_uint. lia.
Qed.

Lemma maxAge_of_nonneg (cacheControl : option string) :
  0 <= maxAge_of cacheControl.
Proof.
  unfold maxAge_of. destruct cacheControl as [[|c r]|]; try lia.
  destruct (match_max_age (String c r)) as [d|]; [|lia].
  destruct (JS.digits_value d) as [v|] eqn:E; simpl; [|lia].
  now apply (digits_value_nonneg d).
Qed.

(** X14: the expiry written to the cache is never later than the fetch time
    plus max-age, max-age is never negative, and the expiry is never later
    than an Expires time that parses.  So a response with [max-age=0], or
    with an Expires time not after the fetch, gives a record that is
    never fresh at the fetch time or later: the next run fetches again. *)
Theorem expiry_bounds (getTime : string -> option Z) (now : Z)
    (cacheControl expires : option string) :
  0 <= maxAge_of cacheControl
  /\ expiryTime getTime now cacheControl expires
     <= now + maxAge_of cacheControl * 1000
  /\ (forall e t, expires = Some e -> e <> "" -> getTime e = Some t ->
        expiryTime getTime now cacheControl expires <= t)
  /\ (forall later,
        now <= later ->
        (maxAge_of cacheControl = 0
         \/ exists e t, expires = Some e /\ e <> "" /\ getTime e = Some t
                        /\ t <= now) ->
        cache_is_fresh
          (VNum (JS.Dec (expiryTime getTime now cacheControl expires) 0)) later
        = false).
Proof.
  pose proof (maxAge_of_nonneg cacheControl) as H0.
  assert (expiryTime getTime now cacheControl expires
          <= now + maxAge_of cacheControl * 1000) as H1.
  { unfold expiryTime. destruct expires as [[|c r]|]; try lia.
    destruct (getTime (String c r)); lia. }
  assert (forall e t, expires = Some e -> e <> "" -> getTime e = Some t ->
            expiryTime getTime now cacheControl expires <= t) as H2.
  { intros e t -> He Ht. unfold expiryTime. destruct e as [|c r]; [congruence|].
    rewrite Ht. lia. }
  repeat split; auto.
  intros later Hl Hstale. unfold cache_is_fresh. simpl.
  rewrite Z.mul_1_r. apply andb_false_iff. right. apply Z.ltb_ge.
  destruct Hstale as [Hz | (e & t & He & Hne & Ht & Hle)].
  - rewrite Hz in H1. lia.
  - specialize (H2 e t He Hne Ht). lia.
Qed.

Lemma expiry_bounds_witness :
  cache_is_fresh
    (VNum (JS.Dec (expiryTime (fun _ => Some 0) 1000000
                     (Some "max-age=7200") (Some "Thu, 01 Jan 1970 00:00:00 GMT"))
             0))
    1000001
  = false.
Proof.
  destruct (expiry_bounds (fun _ => Some 0) 1000000 (Some "max-age=7200")
              (Some "Thu, 01 Jan 1970 00:00:00 GMT")) as (_ & _ & _ & H).
  apply H; [lia|]. right.
  exists "Thu, 01 Jan 1970 00:00:00 GMT", 0.
  repeat split; [discriminate | lia].
Defined.

(** ** The cache test never aborts *)


(** ** The earlier script and the current one *)

Lemma list_one_resolve (nameFlag : bool) (ix : Index) (identifier : string) :
  V1.list_one nameFlag ix identifier
  = line_of (resolve nameFlag ix identifier).
Proof.
  unfold V1.list_one, resolve.
  destruct (negb (JS.isNaN (JS.Number identifier)) && negb nameFlag).
  - now destruct (get_by_number _ _) as [[z app]|].
  - destruct nameFlag; [|reflexivity].
    destruct (appNameMap ix !! JS.toLowerCase identifier) as [id|];
      [|reflexivity].
    destruct (id =? 0); [reflexivity|].
    now destruct (appArchiveMap ix !! id).
Qed.

(** X20: the earlier script lists, identifier by identifier, exactly what the
    current loop resolves or reports: an application listed there, with
    the id shown, is a target here, and the messages are the same.  And
    on a command line with a command and without [--parallel] the two
    scripts read the same name flag and the same identifiers. *)
Theorem earlier_script_agrees (byName : bool) (ix : Index)
    (ids args : list string) :
  V1.list_all byName ix ids
  = flat_map (fun identifier => line_of (resolve byName ix identifier)) ids
  /\ (truthy_string (hd_error args) = true ->
      indexOf "--parallel" args = None ->
      V1.nameFlag (V1.parse_args args) = nameFlag (parse_args args)
      /\ V1.appIdentifiers (V1.parse_args args)
         = appIdentifiers (parse_args args)).
Proof.
  split.
  - unfold V1.list_all. induction ids as [|i ids IH]; simpl; [reflexivity|].
    now rewrite list_one_resolve, IH.
  - intros Hc Hp. unfold V1.parse_args, parse_args. rewrite Hc.
    destruct (indexOf "--name" args) as [i|] eqn:En.
    + assert (indexOf "--parallel" (splice1 i args) = None) as ->.
      { pose proof (indexOf_remove_first "--name" args) as Hr.
        rewrite En in Hr. rewrite Hr.
        pose proof (indexOf_found "--parallel" args) as Hf. rewrite Hp in Hf.
        pose proof (indexOf_found "--parallel" (remove_first "--name" args))
          as Hf2.
        rewrite existsb_remove_other, Hf in Hf2 by discriminate.
        now destruct (indexOf "--parallel" (remove_first "--name" args)). }
      split; reflexivity.
    + rewrite Hp. split; reflexivity.
Qed.

Lemma earlier_script_agrees_witness :
  V1.appIdentifiers (V1.parse_args ["install"; "--name"; "Foo"]) = ["Foo"]
  /\ V1.list_all true (build_index sample_catalog) ["Foo"]
     = [V1.Listed "foo" 8 "http://x/b.zip"].
Proof.
  destruct (earlier_script_agrees true (build_index sample_catalog) ["Foo"]
              ["install"; "--name"; "Foo"]) as [Hl Hp].
  destruct (Hp eq_refl eq_refl) as [_ Hi].
  split; [rewrite Hi; reflexivity|].
  rewrite Hl. vm_compute. reflexivity.
Defined.

(** ** Temporary paths *)

Lemma string_of_Z_inj (a b : Z) : JS.string_of_Z a = JS.string_of_Z b -> a = b.
Proof.
  intro E. pose proof (Number_string_of_Z a) as Ha.
  rewrite E, Number_string_of_Z in Ha. now inversion Ha.
Qed.

Lemma append_length (a b : string) :
  String.length (a ++ b) = (String.length a + String.length b)%nat.
Proof.
  induction a as [|c a IH]; [reflexivity|].
  change (String c a ++ b)%string with (String c (a ++ b)%string).
  simpl. now rewrite IH.
Qed.

Lemma append_cancel_l (p a b : string) : (p ++ a = p ++ b)%string -> a = b.
Proof.
  induction p as [|c p IH]; [auto|].
  change (String c p ++ a)%string with (String c (p ++ a)%string).
  change (String c p ++ b)%string with (String c (p ++ b)%string).
  intro E. inversion E. auto.
Qed.

Lemma append_cancel_r (s a b : string) : (a ++ s = b ++ s)%string -> a = b.
Proof.
  revert b. induction a as [|c a IH]; intros [|d b] E.
  - reflexivity.
  - change (s = String d (b ++ s)%string) in E.
    apply (f_equal String.length) in E. cbn [String.length] in E.
    rewrite append_length in E. lia.
  - change (String c (a ++ s)%string = s) in E.
    apply (f_equal String.length) in E. cbn [String.length] in E.
    rewrite append_length in E. lia.
  - change (String c a ++ s)%string with (String c (a ++ s)%string) in E.
    change (String d b ++ s)%string with (String d (b ++ s)%string) in E.
    inversion E. f_equal. now apply IH.
Qed.

(** X19: the temporary directory and archive that [installApp] uses are
    those named after the random token and the target's id; for one and
    the same token two targets with different ids get different
    directories and different archives. *)
Theorem temp_paths_distinct {W} (sys : Sys W) (parallelFlag : bool)
    (randomId : string) (app other : Target) :
  (forall s st s1,
     installApp_start sys parallelFlag app s = (Ret st, s1) ->
     match st with
     | Finished _ => True
     | Awaiting tempDir tempFile _ =>
         exists token, tempDir = temp_dir token app
                       /\ tempFile = temp_file token app
     end)
  /\ (t_id app <> t_id other ->
      temp_dir randomId app <> temp_dir randomId other
      /\ temp_file randomId app <> temp_file randomId other).
Proof.
  split.
  - intros s st s1 E.
    assert (hoare any_event
              (returning (fun st =>
                 match st with
                 | Finished _ => True
                 | Awaiting tempDir tempFile _ =>
                     exists token, tempDir = temp_dir token app
                                   /\ tempFile = temp_file token app
                 end))
              (installApp_start sys parallelFlag app)) as H.
    { unfold installApp_start, check_and_download. apply returning_try_catch.
      - eapply no_exit_bind with (R1 := fun _ => True).
        { apply (exec_within sys any_event); exact I. }
        intros existingApps _. destruct (JS.trim existingApps).
        + eapply no_exit_bind with (R1 := fun _ => True).
          { apply hoare_ask. simpl. auto. }
          intros token _.
          eapply no_exit_bind with (R1 := fun _ => True).
          { apply returning_no_exit, (log_within any_event). intro; exact I. }
          intros _ _. apply returning_no_exit.
          eapply returning_bind with (R1 := fun _ => True).
          { unfold download_promise. apply returning_try_catch.
            - eapply no_exit_bind with (R1 := fun _ => True).
              { apply (exec_within sys any_event); exact I. }
              intros _ _. apply hoare_ret. exact I.
            - intro e. apply hoare_ret. exact I. }
          intros rejected _. apply hoare_ret. exists token. split; reflexivity.
        + eapply no_exit_bind with (R1 := fun _ => True).
          { apply returning_no_exit, (log_within any_event). intro; exact I. }
          intros _ _. apply hoare_ret. exact I.
      - intro e. eapply returning_bind with (R1 := fun _ => True).
        { eapply hoare_weaken;
            [apply (install_failed_within any_event (fun _ => I)) | auto |].
          intros [a|e'|c]; simpl; auto. }
        intros r _. apply hoare_ret. exact I. }
    destruct (H s) as (o & s' & _ & E' & _ & _ & Hq).
    rewrite E in E'. inversion E'; subst o s'. exact Hq.
  - intro Hid.
    assert (temp_dir randomId app <> temp_dir randomId other) as Hd.
    { unfold temp_dir. intro E. apply Hid, string_of_Z_inj.
      apply append_cancel_l in E. apply append_cancel_l in E.
      now apply append_cancel_l in E. }
    split; [exact Hd|]. unfold temp_file. intro E.
    now apply append_cancel_r in E.
Qed.

Lemma temp_paths_distinct_witness :
  temp_dir "00" {| t_url := "u"; t_name := "A"; t_id := 1 |}
  <> temp_dir "00" {| t_url := "u"; t_name := "A"; t_id := 2 |}.
Proof.
  destruct (temp_paths_distinct quiet false "00"
              {| t_url := "u"; t_name := "A"; t_id := 1 |}
              {| t_url := "u"; t_name := "A"; t_id := 2 |}) as [_ H].
  apply H. simpl. lia.
Defined.

(** ** The destination directory and the command *)

Section Destination.

Context {W : Type} (sys : Sys W).

Lemma getCatalog_no_command (s s1 : State W) (o : outcome Document) :
  getCatalog sys s = (o, s1) -> executed (trace s1) = executed (trace s).
Proof.
  unfold getCatalog, load_catalog. intro E.
  destruct (ensure_cache_dir_spec sys s) as (o1 & s2 & E1 & Ho1 & _ & Hx1).
  destruct Ho1 as [-> | [e ->]].
  2:{ rewrite (bind_thrown _ _ _ _ _ E1) in E. inversion E; subst. exact Hx1. }
  rewrite (bind_returned _ _ _ _ _ E1) in E.
  destruct (read_cache_spec sys s2) as (s3 & E2 & _ & Hx2).
  rewrite (bind_returned _ _ _ _ _ E2) in E.
  match type of E2 with
  | _ = (Ret ?r, _) => destruct r as [json|]
  end.
  - inversion E; subst. now rewrite Hx2.
  - destruct (fetch_catalog_once sys s3) as (o3 & s4 & E3 & _ & Hx3 & _).
    rewrite E3 in E. inversion E; subst. now rewrite Hx3, Hx2.
Qed.

Lemma ensure_setapp_dir_runs (s : State W) :
  exists o s1,
    ensure_setapp_dir sys s = (o, s1)
    /\ (o = Ret tt \/ o = Exit 1)
    /\ executed (trace s1)
       = (executed (trace s)
            ++ if existsSync sys setappDir (world s) then []
               else [sudo_mkdir_cmd])%list.
Proof.
  cbv [ensure_setapp_dir try_catch bind exists_ exec console_log emit call
       exit ret world trace].
  destruct (existsSync sys setappDir _).
  { eexists _, _. split; [reflexivity|]. split; [auto|]. now rewrite app_nil_r. }
  destruct (execSync sys sudo_mkdir_cmd _) as [[e|out] w1];
    eexists _, _; (split; [reflexivity|]); (split; [auto|]); cbn [trace];
    rewrite !executed_app, !executed_exec, !executed_log, ?app_nil_r;
    reflexivity.
Qed.

(** X18: once the catalog is there, the destination directory is seen to
    before the command is looked at: when it is missing, the first
    command the program runs is the privileged making of it, whatever the
    command; and a run that is not an install runs no other command. *)
Theorem destination_before_command (args : list string) (w : W)
    (doc : Catalog) (s1 : State W) :
  wants_usage (parse_args args) = false ->
  getCatalog sys (start_state w) = (Ret (Doc doc), s1) ->
  exists o s',
    run sys args w = (o, s')
    /\ (existsSync sys setappDir (world s1) = false ->
        exists rest, executed (trace s') = sudo_mkdir_cmd :: rest)
    /\ (is_command (parse_args args) "install" = false ->
        executed (trace s')
        = if existsSync sys setappDir (world s1) then [] else [sudo_mkdir_cmd]).
Proof.
  intros Hu Eg. pose proof (getCatalog_no_command _ _ _ Eg) as Hx0.
  simpl in Hx0. unfold run, main. cbv zeta. rewrite Hu.
  unfold start_state in Eg. rewrite (bind_returned _ _ _ _ _ Eg).
  unfold dispatch. change (bind (typed (Doc doc)) ?f s1) with (f doc s1).
  cbv beta zeta.
  destruct (ensure_setapp_dir_runs s1) as (o2 & s2 & E2 & Ho2 & Hx2).
  rewrite Hx0 in Hx2. simpl in Hx2. destruct Ho2 as [-> | ->].
  2:{ rewrite (bind_exited _ _ _ _ _ E2). exists (Exit 1), s2.
      split; [reflexivity|]. rewrite Hx2. split.
      - intros ->. eauto.
      - intros _. reflexivity. }
  rewrite (bind_returned _ _ _ _ _ E2).
  destruct (is_command (parse_args args) "install").
  - destruct (install_command_footprint sys (parse_args args)
                (build_index doc) s2) as (o3 & s3 & t3 & E3 & Et3 & _ & _).
    exists o3, s3. split; [exact E3|]. split; [|discriminate].
    intros Hex. rewrite Et3, executed_app, Hx2, Hex. simpl. eauto.
  - destruct (is_command (parse_args args) "list");
      (eexists _, _; split; [reflexivity|]); cbn [trace];
      rewrite executed_app, executed_log, app_nil_r, Hx2;
      (split; [intros ->; eauto | reflexivity]).
Qed.

End Destination.

Lemma destination_before_command_witness :
  exists o s',
    run_on (cached 2000000 [] []) ["frobnicate"] = (o, s')
    /\ executed (trace s') = [sudo_mkdir_cmd].
Proof.
  destruct (destination_before_command (scripted (cached 2000000 [] []))
              ["frobnicate"] (cached 2000000 [] []) sample_catalog
              (snd (getCatalog (scripted (cached 2000000 [] []))
                      (start_state (cached 2000000 [] []))))
              eq_refl eq_refl) as (o & s' & E & _ & H).
  exists o, s'. split; [exact E|]. apply (H eq_refl).
Defined.

(** ** What reaches the cache file *)

Lemma writes_app (t u : list Event) :
  writes (t ++ u) = (writes t ++ writes u)%list.
Proof. unfold writes. apply omap_app. Qed.

(** X16: a fetch that fails, or whose body is not JSON, throws before the
    cache file is written: the file of an earlier run is left as it
    was. *)
Theorem failed_fetch_keeps_cache {W} (sys : Sys W) (s : State W)
    (e : Error) (w1 : W) :
  (fetch sys api_url (world s) = (inl e, w1)
   \/ exists response,
        fetch sys api_url (world s) = (inr response, w1)
        /\ json response = inl e) ->
  exists s',
    fetch_catalog sys s = (Throw e, s')
    /\ writes (trace s') = writes (trace s).
Proof.
  unfold fetch_catalog, bind, console_log, emit, call, ask, of_result, ret,
    throw. cbn [world trace].
  intros [Hf | (response & Hf & Hj)]; rewrite Hf; cbn [world trace].
  - eexists. split; [reflexivity|]. cbn [trace].
    rewrite !writes_app. simpl. now rewrite !app_nil_r.
  - rewrite Hj. eexists. split; [reflexivity|]. cbn [trace].
    rewrite !writes_app. simpl. now rewrite !app_nil_r.
Qed.

Lemma failed_fetch_keeps_cache_witness :
  exists s',
    fetch_catalog (scripted (machine_with [])) (start_state (machine_with []))
    = (Throw (mkError "offline"), s')
    /\ writes (trace s') = [].
Proof.
  apply (failed_fetch_keeps_cache (scripted (machine_with []))
           (start_state (machine_with [])) (mkError "offline") (machine_with [])).
  left. reflexivity.
Defined.

(** X17: a body that is JSON but not a catalog is written to the cache like
    any other, before the program walks it; and a run that finds such a
    record fresh in the cache takes it, fetches nothing, and ends with
    the error of the walk, before any command is run. *)
Theorem ill_shaped_catalog_is_cached {W} (sys : Sys W) (args : list string)
    (w : W) :
  (forall response w1 now w2,
     fetch sys api_url w = (inr response, w1) ->
     json response = inr IllShaped ->
     Date_now sys w1 = (now, w2) ->
     exists o s',
       fetch_catalog sys (start_state w) = (o, s')
       /\ map cd_data (writes (trace s')) = [IllShaped])
  /\ (forall expiry now w1,
        wants_usage (parse_args args) = false ->
        existsSync sys (cacheDir sys) w = true ->
        cache_record_at sys w
          = Some (inr (ParsedObject (VNum (JS.Dec expiry 0)) IllShaped)) ->
        Date_now sys w = (now, w1) ->
        0 <= now -> now < expiry ->
        exists err s',
          run sys args w = (Throw err, s')
          /\ fetches (trace s') = []
          /\ executed (trace s') = []).
Proof.
  split.
  - intros response w1 now w2 Hf Hj Hn.
    destruct (fetch_catalog_writes sys (start_state w) response IllShaped
                w1 w2 now Hf Hj Hn) as (o & s' & E & Et).
    exists o, s'. split; [exact E|]. rewrite Et. reflexivity.
  - intros expiry now w1 Hu Hd Hc Hn H0 Hlt.
    unfold run, main. cbv zeta. rewrite Hu.
    destruct (read_cache_spec sys {| world := w; trace := [] |})
      as (s1 & E & Hf & Hx).
    cbn [world] in E. rewrite Hc, Hn, fresh_number in E. cbn [fst] in E.
    replace (expiry =? 0) with false in E
      by (symmetry; apply Z.eqb_neq; lia).
    replace (now <? expiry) with true in E by (symmetry; apply Z.ltb_lt; lia).
    cbn [negb andb] in E.
    assert (getCatalog sys {| world := w; trace := [] |} = (Ret IllShaped, s1))
      as Eg.
    { unfold getCatalog, ensure_cache_dir, load_catalog.
      rewrite (bind_returned (bind (exists_ sys (cacheDir sys)) _) _
                 {| world := w; trace := [] |} {| world := w; trace := [] |} tt).
      - now rewrite (bind_returned _ _ _ _ _ E).
      - unfold bind, exists_. cbn [world]. now rewrite Hd. }
    rewrite (bind_returned _ _ _ _ _ Eg). unfold dispatch.
    eexists _, s1. split; [reflexivity|]. split; [exact Hf | exact Hx].
Qed.

Lemma ill_shaped_catalog_is_cached_witness :
  exists err s',
    run_on {| files := ["/Applications/Setapp"; "/Users/me/.cache/setapp-cli";
                        "/Users/me/.cache/setapp-cli/store-api-cache.json"];
              cache_text := inr "cache";
              parses := [("cache", ParsedObject (VNum (JS.Dec 2000000 0))
                                     IllShaped)];
              clock := 1000000;
              dates := [];
              network := inr sample_response;
              disk_writable := true;
              commands := [];
              random_hex := "00" |} ["list"]
    = (Throw err, s')
    /\ fetches (trace s') = [].
Proof.
  destruct (ill_shaped_catalog_is_cached
              (scripted
                 {| files := ["/Applications/Setapp"; "/Users/me/.cache/setapp-cli";
                              "/Users/me/.cache/setapp-cli/store-api-cache.json"];
                    cache_text := inr "cache";
                    parses := [("cache", ParsedObject (VNum (JS.Dec 2000000 0))
                                           IllShaped)];
                    clock := 1000000;
                    dates := [];
                    network := inr sample_response;
                    disk_writable := true;
                    commands := [];
                    random_hex := "00" |})
              ["list"]
              {| files := ["/Applications/Setapp"; "/Users/me/.cache/setapp-cli";
                           "/Users/me/.cache/setapp-cli/store-api-cache.json"];
                 cache_text := inr "cache";
                 parses := [("cache", ParsedObject (VNum (JS.Dec 2000000 0))
                                        IllShaped)];
                 clock := 1000000;
                 dates := [];
                 network := inr sample_response;
                 disk_writable := true;
                 commands := [];
                 random_hex := "00" |}) as [_ H].
  destruct (H 2000000 1000000 _ eq_refl eq_refl eq_refl eq_refl)
    as (err & s' & E & Hf & _); [lia | lia |].
  exists err, s'. split; [exact E | exact Hf].
Defined.

(** * The cache and the pipelines *)

(** ** The catalog: a fresh record or one fetch *)

Lemma fresh_numeric_string (e now : Z) :
  0 <= now -> cache_is_fresh (VStr (JS.string_of_Z e)) now = (now <? e).
Proof.
  intro H0. unfold cache_is_fresh, ToNumber, joined_number.
  rewrite Number_string_of_Z. cbn [JS.gt_int]. 
  replace (0 <=? 0) with true by reflexivity. rewrite Z.mul_1_r.
  destruct (truthy (VStr (JS.string_of_Z e))) eqn:Et; [reflexivity|].
  cbn [truthy] in Et. apply negb_false_iff, String.eqb_eq in Et.
  assert (JS.Number (JS.string_of_Z e) = JS.Number "") as E by now rewrite Et.
  rewrite Number_string_of_Z in E. vm_compute in E. inversion E; subst.
  symmetry. apply Z.ltb_ge. lia.
Qed.

Lemma getCatalog_from {W} (sys : Sys W) (s s0 : State W) :
  ensure_cache_dir sys s = (Ret tt, s0) ->
  fetches (trace s0) = fetches (trace s)
  /\ exists s1,
       read_cache sys s0
       = (Ret match cache_record_at sys (world s0) with
              | Some (inr (ParsedObject expiry data)) =>
                  if cache_is_fresh expiry (fst (Date_now sys (world s0)))
                  then Some data else None
              | _ => None
              end, s1)
       /\ fetches (trace s1) = fetches (trace s)
       /\ forall cached,
            read_cache sys s0 = (Ret cached, s1) ->
            getCatalog sys s
            = match cached with
              | Some json => (Ret json, s1)
              | None => fetch_catalog sys s1
              end.
Proof.
  intro Ed. destruct (ensure_cache_dir_spec sys s) as (o & s0' & E & _ & Hf & _).
  rewrite Ed in E. inversion E; subst o s0'. clear E. split; [exact Hf|].
  destruct (read_cache_spec sys s0) as (s1 & E1 & Hf1 & _).
  exists s1. split; [exact E1|]. split; [congruence|].
  intros cached Ec. unfold getCatalog, load_catalog.
  rewrite (bind_returned _ _ _ _ _ Ed), (bind_returned _ _ _ _ _ Ec).
  now destruct cached.
Qed.

(** C6: [getCatalog] first sees to the cache directory.  When the directory
    is there or is made: a record whose expiry is truthy and, as a number,
    greater than the time read is used, whatever its expiry and its data
    are, and no fetch is made; in every other case (no file, a file that
    cannot be read or parsed, [null], something that is not an object, an
    expiry that is falsy or not greater than the time read) the remote
    end is fetched exactly once.  When the directory cannot be made the
    error is thrown on and no fetch is made.  For a number [e] as expiry
    and a time read at or after the epoch the test is [now < e], and so it
    is for the string that spells [e] and for the array that holds [e]. *)
Theorem C6_fresh_record_or_one_fetch {W} (sys : Sys W) (s : State W) :
  (forall s0 expiry data now w1,
     ensure_cache_dir sys s = (Ret tt, s0) ->
     cache_record_at sys (world s0) = Some (inr (ParsedObject expiry data)) ->
     Date_now sys (world s0) = (now, w1) ->
     truthy expiry = true ->
     JS.gt_int (ToNumber expiry) now = true ->
     exists s',
       getCatalog sys s = (Ret data, s')
       /\ fetches (trace s') = fetches (trace s))
  /\ (forall s0,
        ensure_cache_dir sys s = (Ret tt, s0) ->
        (cache_record_at sys (world s0) = None
         \/ (exists err, cache_record_at sys (world s0) = Some (inl err))
         \/ cache_record_at sys (world s0) = Some (inr ParsedNull)
         \/ cache_record_at sys (world s0) = Some (inr ParsedOther)
         \/ (exists expiry data,
               cache_record_at sys (world s0)
                 = Some (inr (ParsedObject expiry data))
               /\ (truthy expiry = false
                   \/ JS.gt_int (ToNumber expiry)
                        (fst (Date_now sys (world s0))) = false))) ->
        exists o s',
          getCatalog sys s = (o, s')
          /\ fetches (trace s') = (fetches (trace s) ++ [api_url])%list)
  /\ (forall e s0,
        ensure_cache_dir sys s = (Throw e, s0) ->
        getCatalog sys s = (Throw e, s0)
        /\ fetches (trace s0) = fetches (trace s))
  /\ (existsSync sys (cacheDir sys) (world s) = true ->
      ensure_cache_dir sys s = (Ret tt, s))
  /\ (existsSync sys (cacheDir sys) (world s) = false ->
      forall r w1,
        mkdirSync sys (cacheDir sys) (world s) = (r, w1) ->
        ensure_cache_dir sys s
        = (match r with inl e => Throw e | inr _ => Ret tt end,
           {| world := w1; trace := trace s ++ [EvMkdir (cacheDir sys)] |}))
  /\ (forall e now,
        0 <= now ->
        cache_is_fresh (VNum (JS.Dec e 0)) now = (now <? e)
        /\ cache_is_fresh (VStr (JS.string_of_Z e)) now = (now <? e)
        /\ cache_is_fresh (VArr [VNum (JS.Dec e 0)]) now = (now <? e)
        /\ cache_is_fresh VUndefined now = false).
Proof.
  split; [|split; [|split; [|split; [|split]]]].
  - intros s0 expiry data now w1 Ed Hc Hn Ht Hg.
    destruct (getCatalog_from sys s s0 Ed) as (_ & s1 & E1 & Hf1 & Hg1).
    rewrite Hc, Hn in E1. unfold cache_is_fresh in E1. cbn [fst] in E1.
    rewrite Ht, Hg in E1. cbn [andb] in E1.
    exists s1. split; [exact (Hg1 _ E1) | exact Hf1].
  - intros s0 Ed Hmiss.
    destruct (getCatalog_from sys s s0 Ed) as (_ & s1 & E1 & Hf1 & Hg1).
    assert (read_cache sys s0 = (Ret None, s1)) as E'.
    { destruct Hmiss
        as [Hc|[(err & Hc)|[Hc|[Hc|(expiry & data & Hc & Hno)]]]];
        rewrite Hc in E1; try exact E1.
      unfold cache_is_fresh in E1.
      destruct Hno as [Hno|Hno]; rewrite Hno in E1;
        [exact E1 | now rewrite andb_false_r in E1]. }
    destruct (fetch_catalog_once sys s1) as (o & s2 & E2 & Hf2 & _ & _).
    exists o, s2. split; [|now rewrite Hf2, Hf1].
    now rewrite (Hg1 _ E').
  - intros e s0 Ed. split.
    + unfold getCatalog. now apply bind_thrown.
    + destruct (ensure_cache_dir_spec sys s) as (o & s0' & E & _ & Hf & _).
      rewrite Ed in E. now inversion E; subst.
  - intro Hex. unfold ensure_cache_dir, bind, exists_. now rewrite Hex.
  - intros Hex r w1 Hm. unfold ensure_cache_dir, bind, exists_, emit, call.
    rewrite Hex. cbn [world trace]. rewrite Hm. now destruct r as [e|[]].
  - intros e now H0. split; [|split; [|split]].
    + rewrite fresh_number. destruct (Z.eqb_spec e 0) as [->|_]; [|reflexivity].
      symmetry. apply Z.ltb_ge. lia.
    + now apply fresh_numeric_string.
    + unfold cache_is_fresh. cbn. rewrite Z.mul_1_r. reflexivity.
    + reflexivity.
Qed.

Lemma C6_fresh_record_or_one_fetch_witness :
  (exists s',
     getCatalog (scripted (cached 2000000 [] []))
       (start_state (cached 2000000 [] []))
     = (Ret (Doc sample_catalog), s')
     /\ fetches (trace s') = [])
  /\ (exists o s',
        getCatalog (scripted (cached 500000 [] []))
          (start_state (cached 500000 [] []))
        = (o, s')
        /\ fetches (trace s') = [api_url])
  /\ (exists o s',
        getCatalog (scripted (cache_holding VUndefined (Doc sample_catalog)))
          (start_state (cache_holding VUndefined (Doc sample_catalog)))
        = (o, s')
        /\ fetches (trace s') = [api_url])
  /\ getCatalog (scripted no_cache_dir) (start_state no_cache_dir)
     = (Throw (mkError "EACCES"),
        {| world := no_cache_dir;
           trace := [EvMkdir "/Users/me/.cache/setapp-cli"] |}).
Proof.
  split; [|split; [|split]].
  - destruct (C6_fresh_record_or_one_fetch (scripted (cached 2000000 [] []))
                (start_state (cached 2000000 [] []))) as (H & _).
    apply (H (start_state (cached 2000000 [] []))
             (VNum (JS.Dec 2000000 0)) (Doc sample_catalog) 1000000
             (cached 2000000 [] [])); reflexivity.
  - destruct (C6_fresh_record_or_one_fetch (scripted (cached 500000 [] []))
                (start_state (cached 500000 [] []))) as (_ & H & _).
    apply (H (start_state (cached 500000 [] []))); [reflexivity|].
    do 4 right. exists (VNum (JS.Dec 500000 0)), (Doc sample_catalog).
    split; [reflexivity | right; reflexivity].
  - destruct (C6_fresh_record_or_one_fetch
                (scripted (cache_holding VUndefined (Doc sample_catalog)))
                (start_state (cache_holding VUndefined (Doc sample_catalog))))
      as (_ & H & _).
    apply (H (start_state (cache_holding VUndefined (Doc sample_catalog))));
      [reflexivity|].
    do 4 right. exists VUndefined, (Doc sample_catalog).
    split; [reflexivity | left; reflexivity].
  - destruct (C6_fresh_record_or_one_fetch (scripted no_cache_dir)
                (start_state no_cache_dir)) as (_ & _ & H & _).
    apply (H (mkError "EACCES")
             {| world := no_cache_dir;
                trace := [EvMkdir "/Users/me/.cache/setapp-cli"] |}).
    reflexivity.
Defined.

(** C6 as the spec words it fails, both ways.  A record that is not well
    formed is used and no fetch is made: one whose expiry is a string and
    whose data is missing, and one whose expiry is an array.  And with no
    cache file at all no fetch is made when the cache directory is missing
    and cannot be made: the run ends with the error of [fs.mkdirSync]. *)
Lemma C6_malformed_or_absent_not_fetched :
  (exists s',
     getCatalog (scripted (cache_holding (VStr "2000000") IllShaped))
       (start_state (cache_holding (VStr "2000000") IllShaped))
     = (Ret IllShaped, s')
     /\ fetches (trace s') = [])
  /\ (exists s',
        getCatalog
          (scripted (cache_holding (VArr [VNum (JS.Dec 2000000 0)])
                       (Doc sample_catalog)))
          (start_state (cache_holding (VArr [VNum (JS.Dec 2000000 0)])
                          (Doc sample_catalog)))
        = (Ret (Doc sample_catalog), s')
        /\ fetches (trace s') = [])
  /\ (cache_record_at (scripted no_cache_dir) no_cache_dir = None
      /\ exists e s',
           getCatalog (scripted no_cache_dir) (start_state no_cache_dir)
           = (Throw e, s')
           /\ fetches (trace s') = []).
Proof.
  split; [|split].
  - eexists. split; vm_compute; reflexivity.
  - eexists. split; vm_compute; reflexivity.
  - split; [reflexivity|]. eexists _, _. split; vm_compute; reflexivity.
Qed.

(** ** The record of the answers *)

Lemma first_error_app (l k : list (Error + string)) :
  first_error (l ++ k)
  = match first_error l with Some e => Some e | None => first_error k end.
Proof.
  induction l as [|[e|out] l IH]; simpl; auto.
Qed.

Lemma first_error_in (l : list (Error + string)) :
  first_error l <> None <-> exists e, In (inl e) l.
Proof.
  induction l as [|[e|out] l IH]; simpl.
  - split; [congruence | intros (e & [])].
  - split; [eauto | discriminate].
  - rewrite IH. split; intros (e & H); exists e; auto.
    destruct H as [H|H]; [discriminate | exact H].
Qed.

Lemma verdict_fails (app : Target) (l : list (Error + string)) :
  success (verdict app l) = false <-> exists e, In (inl e) l.
Proof.
  rewrite <- first_error_in. unfold verdict.
  destruct (first_error l) as [e|]; simpl.
  - split; [discriminate | reflexivity].
  - split; [|congruence]. destruct l as [|[e|out] l]; simpl; try discriminate.
    destruct (JS.trim out); discriminate.
Qed.

Section Logs.

Context {W : Type} (sys : Sys W).

Lemma logs_weaken {A} (m : M (Observed W) A)
    (Q Q' : outcome A -> list Answer -> Prop) :
  logs m Q -> (forall o new, Q o new -> Q' o new) -> logs m Q'.
Proof.
  intros H HQ s. destruct (H s) as (o & s' & new & E & Ea & Et & Hq).
  exists o, s', new. auto.
Qed.

Lemma logs_ret {A} (a : A) (Q : outcome A -> list Answer -> Prop) :
  Q (Ret a) [] -> logs (W:=W) (ret a) Q.
Proof. intros H s. exists (Ret a), s, []. now rewrite !app_nil_r. Qed.

Lemma logs_throw {A} (e : Error) (Q : outcome A -> list Answer -> Prop) :
  Q (Throw e) [] -> logs (W:=W) (throw e) Q.
Proof. intros H s. exists (Throw e), s, []. now rewrite !app_nil_r. Qed.

Lemma logs_log (m : Message) (Q : outcome unit -> list Answer -> Prop) :
  Q (Ret tt) [] -> logs (W:=W) (console_log m) Q.
Proof.
  intros H s. eexists (Ret tt), _, []. split; [reflexivity|].
  unfold answers. cbn [world trace]. rewrite executed_app, executed_log.
  now rewrite !app_nil_r.
Qed.

Lemma logs_exists (path : string) (Q : outcome bool -> list Answer -> Prop) :
  (forall b, Q (Ret b) []) -> logs (exists_ (observed sys) path) Q.
Proof.
  intros H s. eexists (Ret _), s, []. split; [reflexivity|].
  now rewrite !app_nil_r.
Qed.

Lemma logs_random (Q : outcome string -> list Answer -> Prop) :
  (forall h, Q (Ret h) []) -> logs (ask (randomBytes_hex (observed sys))) Q.
Proof.
  intros H s. unfold ask. simpl.
  destruct (randomBytes_hex sys (fst (world s))) as [h w].
  eexists (Ret h), _, []. split; [reflexivity|].
  unfold answers. simpl. now rewrite !app_nil_r.
Qed.

Lemma logs_exec (cmd : string) (Q : outcome string -> list Answer -> Prop) :
  (forall out, Q (Ret out) [(cmd, inr out)]) ->
  (forall e, Q (Throw e) [(cmd, inl e)]) ->
  logs (exec (observed sys) cmd) Q.
Proof.
  intros Hr Ht s. unfold exec, bind, emit, call. simpl.
  destruct (execSync sys cmd (fst (world s))) as [[e|out] w].
  - eexists (Throw e), _, _. split; [reflexivity|]. split; [reflexivity|].
    cbn [trace]. rewrite executed_app, executed_exec. auto.
  - eexists (Ret out), _, _. split; [reflexivity|]. split; [reflexivity|].
    cbn [trace]. rewrite executed_app, executed_exec. auto.
Qed.

Lemma logs_bind {A B} (m : M (Observed W) A) (f : A -> M (Observed W) B)
    (Q1 : outcome A -> list Answer -> Prop)
    (Q : outcome B -> list Answer -> Prop) :
  logs m Q1 ->
  (forall a new1, Q1 (Ret a) new1 ->
     logs (f a) (fun o new2 => Q o (new1 ++ new2)%list)) ->
  (forall e new1, Q1 (Throw e) new1 -> Q (Throw e) new1) ->
  (forall c new1, Q1 (Exit c) new1 -> Q (Exit c) new1) ->
  logs (bind m f) Q.
Proof.
  intros Hm Hf Ht Hx s. destruct (Hm s) as (o & s1 & new1 & E & Ea & Et & Hq).
  unfold bind. rewrite E. destruct o as [a|e|c].
  - destruct (Hf a new1 Hq s1) as (o2 & s2 & new2 & E2 & Ea2 & Et2 & Hq2).
    exists o2, s2, (new1 ++ new2)%list. split; [exact E2|].
    split; [now rewrite Ea2, Ea, app_assoc|].
    split; [now rewrite Et2, Et, map_app, app_assoc | exact Hq2].
  - exists (Throw e), s1, new1. auto.
  - exists (Exit c), s1, new1. auto.
Qed.

Lemma logs_try_catch {A} (m : M (Observed W) A) (h : Error -> M (Observed W) A)
    (Q1 Q : outcome A -> list Answer -> Prop) :
  logs m Q1 ->
  (forall a new1, Q1 (Ret a) new1 -> Q (Ret a) new1) ->
  (forall e new1, Q1 (Throw e) new1 ->
     logs (h e) (fun o new2 => Q o (new1 ++ new2)%list)) ->
  (forall c new1, Q1 (Exit c) new1 -> Q (Exit c) new1) ->
  logs (try_catch m h) Q.
Proof.
  intros Hm Hr Hh Hx s. destruct (Hm s) as (o & s1 & new1 & E & Ea & Et & Hq).
  unfold try_catch. rewrite E. destruct o as [a|e|c].
  - exists (Ret a), s1, new1. auto.
  - destruct (Hh e new1 Hq s1) as (o2 & s2 & new2 & E2 & Ea2 & Et2 & Hq2).
    exists o2, s2, (new1 ++ new2)%list. split; [exact E2|].
    split; [now rewrite Ea2, Ea, app_assoc|].
    split; [now rewrite Et2, Et, map_app, app_assoc | exact Hq2].
  - exists (Exit c), s1, new1. auto.
Qed.

Lemma stage_bind {A B} (m : M (Observed W) A) (f : A -> M (Observed W) B)
    (R1 : A -> Prop) (R : B -> Prop) :
  logs m (stage R1) ->
  (forall a, R1 a -> logs (f a) (stage R)) ->
  logs (bind m f) (stage R).
Proof.
  intros Hm Hf. eapply logs_bind; [exact Hm| | |].
  - intros a new1 [Ha H1]. eapply logs_weaken; [apply Hf, Ha|].
    intros o new2 H2. unfold stage in H2 |- *.
    destruct o; rewrite ?map_app, ?first_error_app, ?H1; auto.
  - intros e new1 H. exact H.
  - intros c new1 [].
Qed.

Local Abbreviation yes := (fun _ => True).

Lemma stage_ret {A} (a : A) (R : A -> Prop) :
  R a -> logs (W:=W) (ret a) (stage R).
Proof. intro H. apply logs_ret. now split. Qed.

Lemma stage_log (m : Message) : logs (W:=W) (console_log m) (stage yes).
Proof. apply logs_log. now split. Qed.

Lemma stage_exec (cmd : string) : logs (exec (observed sys) cmd) (stage yes).
Proof. apply logs_exec; [intro out; now split | reflexivity]. Qed.

Lemma stage_place (appFile : string) :
  logs (place (observed sys) appFile) (stage yes).
Proof.
  unfold place. destruct appFile as [|c r]; [now apply stage_ret|].
  eapply stage_bind with (R1 := yes); [apply logs_exists; now split|].
  intros [] _; [apply stage_log|].
  eapply stage_bind; [apply stage_exec|]. intros _ _. apply stage_log.
Qed.

Lemma stage_place_all (appFiles : list string) :
  logs (place_all (observed sys) appFiles) (stage yes).
Proof.
  induction appFiles as [|f l IH]; simpl; [now apply stage_ret|].
  eapply stage_bind; [apply stage_place | intros _ _; exact IH].
Qed.

Lemma stage_extract (app : Target) (tempDir tempFile : string) :
  logs (extract_and_place (observed sys) app tempDir tempFile None)
    (stage (fun r => r = installed_result app)).
Proof.
  unfold extract_and_place.
  eapply stage_bind with (R1 := yes); [now apply stage_ret|]. intros _ _.
  eapply stage_bind; [apply stage_exec|]. intros _ _.
  eapply stage_bind; [apply stage_exec|]. intros _ _.
  eapply stage_bind; [apply stage_exec|]. intros found _. cbv zeta.
  destruct (length (JS.split "010" (JS.trim found)) =? 0)%nat eqn:El.
  { apply Nat.eqb_eq in El.
    pose proof (split_never_empty "010" (JS.trim found)) as Hne.
    destruct (JS.split "010" (JS.trim found)); [congruence | discriminate]. }
  eapply stage_bind; [apply stage_place_all|]. intros _ _.
  eapply stage_bind; [apply stage_exec|]. intros _ _. now apply stage_ret.
Qed.

End Logs.

Section Reports.

Context {W : Type} (sys : Sys W).

Lemma verdict_failed (app : Target) (l : list (Error + string)) (e : Error) :
  first_error l = Some e -> verdict app l = failed_result app e.
Proof. intro H. unfold verdict. now rewrite H. Qed.

(** [installApp] up to its [await]: it returns, and where it stands agrees
    with the answers given to the search of the destination and to the
    download. *)
Lemma installApp_start_report (parallelFlag : bool) (app : Target) :
  logs (installApp_start (observed sys) parallelFlag app)
    (fun o new => exists st, o = Ret st /\ start_report app st new).
Proof.
  unfold installApp_start, check_and_download.
  eapply logs_try_catch
    with (Q1 := fun o new =>
                  match o with
                  | Ret st => start_report app st new
                  | Throw e =>
                      begins_with_search app new
                      /\ first_error (map snd new) = Some e
                  | Exit _ => False
                  end).
  - eapply logs_bind
      with (Q1 := fun o new =>
                    match o with
                    | Ret out => new = [(find_existing_cmd app, inr out)]
                    | Throw e => new = [(find_existing_cmd app, inl e)]
                    | Exit _ => False
                    end).
    + apply logs_exec; reflexivity.
    + intros out new1 ->. destruct (JS.trim out) as [|c r] eqn:Et.
      * eapply logs_bind with (Q1 := fun o new => exists h, o = Ret h /\ new = []).
        { apply logs_random. eauto. }
        2:{ intros e new1 (h & H & _). discriminate. }
        2:{ intros c new1 (h & H & _). discriminate. }
        intros randomId new1 (_ & _ & ->).
        eapply logs_bind with (Q1 := fun o new => o = Ret tt /\ new = []).
        { now apply logs_log. }
        2:{ intros e new1 [H _]. discriminate. }
        2:{ intros c new1 [H _]. discriminate. }
        intros _ new1 [_ ->].
        eapply logs_bind
          with (Q1 := fun o new =>
                        exists rejected,
                          o = Ret rejected
                          /\ first_error (map snd new) = rejected).
        { unfold download_promise.
          eapply logs_try_catch with (Q1 := stage (fun r => r = None)).
          - eapply stage_bind; [apply stage_exec|]. intros _ _.
            now apply stage_ret.
          - intros r new1 [-> H]. exists None. auto.
          - intros e new1 H. apply logs_ret. exists (Some e).
            rewrite app_nil_r. auto.
          - intros c new1 []. }
        2:{ intros e new1 (h & H & _). discriminate. }
        2:{ intros c new1 (h & H & _). discriminate. }
        intros rejected new1 (rej & Er & Hrej). inversion Er; subst rej.
        apply logs_ret. simpl. rewrite app_nil_r.
        split; [eexists _, _; reflexivity|].
        exists (find_existing_cmd app), out, new1. auto.
      * eapply logs_bind with (Q1 := fun o new => o = Ret tt /\ new = []).
        { now apply logs_log. }
        2:{ intros e new1 [H _]. discriminate. }
        2:{ intros c' new1 [H _]. discriminate. }
        intros _ new1 [_ ->]. apply logs_ret. simpl.
        split; [eexists _, _; reflexivity|].
        unfold verdict. simpl. now rewrite Et.
    + intros e new1 ->. split; [eexists _, _; reflexivity | reflexivity].
    + intros c new1 [].
  - intros st new1 H. eauto.
  - intros e new1 [Hb He]. unfold install_failed.
    eapply logs_bind with (Q1 := fun o new => exists r, o = Ret r /\ r = failed_result app e /\ new = []).
    + eapply logs_bind with (Q1 := fun o new => o = Ret tt /\ new = []).
      * now apply logs_log.
      * intros _ new2 [_ ->]. apply logs_ret. eauto.
      * intros e' new2 [H _]. discriminate.
      * intros c new2 [H _]. discriminate.
    + intros r new2 (r' & Er & -> & ->). inversion Er; subst r.
      apply logs_ret. exists (Finished (failed_result app e)).
      split; [reflexivity|]. rewrite !app_nil_r.
      split; [exact Hb|]. symmetry. now apply verdict_failed.
    + intros e' new2 (r & H & _). discriminate.
    + intros c new2 (r & H & _). discriminate.
  - intros c new1 [].
Qed.

(** [installApp] after its [await]: with the answers given before, its
    result is the verdict of all the answers given to the target's
    commands. *)
Lemma finish_report (app : Target) (st : Started) (before : list Answer) :
  start_report app st before ->
  logs (finish (observed sys) app st)
    (fun o new =>
       o = Ret (verdict app (map snd (before ++ new)%list))).
Proof.
  intros [_ Hst]. destruct st as [r|tempDir tempFile rejected]; simpl.
  - subst r. apply logs_ret. now rewrite app_nil_r.
  - destruct Hst as (cmd & out & rest & -> & Ht & Hrej).
    unfold installApp_resume.
    assert (forall e new,
              first_error (map snd (((cmd, inr out) :: rest) ++ new)) = Some e ->
              logs (W:=W) (install_failed app e)
                (fun o new2 =>
                   o = Ret (verdict app
                              (map snd (((cmd, inr out) :: rest)
                                          ++ (new ++ new2)))%list))) as Hfail.
    { intros e new He. unfold install_failed.
      eapply logs_bind with (Q1 := fun o new => o = Ret tt /\ new = []).
      - now apply logs_log.
      - intros _ new2 [_ ->]. apply logs_ret. rewrite !app_nil_r.
        symmetry. f_equal. now apply verdict_failed.
      - intros e' new2 [H _]. discriminate.
      - intros c new2 [H _]. discriminate. }
    destruct rejected as [e|].
    + eapply logs_try_catch
        with (Q1 := fun o new => o = Throw e /\ new = []).
      * unfold extract_and_place.
        eapply logs_bind with (Q1 := fun o new => o = Throw e /\ new = []).
        { now apply logs_throw. }
        { intros a new1 [H _]. discriminate. }
        { intros e' new1 [H ->]. inversion H. auto. }
        { intros c new1 [H _]. discriminate. }
      * intros a new1 [H _]. discriminate.
      * intros e' new1 [He ->]. inversion He; subst e'.
        apply Hfail. rewrite app_nil_r. exact Hrej.
      * intros c new1 [H _]. discriminate.
    + eapply logs_try_catch; [apply stage_extract| | |].
      * intros r new1 [-> Hs]. f_equal. unfold verdict.
        rewrite map_app, first_error_app. simpl. rewrite Hrej, Hs.
        now rewrite Ht.
      * intros e new1 Hs. simpl in Hs. apply Hfail.
        rewrite map_app, first_error_app. simpl. now rewrite Hrej.
      * intros c new1 [].
Qed.

End Reports.

(** ** The observed run is the run *)

Section SameRun.

Context {W : Type} (sys : Sys W).

Lemma same_ret {A} (a : A) : same_run (W:=W) (ret a) (ret a).
Proof. intros s1 s2 Hw Ht. simpl. auto. Qed.

Lemma same_throw {A} (e : Error) : same_run (W:=W) (A:=A) (throw e) (throw e).
Proof. intros s1 s2 Hw Ht. simpl. auto. Qed.

Lemma same_log (m : Message) : same_run (W:=W) (console_log m) (console_log m).
Proof. intros s1 s2 Hw Ht. simpl. rewrite Ht. auto. Qed.

Lemma same_bind {A B} (m1 : M W A) (m2 : M (Observed W) A)
    (f1 : A -> M W B) (f2 : A -> M (Observed W) B) :
  same_run m1 m2 -> (forall a, same_run (f1 a) (f2 a)) ->
  same_run (bind m1 f1) (bind m2 f2).
Proof.
  intros Hm Hf s1 s2 Hw Ht. destruct (Hm s1 s2 Hw Ht) as (Eo & Ew & Etr).
  unfold bind. destruct (m1 s1) as [o1 s1'], (m2 s2) as [o2 s2'].
  simpl in Eo, Ew, Etr. subst o2. destruct o1 as [a|e|c]; simpl; auto.
  now apply Hf.
Qed.

Lemma same_try_catch {A} (m1 : M W A) (m2 : M (Observed W) A)
    (h1 : Error -> M W A) (h2 : Error -> M (Observed W) A) :
  same_run m1 m2 -> (forall e, same_run (h1 e) (h2 e)) ->
  same_run (try_catch m1 h1) (try_catch m2 h2).
Proof.
  intros Hm Hh s1 s2 Hw Ht. destruct (Hm s1 s2 Hw Ht) as (Eo & Ew & Etr).
  unfold try_catch. destruct (m1 s1) as [o1 s1'], (m2 s2) as [o2 s2'].
  simpl in Eo, Ew, Etr. subst o2. destruct o1 as [a|e|c]; simpl; auto.
  now apply Hh.
Qed.

Lemma same_exists (path : string) :
  same_run (exists_ sys path) (exists_ (observed sys) path).
Proof. intros s1 s2 Hw Ht. unfold exists_. simpl. rewrite Hw. auto. Qed.

Lemma same_random :
  same_run (ask (randomBytes_hex sys)) (ask (randomBytes_hex (observed sys))).
Proof.
  intros s1 s2 Hw Ht. unfold ask. simpl. rewrite Hw.
  destruct (randomBytes_hex sys (world s1)) as [h w]. simpl. auto.
Qed.

Lemma same_exec (cmd : string) :
  same_run (exec sys cmd) (exec (observed sys) cmd).
Proof.
  intros s1 s2 Hw Ht. unfold exec, bind, emit, call. simpl. rewrite Hw, Ht.
  destruct (execSync sys cmd (world s1)) as [[e|out] w]; simpl; auto.
Qed.

Lemma same_install_failed (app : Target) (e : Error) :
  same_run (W:=W) (install_failed app e) (install_failed app e).
Proof.
  unfold install_failed. apply same_bind; [apply same_log|].
  intros _. apply same_ret.
Qed.

Lemma same_start (parallelFlag : bool) (app : Target) :
  same_run (installApp_start sys parallelFlag app)
    (installApp_start (observed sys) parallelFlag app).
Proof.
  unfold installApp_start, check_and_download. apply same_try_catch.
  - apply same_bind; [apply same_exec|]. intro existingApps.
    destruct (JS.trim existingApps).
    + apply same_bind; [apply same_random|]. intro randomId.
      apply same_bind; [apply same_log|]. intros _.
      apply same_bind; [|intro; apply same_ret].
      unfold download_promise. apply same_try_catch; [|intro; apply same_ret].
      apply same_bind; [apply same_exec | intro; apply same_ret].
    + apply same_bind; [apply same_log | intro; apply same_ret].
  - intro e. apply same_bind; [apply same_install_failed|].
    intro. apply same_ret.
Qed.

Lemma same_place (appFile : string) :
  same_run (place sys appFile) (place (observed sys) appFile).
Proof.
  unfold place. destruct appFile as [|c r]; [apply same_ret|].
  apply same_bind; [apply same_exists|]. intros []; [apply same_log|].
  apply same_bind; [apply same_exec | intro; apply same_log].
Qed.

Lemma same_place_all (appFiles : list string) :
  same_run (place_all sys appFiles) (place_all (observed sys) appFiles).
Proof.
  induction appFiles as [|f l IH]; simpl; [apply same_ret|].
  apply same_bind; [apply same_place | intro; exact IH].
Qed.

Lemma same_finish (app : Target) (st : Started) :
  same_run (finish sys app st) (finish (observed sys) app st).
Proof.
  destruct st as [r|tempDir tempFile rejected]; simpl; [apply same_ret|].
  unfold installApp_resume, extract_and_place.
  apply same_try_catch; [|apply same_install_failed].
  apply same_bind.
  { destruct rejected; [apply same_throw | apply same_ret]. }
  intros _. apply same_bind; [apply same_exec|]. intros _.
  apply same_bind; [apply same_exec|]. intros _.
  apply same_bind; [apply same_exec|]. intros found. cbv zeta.
  destruct (length (JS.split "010" (JS.trim found)) =? 0)%nat;
    [apply same_throw|].
  apply same_bind; [apply same_place_all|]. intros _.
  apply same_bind; [apply same_exec | intro; apply same_ret].
Qed.

Lemma same_mapM {A B} (f1 : A -> M W B) (f2 : A -> M (Observed W) B)
    (l : list A) :
  (forall a, same_run (f1 a) (f2 a)) -> same_run (mapM f1 l) (mapM f2 l).
Proof.
  intro Hf. induction l as [|a l IH]; simpl; [apply same_ret|].
  apply same_bind; [apply Hf|]. intro b.
  apply same_bind; [exact IH | intro; apply same_ret].
Qed.

Lemma same_finish_all (l : list (Target * Started)) :
  same_run (finish_all sys l) (finish_all (observed sys) l).
Proof.
  induction l as [|[app st] l IH]; simpl; [apply same_ret|].
  apply same_bind; [apply same_finish|]. intro r.
  apply same_bind; [exact IH | intro; apply same_ret].
Qed.

Lemma same_install_all (parallelFlag : bool) (apps : list Target) :
  same_run (install_all sys parallelFlag apps)
    (install_all (observed sys) parallelFlag apps).
Proof.
  unfold install_all. destruct parallelFlag.
  - unfold install_parallel. apply same_bind.
    + apply same_mapM. intro app. apply same_start.
    + intro started. apply same_finish_all.
  - unfold install_sequential. apply same_mapM. intro app.
    unfold installApp. apply same_bind; [apply same_start|].
    intro st. apply same_finish.
Qed.

End SameRun.

(** ** The pipelines of a run *)

Lemma skipn_length_app {A} (l k : list A) : skipn (length l) (l ++ k) = k.
Proof. induction l as [|a l IH]; simpl; auto. Qed.

Lemma mapM_in_turn {W A B} (f : A -> M W B) (l : list A) (s s' : State W)
    (bs : list B) :
  mapM f l s = (Ret bs, s') -> in_turn f s l bs s'.
Proof.
  revert s bs. induction l as [|a l IH]; simpl; intros s bs E.
  - inversion E. constructor.
  - unfold bind at 1 in E. destruct (f a s) as [[b|e|c] s1] eqn:Ea;
      try discriminate.
    unfold bind at 1 in E.
    destruct (mapM f l s1) as [[bs'|e|c] s2] eqn:El; try discriminate.
    inversion E; subst. econstructor; [exact Ea | now apply IH].
Qed.

Lemma finish_all_in_turn {W} (sys : Sys W) (l : list (Target * Started))
    (s s' : State W) (rs : list InstallResult) :
  finish_all sys l s = (Ret rs, s') ->
  in_turn (fun x => finish sys (fst x) (snd x)) s l rs s'.
Proof.
  revert s rs. induction l as [|[app st] l IH]; simpl; intros s rs E.
  - inversion E. constructor.
  - unfold bind at 1 in E.
    destruct (finish sys app st s) as [[r|e|c] s1] eqn:Ea; try discriminate.
    unfold bind at 1 in E.
    destruct (finish_all sys l s1) as [[rs'|e|c] s2] eqn:El; try discriminate.
    inversion E; subst. econstructor; [exact Ea | now apply IH].
Qed.

Section Runs.

Context {W : Type} (sys : Sys W).

(** The record and the commands of the trace grow by [new]. *)
Local Abbreviation grows :=
  (fun (s s' : State (Observed W)) (new : list Answer) =>
     answers s' = (answers s ++ new)%list
     /\ executed (trace s') = (executed (trace s) ++ map fst new)%list).

Lemma grows_nil (s : State (Observed W)) : grows s s [].
Proof. cbv beta. simpl. now rewrite !app_nil_r. Qed.

Lemma grows_app (s s1 s2 : State (Observed W)) (new1 new2 : list Answer) :
  grows s s1 new1 -> grows s1 s2 new2 -> grows s s2 (new1 ++ new2)%list.
Proof.
  intros [Ea1 Et1] [Ea2 Et2]. cbv beta.
  now rewrite Ea2, Ea1, Et2, Et1, map_app, !app_assoc.
Qed.

Lemma logged_logs {A} (m : M (Observed W) A)
    (Q : outcome A -> list Answer -> Prop) (s : State (Observed W)) :
  logs m Q ->
  exists o s' new,
    m s = (o, s') /\ grows s s' new /\ Q o new
    /\ logged m s
       = (match o with
          | Ret a => Ret (a, new)
          | Throw e => Throw e
          | Exit c => Exit c
          end, s').
Proof.
  intro H. destruct (H s) as (o & s' & new & E & Ea & Et & Hq).
  exists o, s', new. split; [exact E|]. split; [now split|].
  split; [exact Hq|].
  unfold logged. rewrite E, Ea, skipn_length_app. now destruct o.
Qed.

Lemma begins_with_search_app (app : Target) (p q : list Answer) :
  begins_with_search app p -> begins_with_search app (p ++ q).
Proof. intros (a & rest & ->). now exists a, (rest ++ q)%list. Qed.

(** The whole of [installApp]: its result is the verdict of the answers
    given to its commands, the first of which is the search of the
    destination. *)
Lemma installApp_report (parallelFlag : bool) (app : Target) :
  logs (installApp (observed sys) parallelFlag app)
    (fun o new =>
       o = Ret (verdict app (map snd new)) /\ begins_with_search app new).
Proof.
  unfold installApp. eapply logs_bind; [apply installApp_start_report| | |].
  - intros st new1 (st' & E & Hst). inversion E; subst st'.
    eapply logs_weaken; [exact (finish_report sys app st new1 Hst)|].
    intros o new2 ->. split; [reflexivity|].
    apply begins_with_search_app, Hst.
  - intros e new1 (st & E & _). discriminate.
  - intros c new1 (st & E & _). discriminate.
Qed.

(** A result with the answers it is the verdict of. *)
Local Abbreviation judged :=
  (fun (app : Target) (x : InstallResult * list Answer) =>
     fst x = verdict app (map snd (snd x))
     /\ begins_with_search app (snd x)).

Lemma sequential_pipelines_spec (apps : list Target) (s : State (Observed W)) :
  exists l s',
    sequential_pipelines sys apps s = (Ret l, s')
    /\ install_sequential (observed sys) apps s = (Ret (map fst l), s')
    /\ Forall2 judged apps l
    /\ grows s s' (concat (map snd l)).
Proof.
  unfold sequential_pipelines, install_sequential. revert s.
  induction apps as [|app apps IH]; intro s; simpl.
  - exists [], s. split; [reflexivity|]. split; [reflexivity|].
    split; [constructor | apply grows_nil].
  - destruct (logged_logs _ _ s (installApp_report false app))
      as (o & s1 & new & E & Hg & [-> Hb] & El).
    destruct (IH s1) as (l & s' & E1 & E2 & HF & Hg1).
    exists ((verdict app (map snd new), new) :: l), s'.
    rewrite (bind_returned _ _ _ _ _ El), (bind_returned _ _ _ _ _ E1).
    rewrite (bind_returned _ _ _ _ _ E), (bind_returned _ _ _ _ _ E2).
    split; [reflexivity|]. split; [reflexivity|].
    split; [constructor; [now split | exact HF]|].
    simpl. eapply grows_app; eauto.
Qed.

Lemma started_pipelines_spec (apps : list Target) (s : State (Observed W)) :
  exists started s',
    mapM (fun app => logged (installApp_start (observed sys) true app)) apps s
    = (Ret started, s')
    /\ mapM (installApp_start (observed sys) true) apps s
       = (Ret (map fst started), s')
    /\ Forall2 (fun app x => start_report app (fst x) (snd x)) apps started
    /\ grows s s' (concat (map snd started)).
Proof.
  revert s. induction apps as [|app apps IH]; intro s; simpl.
  - exists [], s. split; [reflexivity|]. split; [reflexivity|].
    split; [constructor | apply grows_nil].
  - destruct (logged_logs _ _ s (installApp_start_report sys true app))
      as (o & s1 & new & E & Hg & (st & -> & Hst) & El).
    destruct (IH s1) as (l & s' & E1 & E2 & HF & Hg1).
    exists ((st, new) :: l), s'.
    rewrite (bind_returned _ _ _ _ _ El), (bind_returned _ _ _ _ _ E1).
    rewrite (bind_returned _ _ _ _ _ E), (bind_returned _ _ _ _ _ E2).
    split; [reflexivity|]. split; [reflexivity|].
    split; [now constructor|]. simpl. eapply grows_app; eauto.
Qed.

Lemma finish_pipelines_spec (apps : list Target)
    (started : list (Started * list Answer)) :
  Forall2 (fun app x => start_report app (fst x) (snd x)) apps started ->
  forall s, exists l afters s',
    finish_pipelines sys (combine apps started) s = (Ret l, s')
    /\ finish_all (observed sys) (combine apps (map fst started)) s
       = (Ret (map fst l), s')
    /\ Forall2 judged apps l
    /\ grows s s' (concat afters)
    /\ map snd l = zip_with app (map snd started) afters
    /\ length afters = length apps.
Proof.
  induction 1 as [|app [st before] apps started Hst _ IH]; intro s; simpl.
  - exists [], [], s. split; [reflexivity|]. split; [reflexivity|].
    split; [constructor|]. split; [apply grows_nil | auto].
  - simpl in Hst.
    destruct (logged_logs _ _ s (finish_report sys app st before Hst))
      as (o & s1 & new & E & Hg & -> & El).
    destruct (IH s1) as (l & afters & s' & E1 & E2 & HF & Hg1 & Hz & Hl).
    exists ((verdict app (map snd (before ++ new)), (before ++ new)%list) :: l),
      (new :: afters), s'.
    rewrite (bind_returned _ _ _ _ _ El), (bind_returned _ _ _ _ _ E1).
    rewrite (bind_returned _ _ _ _ _ E), (bind_returned _ _ _ _ _ E2).
    split; [reflexivity|]. split; [reflexivity|].
    split.
    { constructor; [|exact HF]. split; [reflexivity|].
      apply begins_with_search_app, Hst. }
    split; [simpl; eapply grows_app; eauto|].
    simpl. now rewrite Hz, Hl.
Qed.

Lemma parallel_pipelines_spec (apps : list Target) (s : State (Observed W)) :
  exists l befores afters s',
    parallel_pipelines sys apps s = (Ret l, s')
    /\ install_parallel (observed sys) apps s = (Ret (map fst l), s')
    /\ Forall2 judged apps l
    /\ grows s s' (concat befores ++ concat afters)%list
    /\ map snd l = zip_with app befores afters
    /\ length befores = length apps
    /\ length afters = length apps.
Proof.
  unfold parallel_pipelines, install_parallel.
  destruct (started_pipelines_spec apps s)
    as (started & s1 & E1 & E2 & HF & Hg1).
  destruct (finish_pipelines_spec apps started HF s1)
    as (l & afters & s' & E3 & E4 & HJ & Hg2 & Hz & Hl).
  exists l, (map snd started), afters, s'.
  rewrite (bind_returned _ _ _ _ _ E1), (bind_returned _ _ _ _ _ E2).
  split; [exact E3|]. split; [exact E4|]. split; [exact HJ|].
  split; [eapply grows_app; eauto|]. split; [exact Hz|].
  split; [|exact Hl]. rewrite length_map. symmetry. eapply Forall2_length, HF.
Qed.

Lemma judged_verdicts (apps : list Target) (l : list (InstallResult * list Answer)) :
  Forall2 judged apps l ->
  Forall3 (fun app p r =>
             r = verdict app (map snd p) /\ begins_with_search app p)
    apps (map snd l) (map fst l).
Proof.
  induction 1 as [|app [r p] apps l H _ IH]; simpl; constructor; auto.
Qed.

(** In either mode the observed run is the run, its results are,
    position by position, the verdicts of its pipelines, and its record is
    made of its pipelines: one after the other in the sequential mode,
    what came before every [await] and then what came after in the
    parallel mode. *)
Lemma install_all_pipelines (parallelFlag : bool) (apps : list Target)
    (s : State W) :
  exists results s2,
    install_all (observed sys) parallelFlag apps (observe s) = (Ret results, s2)
    /\ fst (install_all sys parallelFlag apps s) = Ret results
    /\ fst (world s2) = world (snd (install_all sys parallelFlag apps s))
    /\ trace s2 = trace (snd (install_all sys parallelFlag apps s))
    /\ Forall3 (fun app p r =>
                  r = verdict app (map snd p) /\ begins_with_search app p)
         apps (pipelines sys parallelFlag apps s) results
    /\ executed (trace s2) = (executed (trace s) ++ map fst (answers s2))%list
    /\ (if parallelFlag
        then exists befores afters,
               length befores = length apps
               /\ length afters = length apps
               /\ pipelines sys parallelFlag apps s
                  = zip_with app befores afters
               /\ answers s2 = (concat befores ++ concat afters)%list
        else answers s2 = concat (pipelines sys parallelFlag apps s)).
Proof.
  destruct (same_install_all sys parallelFlag apps s (observe s) eq_refl eq_refl)
    as (Eo & Ew & Et).
  unfold pipelines, install_all in *. destruct parallelFlag.
  - destruct (parallel_pipelines_spec apps (observe s))
      as (l & befores & afters & s2 & E1 & E2 & HF & [Ha Hx] & Hz & Hb & Hl).
    rewrite E2 in Eo, Ew, Et. cbn [fst snd] in Eo, Ew, Et.
    exists (map fst l), s2. rewrite E1.
    split; [exact E2|]. split; [now rewrite <- Eo|]. split; [exact Ew|].
    split; [exact Et|]. split; [now apply judged_verdicts|].
    split; [now rewrite Hx, Ha|].
    exists befores, afters. auto.
  - destruct (sequential_pipelines_spec apps (observe s))
      as (l & s2 & E1 & E2 & HF & [Ha Hx]).
    rewrite E2 in Eo, Ew, Et. cbn [fst snd] in Eo, Ew, Et.
    exists (map fst l), s2. rewrite E1.
    split; [exact E2|]. split; [now rewrite <- Eo|]. split; [exact Ew|].
    split; [exact Et|]. split; [now apply judged_verdicts|].
    split; [now rewrite Hx, Ha | exact Ha].
Qed.

End Runs.

Lemma Forall3_verdicts (apps : list Target) (ps : list (list Answer))
    (results : list InstallResult) :
  Forall3 (fun app p r =>
             r = verdict app (map snd p) /\ begins_with_search app p)
    apps ps results ->
  results = zip_with verdict apps (outcomes ps) /\ length ps = length apps.
Proof.
  induction 1 as [|app p r apps ps results [-> _] _ [IH1 IH2]]; simpl; auto.
  split; [now rewrite <- IH1 | now rewrite IH2].
Qed.

(** ** Each result by its own target's answers *)

(** The results of a run are those of the calls of [installApp]: call
    after call in the sequential mode; every call up to its [await] and
    then every continuation, in the same order, in the parallel mode. *)
Lemma install_all_in_turn {W} (sys : Sys W) (parallelFlag : bool)
    (apps : list Target) (s s' : State W) (results : list InstallResult) :
  install_all sys parallelFlag apps s = (Ret results, s') ->
  if parallelFlag
  then exists started s1,
         in_turn (installApp_start sys true) s apps started s1
         /\ in_turn (fun x => finish sys (fst x) (snd x)) s1
              (combine apps started) results s'
  else in_turn (installApp sys false) s apps results s'.
Proof.
  intro E. unfold install_all in E. destruct parallelFlag.
  - unfold install_parallel, bind in E.
    destruct (mapM (installApp_start sys true) apps s)
      as [[started|e|c] s1] eqn:Es; try discriminate.
    exists started, s1. split; [now apply mapM_in_turn|].
    now apply finish_all_in_turn.
  - now apply mapM_in_turn.
Qed.

Lemma in_failed_answer (p : list Answer) :
  (exists e, In (inl e) (map snd p)) <-> exists cmd e, In (cmd, inl e) p.
Proof.
  split.
  - intros (e & H). apply in_map_iff in H. destruct H as ([cmd r] & E & H).
    simpl in E. subst r. eauto.
  - intros (cmd & e & H). exists e. apply in_map_iff. exists (cmd, inl e). auto.
Qed.

(** C1: in either mode the orchestrator returns, one result per target and
    in the targets' order.  Each result carries its target's name and is
    the verdict of the answers given to that target's own commands, the
    first of which is the search of the destination: a failure, with the
    first error, exactly when one of them failed, whichever command it
    was.  The results are those of the calls of
    [installApp] themselves: in the sequential mode each call is run from
    the state the one before left; in the parallel mode every call is run
    up to its [await] and then each is finished, in the same order.  The
    run on the observed system is the same run, the commands of its record
    are the commands of its trace, and its record is made of the pipelines
    of the targets.  One call of [installApp], in any state, returns the
    verdict of the answers its commands were given, and an error thrown in
    either half of its [try] block becomes that target's failed result. *)
Theorem C1_one_result_per_target {W} (sys : Sys W) (parallelFlag : bool)
    (apps : list Target) (s : State W) :
  (exists results s',
     install_all sys parallelFlag apps s = (Ret results, s')
     /\ length results = length apps
     /\ map r_name results = map t_name apps
     /\ Forall2 result_of apps results
     /\ Forall3 (fun app p r =>
                   r = verdict app (map snd p)
                   /\ (success r = false <-> exists cmd e, In (cmd, inl e) p)
                   /\ begins_with_search app p)
          apps (pipelines sys parallelFlag apps s) results
     /\ (if parallelFlag
         then exists started s1,
                in_turn (installApp_start sys true) s apps started s1
                /\ in_turn (fun x => finish sys (fst x) (snd x)) s1
                     (combine apps started) results s'
         else in_turn (installApp sys false) s apps results s')
     /\ (exists s2,
           install_all (observed sys) parallelFlag apps (observe s)
           = (Ret results, s2)
           /\ fst (world s2) = world s'
           /\ trace s2 = trace s'
           /\ executed (trace s2)
              = (executed (trace s) ++ map fst (answers s2))%list
           /\ (if parallelFlag
               then exists befores afters,
                      length befores = length apps
                      /\ length afters = length apps
                      /\ pipelines sys parallelFlag apps s
                         = zip_with (fun before after => before ++ after)%list
                             befores afters
                      /\ answers s2 = (concat befores ++ concat afters)%list
               else answers s2 = concat (pipelines sys parallelFlag apps s))))
  /\ (forall app (s0 : State (Observed W)),
        exists new s1,
          installApp (observed sys) parallelFlag app s0
          = (Ret (verdict app (map snd new)), s1)
          /\ answers s1 = (answers s0 ++ new)%list
          /\ executed (trace s1) = (executed (trace s0) ++ map fst new)%list
          /\ (success (verdict app (map snd new)) = false
              <-> exists cmd e, In (cmd, inl e) new)
          /\ begins_with_search app new)
  /\ (forall app s0 s1 e,
        check_and_download sys parallelFlag app s0 = (Throw e, s1) ->
        exists s2,
          installApp sys parallelFlag app s0 = (Ret (failed_result app e), s2))
  /\ (forall app tempDir tempFile rejected s0 s1 e,
        extract_and_place sys app tempDir tempFile rejected s0 = (Throw e, s1) ->
        exists s2,
          installApp_resume sys app tempDir tempFile rejected s0
          = (Ret (failed_result app e), s2)).
Proof.
  split; [|split; [|split]].
  - destruct (install_all_results sys parallelFlag apps s)
      as (results & s' & E & HF).
    destruct (install_all_pipelines sys parallelFlag apps s)
      as (results' & s2 & E2 & Eo & Ew & Et & H3 & Hx & Hrec).
    rewrite E in Eo, Ew, Et. cbn [fst snd] in Eo, Ew, Et.
    inversion Eo; subst results'.
    exists results, s'. split; [exact E|].
    split; [symmetry; eapply Forall2_length, HF|].
    split; [now apply Forall2_result_names|]. split; [exact HF|].
    split; [|split].
    + eapply Forall3_impl; [exact H3|]. intros app p r [-> Hb].
      split; [reflexivity|]. split; [|exact Hb].
      rewrite verdict_fails. apply in_failed_answer.
    + now apply install_all_in_turn.
    + exists s2. auto.
  - intros app s0.
    destruct (installApp_report sys parallelFlag app s0)
      as (o & s1 & new & E & Ea & Et & -> & Hb).
    exists new, s1. split; [exact E|]. split; [exact Ea|]. split; [exact Et|].
    split; [|exact Hb]. rewrite verdict_fails. apply in_failed_answer.
  - intros app s0 s1 e E. unfold installApp, installApp_start, bind.
    rewrite (try_catch_caught _ _ _ _ _ E). simpl. eauto.
  - intros app d f rej s0 s1 e E. unfold installApp_resume.
    rewrite (try_catch_caught _ _ _ _ _ E). simpl. eauto.
Qed.

Lemma C1_one_result_per_target_witness :
  let m := machine_with [inl corrupt] in
  let app := {| t_url := "http://x/a.zip"; t_name := "A"; t_id := 1 |} in
  exists s2,
    installApp (scripted m) false app (start_state m)
    = (Ret (failed_result app corrupt), s2).
Proof.
  intros m app.
  destruct (C1_one_result_per_target (scripted m) false [] (start_state m))
    as (_ & _ & H & _).
  apply (H app (start_state m)
           (snd (check_and_download (scripted m) false app (start_state m)))).
  vm_compute. reflexivity.
Defined.

(** The pipelines of the isolation scenario.  The second target's is the
    search of the destination, the download, the making of the temporary
    directory and the extraction that failed; and the answers given to
    each target's commands are the same under the two schedules, though
    the commands of the three targets are run in a different order. *)
Example isolation_pipelines :
  nth_error (pipelines (scripted (machine_with sequential_script)) false
               three_targets (start_state (machine_with sequential_script))) 1
  = Some [ (find_existing_cmd
              {| t_url := "http://x/b.zip"; t_name := "B"; t_id := 2 |},
            inr "");
           (curl_cmd false
              {| t_url := "http://x/b.zip"; t_name := "B"; t_id := 2 |}
              "/tmp/setapp_00_2.zip",
            inr "");
           (mkdir_cmd "/tmp/setapp_00_2", inr "");
           (unzip_cmd "/tmp/setapp_00_2.zip" "/tmp/setapp_00_2", inl corrupt) ]
  /\ outcomes (pipelines (scripted (machine_with sequential_script)) false
                 three_targets (start_state (machine_with sequential_script)))
     = [ [inr ""; inr ""; inr ""; inr ""; inr "/tmp/setapp_00_1/A.app"; inr "";
          inr ""];
         [inr ""; inr ""; inr ""; inl corrupt];
         [inr ""; inr ""; inr ""; inr ""; inr "/tmp/setapp_00_3/C.app"; inr "";
          inr ""] ]
  /\ outcomes (pipelines (scripted (machine_with parallel_script)) true
                 three_targets (start_state (machine_with parallel_script)))
     = outcomes (pipelines (scripted (machine_with sequential_script)) false
                   three_targets (start_state (machine_with sequential_script)))
  /\ executed (trace (snd (install_all
                             (scripted (machine_with parallel_script)) true
                             three_targets
                             (start_state (machine_with parallel_script)))))
     <> executed (trace (snd (install_all
                                (scripted (machine_with sequential_script)) false
                                three_targets
                                (start_state (machine_with sequential_script))))).
Proof.
  repeat split; try (vm_compute; reflexivity). vm_compute. discriminate.
Qed.

(** ** The two schedules *)

(** C10: both modes give the results of the calls of [installApp] by
    position: call after call in the sequential mode, every call up to its
    [await] and then every continuation in the parallel mode.  In both the
    results are, position by position, the verdicts of the answers given
    to each target's own commands, and they carry the targets' names in
    the targets' order.  So when each target's commands are given the same
    answers in a parallel run as in a sequential run, the parallel run
    returns the list the sequential run returns, whatever the order in
    which the commands of different targets were run. *)
Theorem C10_parallel_matches_sequential {W1 W2} (sysS : Sys W1) (sysP : Sys W2)
    (apps : list Target) (sS : State W1) (sP : State W2) :
  (exists sequential sS' parallel sP' started sP1,
     install_all sysS false apps sS = (Ret sequential, sS')
     /\ install_all sysP true apps sP = (Ret parallel, sP')
     /\ in_turn (installApp sysS false) sS apps sequential sS'
     /\ in_turn (installApp_start sysP true) sP apps started sP1
     /\ in_turn (fun x => finish sysP (fst x) (snd x)) sP1
          (combine apps started) parallel sP'
     /\ sequential
        = zip_with verdict apps (outcomes (pipelines sysS false apps sS))
     /\ parallel
        = zip_with verdict apps (outcomes (pipelines sysP true apps sP))
     /\ length (pipelines sysS false apps sS) = length apps
     /\ length (pipelines sysP true apps sP) = length apps
     /\ map r_name sequential = map t_name apps
     /\ map r_name parallel = map t_name apps)
  /\ (outcomes (pipelines sysP true apps sP)
      = outcomes (pipelines sysS false apps sS) ->
      fst (install_all sysP true apps sP) = fst (install_all sysS false apps sS)).
Proof.
  destruct (install_all_pipelines sysS false apps sS)
    as (rs & _ & _ & Es & _ & _ & Hs & _).
  destruct (install_all_pipelines sysP true apps sP)
    as (rp & _ & _ & Ep & _ & _ & Hp & _).
  destruct (Forall3_verdicts _ _ _ Hs) as [Vs Ls].
  destruct (Forall3_verdicts _ _ _ Hp) as [Vp Lp].
  split.
  - destruct (install_all_results sysS false apps sS) as (r1 & sS' & E1 & HF1).
    destruct (install_all_results sysP true apps sP) as (r2 & sP' & E2 & HF2).
    rewrite E1 in Es. rewrite E2 in Ep. cbn [fst] in Es, Ep.
    inversion Es; subst r1. inversion Ep; subst r2.
    destruct (install_all_in_turn sysP true apps sP sP' rp E2)
      as (started & sP1 & Hstart & Hfinish).
    exists rs, sS', rp, sP', started, sP1.
    split; [exact E1|]. split; [exact E2|].
    split; [exact (install_all_in_turn sysS false apps sS sS' rs E1)|].
    split; [exact Hstart|]. split; [exact Hfinish|].
    split; [exact Vs|]. split; [exact Vp|]. split; [exact Ls|].
    split; [exact Lp|].
    split; now apply Forall2_result_names.
  - intro Hsame. rewrite Es, Ep, Vs, Vp, Hsame. reflexivity.
Qed.

Lemma C10_parallel_matches_sequential_witness :
  fst (install_all (scripted (machine_with parallel_script)) true
         three_targets (start_state (machine_with parallel_script)))
  = fst (install_all (scripted (machine_with sequential_script)) false
           three_targets (start_state (machine_with sequential_script))).
Proof.
  apply (C10_parallel_matches_sequential
           (scripted (machine_with sequential_script))
           (scripted (machine_with parallel_script))
           three_targets
           (start_state (machine_with sequential_script))
           (start_state (machine_with parallel_script))).
  vm_compute. reflexivity.
Defined.
